(** * barcodesDB: k-mer bitmap query engine

    A shallow embedding of the C++ query tools of barcodesDB
    (the windowed streaming search, the membership query and the dense
    bitmap generator) together with the properties stated about them.

    Conventions.
    - A [uintN_t] value is a [Z] in [[0, 2^N)]; every operation that can
      leave that range in C++ is followed by an explicit [wrapN].
    - An [int] is a [Z]; the program keeps its [int] values far inside
      the 32-bit range (k <= 32, percentages <= 100), so no wrap-around
      is written for them.
    - A [std::vector] is a [list]; indexed reads and writes use stdpp's
      lookup [!!] and insert [<[ i := x ]>].
    - A [std::string] is a [string]; raw bytes are [Z] in [[0, 256)]. *)

From Stdlib Require Import ZArith Lia Bool List Ascii String.
From stdpp Require Import base tactics option list list_numbers.

Local Open Scope Z_scope.

(** ** Machine integers *)

Definition wrap8 (x : Z) : Z := x mod 2 ^ 8.
Definition wrap16 (x : Z) : Z := x mod 2 ^ 16.
Definition wrap32 (x : Z) : Z := x mod 2 ^ 32.
Definition wrap64 (x : Z) : Z := x mod 2 ^ 64.

Definition UINT64_MAX : Z := 2 ^ 64 - 1.

Definition is_u8 (x : Z) : Prop := 0 <= x < 2 ^ 8.
Definition is_u16 (x : Z) : Prop := 0 <= x < 2 ^ 16.
Definition is_u32 (x : Z) : Prop := 0 <= x < 2 ^ 32.
Definition is_u64 (x : Z) : Prop := 0 <= x < 2 ^ 64.

(** ** Expansion helpers (query_substring_bitmap_stream) *)

Module Expansion.

(** [pow4]: [(n<=0) ? 1ULL : (1ULL << (2*n))].  For [n >= 32] the C++
    shift count is at least 64; the embedding takes the wrapped value
    of the mathematical shift, which is 0. *)
Definition pow4 (n : Z) : Z :=
  if n <=? 0 then 1 else wrap64 (Z.shiftl 1 (2 * n)).

(** [make_value]: the kout-mer obtained by putting [left_idx] (L digits)
    before the anchor and [right_idx] (R = d - L digits) after it. *)
Definition make_value (parentB k0 kout L left_idx right_idx : Z) : Z :=
  let d := kout - k0 in
  let R := d - L in
  Z.lor (Z.lor (wrap64 (Z.shiftl left_idx (2 * (k0 + R))))
               (wrap64 (Z.shiftl parentB (2 * R))))
        right_idx.

(** The three reference parameters [L], [left_idx], [right_idx]. *)
Record ExpState : Type := mkExp {
  eL : Z;          (* uint8_t *)
  eleft : Z;       (* uint64_t *)
  eright : Z       (* uint64_t *)
}.

Definition init_state_first (d : Z) : ExpState :=
  mkExp (wrap8 d) 0 0.

(** [advance_state]: the boolean result and the updated references. *)
Definition advance_state (d : Z) (s : ExpState) : bool * ExpState :=
  let Li := eL s in
  let R := d - Li in
  let right_lim := pow4 R in
  let ri := wrap64 (eright s + 1) in
  if ri <? right_lim then (true, mkExp (eL s) (eleft s) ri)
  else
    let left_lim := pow4 Li in
    let li := wrap64 (eleft s + 1) in
    if li <? left_lim then (true, mkExp (eL s) li 0)
    else if Li =? 0 then (false, mkExp (eL s) 0 0)
    else (true, mkExp (wrap8 (Li - 1)) 0 0).

(** The per-parent loop of [refill_lane] without the buffer bound:
    visit the current state, advance, stop when [advance_state] reports
    exhaustion.  [None] when the fuel runs out first. *)
Fixpoint expand_from (fuel : nat) (d : Z) (s : ExpState) : option (list ExpState) :=
  match fuel with
  | O => None
  | S f =>
      match advance_state d s with
      | (false, _) => Some [s]
      | (true, s') =>
          match expand_from f d s' with
          | Some l => Some (s :: l)
          | None => None
          end
      end
  end.

(** Number of [advance_state] calls up to and including the one that
    returns [false]. *)
Fixpoint steps_to_exhaustion (fuel : nat) (d : Z) (s : ExpState) : option nat :=
  match fuel with
  | O => None
  | S f =>
      match advance_state d s with
      | (false, _) => Some 1%nat
      | (true, s') => option_map S (steps_to_exhaustion f d s')
      end
  end.

Definition value_of (parentB k0 kout : Z) (s : ExpState) : Z :=
  make_value parentB k0 kout (eL s) (eleft s) (eright s).

(** Values produced for one anchor when the buffer never fills. *)
Definition expand_values (fuel : nat) (parentB k0 kout : Z) : option (list Z) :=
  option_map (map (value_of parentB k0 kout))
             (expand_from fuel (kout - k0) (init_state_first (kout - k0))).

(** *** Specification side: the documented enumeration *)

(** Well-formed states: the fields are in the range of their C++ types
    and the indices are below the true powers of four. *)
Definition wf_state (d : Z) (s : ExpState) : Prop :=
  0 <= eL s <= d /\ eL s < 2 ^ 8 /\
  0 <= eleft s < 2 ^ 64 /\ 0 <= eright s < 2 ^ 64 /\
  eleft s < 4 ^ eL s /\ eright s < 4 ^ (d - eL s).

(** What is left to enumerate on one index whose limit is [pow4 n]. *)
Definition remaining (n x : Z) : Z :=
  if n <? 32 then 4 ^ n - 1 - x else 0.

(** A variant of the state that decreases at every successful step. *)
Definition measure (d : Z) (s : ExpState) : Z :=
  (eL s * 2 ^ 64 + remaining (eL s) (eleft s)) * 2 ^ 64
  + remaining (d - eL s) (eright s).

(** All right indices for a fixed [(L, left_idx)], in increasing order. *)
Definition block (d L l : Z) : list ExpState :=
  map (mkExp L l) (seqZ 0 (4 ^ (d - L))).

(** All [(left_idx, right_idx)] for a fixed [L]: left outermost. *)
Definition level (d L : Z) : list ExpState :=
  flat_map (block d L) (seqZ 0 (4 ^ L)).

(** The documented order: [L = d, d-1, ..., 0]. *)
Definition all_states (d : Z) : list ExpState :=
  flat_map (level d) (rev (seqZ 0 (d + 1))).

(** The part of [all_states d] from state [s] onwards. *)
Definition tail_from (d : Z) (s : ExpState) : list ExpState :=
  map (mkExp (eL s) (eleft s)) (seqZ (eright s) (4 ^ (d - eL s) - eright s))
  ++ flat_map (block d (eL s)) (seqZ (eleft s + 1) (4 ^ eL s - (eleft s + 1)))
  ++ flat_map (level d) (rev (seqZ 0 (eL s))).

End Expansion.

(** ** DNA helpers (query_substring_bitmap_stream) *)

Module Dna.

(** A [std::string] is a list of characters. *)
Definition str : Type := list ascii.

Definition lit (s : string) : str := list_ascii_of_string s.

Definition str_eqb (a b : str) : bool :=
  if List.list_eq_dec Ascii.ascii_dec a b then true else false.

Definition base4_digit (c : ascii) : Z :=
  match c with
  | "A"%char | "a"%char => 0
  | "C"%char | "c"%char => 1
  | "G"%char | "g"%char => 2
  | "T"%char | "t"%char => 3
  | _ => -1
  end.

Definition base4_char (d : Z) : ascii :=
  match Z.land d 3 with
  | 0 => "A"%char
  | 1 => "C"%char
  | 2 => "G"%char
  | _ => "T"%char
  end.

(** [decode_kmer]: position [k-1] receives the two lowest bits, and so
    on towards position 0. *)
Fixpoint decode_kmer_go (k : nat) (val : Z) : str :=
  match k with
  | O => []
  | S k' => decode_kmer_go k' (Z.shiftr val 2) ++ [base4_char (Z.land val 3)]
  end.

Definition decode_kmer (val k : Z) : str := decode_kmer_go (Z.to_nat k) val.

Definition dna_comp (c : ascii) : ascii :=
  match c with
  | "A"%char => "T"%char
  | "a"%char => "t"%char
  | "C"%char => "G"%char
  | "c"%char => "g"%char
  | "G"%char => "C"%char
  | "g"%char => "c"%char
  | "T"%char => "A"%char
  | "t"%char => "a"%char
  | _ => "?"%char
  end.

(** [out[size-1-i] = dna_comp(s[i])]. *)
Definition revcomp_string (s : str) : str := rev (map dna_comp s).

(** Base-4 digit of [v] at position [pos] (0 = leftmost) of a k-mer. *)
Definition digit_at (v k pos : Z) : Z :=
  Z.land (Z.shiftr v (2 * (k - 1 - pos))) 3.

End Dna.

(** ** Leaf filters *)

Module Filters.
Import Dna.

(** The loop of [passes_gc_percent]: count the digits equal to 1 or 2
    among the [k] lowest base-4 digits. *)
Fixpoint gc_count_go (k : nat) (v : Z) (gc : Z) : Z :=
  match k with
  | O => gc
  | S k' =>
      let d := Z.land v 3 in
      gc_count_go k' (Z.shiftr v 2)
                  (gc + (if (d =? 1) || (d =? 2) then 1 else 0))
  end.

Definition gc_count (v k : Z) : Z := gc_count_go (Z.to_nat k) v 0.

Definition passes_gc_percent (v k gcMinPct gcMaxPct : Z) : bool :=
  let gc := gc_count v k in
  let lhs := gc * 100 in
  let lo := gcMinPct * k in
  let hi := gcMaxPct * k in
  (lo <=? lhs) && (lhs <=? hi).

Record Pattern : Type := mkPattern { pmask : Z; pbits : Z }.

Definition pattern_hit (v : Z) (p : Pattern) : bool :=
  Z.land (Z.lxor v (pbits p)) (pmask p) =? 0.

Definition contains_sub (v : Z) (pats : list Pattern) : bool :=
  existsb (pattern_hit v) pats.

Definition leaf_ok (vX kout gcMinPct gcMaxPct : Z)
           (substring_set : bool) (patterns : list Pattern) : bool :=
  if negb (passes_gc_percent vX kout gcMinPct gcMaxPct) then false
  else if substring_set && negb (contains_sub vX patterns) then false
  else true.

(** *** Pattern preparation (the lambda [append_patterns_for] of main) *)

Inductive PatError : Type :=
  | SubstringTooLong      (* "substring longer than output k" *)
  | InvalidBase.          (* "Invalid base in substring" *)

(** [sub_bits = (sub_bits << 2) | dd] over the characters. *)
Fixpoint encode_sub (sub : str) (acc : Z) : option Z :=
  match sub with
  | [] => Some acc
  | c :: rest =>
      let dd := base4_digit c in
      if dd <? 0 then None
      else encode_sub rest (Z.lor (wrap64 (Z.shiftl acc 2)) dd)
  end.

Definition base_mask (m : Z) : Z :=
  if 32 <=? m then UINT64_MAX else wrap64 (Z.shiftl 1 (2 * m)) - 1.

Definition pattern_at (kout m sub_bits pos : Z) : Pattern :=
  let shift := 2 * (kout - m - pos) in
  mkPattern (wrap64 (Z.shiftl (base_mask m) shift))
            (wrap64 (Z.shiftl sub_bits shift)).

Definition append_patterns_for (kout : Z) (sub : str) (patterns : list Pattern)
  : PatError + list Pattern :=
  let m := Z.of_nat (length sub) in
  if m =? 0 then inr patterns
  else if kout <? m then inl SubstringTooLong
  else
    match encode_sub sub 0 with
    | None => inl InvalidBase
    | Some sub_bits =>
        inr (patterns ++ map (pattern_at kout m sub_bits) (seqZ 0 (kout - m + 1)))
    end.

(** The block [if (args.substring_set) { ... }] of main. *)
Definition build_patterns (kout : Z) (substring : str) (substring_set reverse_complement : bool)
  : PatError + list Pattern :=
  if substring_set then
    match append_patterns_for kout substring [] with
    | inl e => inl e
    | inr pats =>
        if reverse_complement then
          let rc := revcomp_string substring in
          if str_eqb rc substring then inr pats
          else append_patterns_for kout rc pats
        else inr pats
    end
  else inr [].

(** *** Specification side of the leaf test *)

(** [S] (as digits) occurs in the k-mer [v] at offset [pos]. *)
Definition occurs_at (v kout : Z) (sub : str) (pos : Z) : Prop :=
  0 <= pos <= kout - Z.of_nat (length sub) /\
  forall j : nat, (j < length sub)%nat ->
    Some (digit_at v kout (pos + Z.of_nat j)) = base4_digit <$> (sub !! j).

Definition occurs (v kout : Z) (sub : str) : Prop :=
  exists pos, occurs_at v kout sub pos.

Definition gc_in_range (v kout gcMinPct gcMaxPct : Z) : Prop :=
  gcMinPct * kout <= gc_count v kout * 100 <= gcMaxPct * kout.

End Filters.

(** ** splitmix64 and the shard permutation *)

Module Perm.

Definition splitmix64 (x : Z) : Z :=
  let x := wrap64 (x + 0x9E3779B97F4A7C15) in
  let x := wrap64 (Z.lxor x (Z.shiftr x 30) * 0xBF58476D1CE4E5B9) in
  let x := wrap64 (Z.lxor x (Z.shiftr x 27) * 0x94D049BB133111EB) in
  Z.lxor x (Z.shiftr x 31).

Definition swap (p : list Z) (a b : nat) : list Z :=
  match p !! a, p !! b with
  | Some x, Some y => <[b := x]> (<[a := y]> p)
  | _, _ => p
  end.

(** The loop [for (i = n; i > 1; --i)]; [cnt] counts the iterations
    left, [i] is the loop variable. *)
Fixpoint shuffle (cnt : nat) (i : Z) (st : Z) (p : list Z) : list Z :=
  match cnt with
  | O => p
  | S cnt' =>
      let st := splitmix64 st in
      let j := wrap32 (st mod i) in
      shuffle cnt' (i - 1) st (swap p (Z.to_nat (i - 1)) (Z.to_nat j))
  end.

Definition build_perm (n seed : Z) : list Z :=
  let p := seqZ 0 n in
  let st := if seed =? 0 then 1 else seed in
  shuffle (Z.to_nat (n - 1)) n st p.

Definition identity_perm (n : Z) : list Z := seqZ 0 n.

End Perm.

(** ** Base64url and little-endian packing *)

Module B64.
Import Dna.

Definition B64URL : str :=
  lit "ABCDEFGHIJKLMNOPQRSTUVWXYZabcdefghijklmnopqrstuvwxyz0123456789-_".

(** [B64URL[i]] for a 6-bit index. *)
Definition b64_char (i : Z) : ascii := nth (Z.to_nat i) B64URL "A"%char.

(** The inner loop [while (bits >= 6)] of the encoder; it runs
    [bits / 6] times. *)
Fixpoint emit_sextets (n : nat) (buf bits : Z) (out : str) : Z * str :=
  match n with
  | O => (bits, out)
  | S n' =>
      let bits := bits - 6 in
      emit_sextets n' buf bits (out ++ [b64_char (Z.land (Z.shiftr buf bits) 63)])
  end.

(** One iteration of [for (uint8_t c : in)]; [buf] is a [uint32_t]. *)
Definition encode_step (st : Z * Z * str) (c : Z) : Z * Z * str :=
  let '(buf, bits, out) := st in
  let buf := wrap32 (Z.lor (Z.shiftl buf 8) c) in
  let bits := bits + 8 in
  let '(bits, out) := emit_sextets (Z.to_nat (bits / 6)) buf bits out in
  (buf, bits, out).

Definition b64url_encode (input : list Z) : str :=
  let '(buf, bits, out) := fold_left encode_step input (0, 0, []) in
  if bits =? 0 then out
  else out ++ [b64_char (Z.land (wrap32 (Z.shiftl buf (6 - bits))) 63)].

(** The table [T]: the index of a character in the alphabet, or -1. *)
Fixpoint index_of (c : ascii) (l : str) (i : Z) : Z :=
  match l with
  | [] => -1
  | x :: l' => if Ascii.eqb x c then i else index_of c l' (i + 1)
  end.

Definition b64_T (c : ascii) : Z := index_of c B64URL 0.

(** The decoder loop; [None] is the early [return false]. *)
Fixpoint decode_go (s : str) (buf bits : Z) (out : list Z) : option (list Z) :=
  match s with
  | [] => Some out
  | ch :: rest =>
      let v := b64_T ch in
      if v <? 0 then None
      else
        let buf := wrap32 (Z.lor (Z.shiftl buf 6) v) in
        let bits := bits + 6 in
        if 8 <=? bits then
          let bits := bits - 8 in
          decode_go rest buf bits (out ++ [Z.land (Z.shiftr buf bits) 255])
        else decode_go rest buf bits out
  end.

Definition b64url_decode (s : str) : option (list Z) := decode_go s 0 0 [].

(** The characters the encoder still writes when it is in state
    [(buf, bits)] and [l] is the input left (used to state the
    round trip by induction on the input). *)
Definition enc_from (buf bits : Z) (l : list Z) : str :=
  let '(buf', bits', out) := fold_left encode_step l (buf, bits, []) in
  if bits' =? 0 then out
  else out ++ [b64_char (Z.land (wrap32 (Z.shiftl buf' (6 - bits'))) 63)].

Definition is_byte (x : Z) : Prop := 0 <= x < 256.

(** *** Little-endian fields *)

Definition push_u16_le (x : Z) : list Z :=
  [Z.land x 255; Z.land (Z.shiftr x 8) 255].

Definition push_u32_le (x : Z) : list Z :=
  [Z.land x 255; Z.land (Z.shiftr x 8) 255;
   Z.land (Z.shiftr x 16) 255; Z.land (Z.shiftr x 24) 255].

(** The loop [for i < 8: push_back((x >> (8*i)) & 0xFF)], unrolled. *)
Definition push_u64_le (x : Z) : list Z :=
  [Z.land x 255; Z.land (Z.shiftr x 8) 255; Z.land (Z.shiftr x 16) 255;
   Z.land (Z.shiftr x 24) 255; Z.land (Z.shiftr x 32) 255;
   Z.land (Z.shiftr x 40) 255; Z.land (Z.shiftr x 48) 255;
   Z.land (Z.shiftr x 56) 255].

(** Outcome of code that reads a byte vector: a value, the early
    [return false], or an access outside the vector (which the C++
    [operator[]] leaves undefined). *)
Inductive rd (A : Type) : Type :=
  | Got (a : A)
  | Bad
  | OutOfBounds.
Arguments Got {A} a.
Arguments Bad {A}.
Arguments OutOfBounds {A}.

Definition rd_bind {A B} (x : rd A) (f : A -> rd B) : rd B :=
  match x with
  | Got a => f a
  | Bad => Bad
  | OutOfBounds => OutOfBounds
  end.

(** [b[off]]. *)
Definition at_ (b : list Z) (off : Z) : rd Z :=
  if off <? 0 then OutOfBounds
  else match b !! Z.to_nat off with
       | Some x => Got x
       | None => OutOfBounds
       end.

Definition size (b : list Z) : Z := Z.of_nat (length b).

Definition read_u16_le (b : list Z) (off : Z) : rd Z :=
  if size b <? off + 2 then Bad
  else rd_bind (at_ b off) (fun b0 =>
       rd_bind (at_ b (off + 1)) (fun b1 =>
       Got (Z.lor b0 (Z.shiftl b1 8)))).

Definition read_u32_le (b : list Z) (off : Z) : rd Z :=
  if size b <? off + 4 then Bad
  else rd_bind (at_ b off) (fun b0 =>
       rd_bind (at_ b (off + 1)) (fun b1 =>
       rd_bind (at_ b (off + 2)) (fun b2 =>
       rd_bind (at_ b (off + 3)) (fun b3 =>
       Got (Z.lor (Z.lor (Z.lor b0 (Z.shiftl b1 8)) (Z.shiftl b2 16))
                  (Z.shiftl b3 24)))))).

(** The loop [for i < 8: v |= b[off+i] << (8*i)]. *)
Fixpoint read_le_go (n : nat) (b : list Z) (off i v : Z) : rd Z :=
  match n with
  | O => Got v
  | S n' =>
      rd_bind (at_ b (off + i)) (fun x =>
      read_le_go n' b off (i + 1) (Z.lor v (Z.shiftl x (8 * i))))
  end.

Definition read_u64_le (b : list Z) (off : Z) : rd Z :=
  if size b <? off + 8 then Bad
  else read_le_go 8 b off 0 0.

End B64.

(** ** Window cursor BCW2 *)

Module Cursor.
Import Dna B64.

Record LaneState : Type := mkLaneState {
  ls_active : bool;
  ls_perm_pos : Z;        (* uint32_t *)
  ls_mode : Z;            (* uint8_t: 0=konly, 1=expand *)
  ls_after : Z;           (* uint64_t *)
  ls_parent_anchor : Z;   (* uint64_t *)
  ls_child_present : bool;
  ls_L : Z;               (* uint8_t *)
  ls_left_idx : Z;        (* uint64_t *)
  ls_right_idx : Z        (* uint64_t *)
}.

(** The member initialisers of [LaneState]. *)
Definition default_lane : LaneState :=
  mkLaneState false 0 0 UINT64_MAX UINT64_MAX false 0 0 0.

Record WindowCursor : Type := mkCursor {
  c_present : bool;
  c_flags : Z;            (* uint8_t, bit0 = random_access *)
  c_k0 : Z;               (* uint8_t *)
  c_kout : Z;             (* uint8_t *)
  c_d : Z;                (* uint8_t *)
  c_numShards : Z;        (* uint32_t *)
  c_seed : Z;             (* uint64_t *)
  c_next_perm_pos : Z;    (* uint32_t *)
  c_window : Z;           (* uint16_t *)
  c_burst : Z;            (* uint16_t *)
  c_lanes : list LaneState
}.

Definition default_cursor : WindowCursor :=
  mkCursor false 0 0 0 0 0 0 0 0 0 [].

Definition b2z (b : bool) : Z := if b then 1 else 0.

(** Body of [for (const auto& ln : c.lanes)]. *)
Definition lane_bytes (ln : LaneState) : list Z :=
  [b2z (ls_active ln)] ++
  if negb (ls_active ln) then []
  else
    push_u32_le (ls_perm_pos ln) ++ [ls_mode ln] ++
    if ls_mode ln =? 0 then push_u64_le (ls_after ln)
    else
      push_u64_le (ls_parent_anchor ln) ++ [b2z (ls_child_present ln)] ++
      if ls_child_present ln
      then [ls_L ln] ++ push_u64_le (ls_left_idx ln) ++ push_u64_le (ls_right_idx ln)
      else [].

Definition cursor_bytes (c : WindowCursor) : list Z :=
  [66; 67; 87; 50] ++                        (* 'B','C','W','2' *)
  [c_flags c; c_k0 c; c_kout c; c_d c] ++
  push_u32_le (c_numShards c) ++
  push_u64_le (c_seed c) ++
  push_u32_le (c_next_perm_pos c) ++
  push_u16_le (c_window c) ++
  push_u16_le (c_burst c) ++
  push_u16_le (wrap16 (Z.of_nat (length (c_lanes c)))) ++
  flat_map lane_bytes (c_lanes c).

Definition make_cursor_bcw2 (c : WindowCursor) : str :=
  b64url_encode (cursor_bytes c).

Notation "x <- a ;;; f" := (rd_bind a (fun x => f))
  (at level 100, a at next level, right associativity).

(** One iteration of the lane loop of [parse_cursor_bcw2]: the lane
    (started from its default value, as [resize] leaves it) and the new
    offset. *)
Definition parse_lane (b : list Z) (off : Z) : rd (LaneState * Z) :=
  if size b <? off + 1 then Bad
  else
    a <- at_ b off ;;;
    let off := off + 1 in
    let active := negb (a =? 0) in
    if negb active then Got (default_lane, off)
    else
      if size b <? off + 4 + 1 then Bad
      else
        perm_pos <- read_u32_le b off ;;;
        let off := off + 4 in
        mode <- at_ b off ;;;
        let off := off + 1 in
        if mode =? 0 then
          after <- read_u64_le b off ;;;
          let off := off + 8 in
          Got (mkLaneState true perm_pos mode after UINT64_MAX false 0 0 0, off)
        else
          parent_anchor <- read_u64_le b off ;;;
          let off := off + 8 in
          if size b <? off + 1 then Bad
          else
            cp <- at_ b off ;;;
            let off := off + 1 in
            let child_present := negb (cp =? 0) in
            if child_present then
              if size b <? off + 1 then Bad
              else
                L <- at_ b off ;;;
                let off := off + 1 in
                left_idx <- read_u64_le b off ;;;
                let off := off + 8 in
                right_idx <- read_u64_le b off ;;;
                let off := off + 8 in
                Got (mkLaneState true perm_pos mode UINT64_MAX parent_anchor true
                                 L left_idx right_idx, off)
            else
              Got (mkLaneState true perm_pos mode UINT64_MAX parent_anchor false
                               0 0 0, off).

Fixpoint parse_lanes (n : nat) (b : list Z) (off : Z) : rd (list LaneState) :=
  match n with
  | O => Got []
  | S n' =>
      r <- parse_lane b off ;;;
      rest <- parse_lanes n' b (snd r) ;;;
      Got (fst r :: rest)
  end.

(** [parse_cursor_bcw2] on the decoded bytes. *)
Definition parse_cursor_bytes (b : list Z) : rd WindowCursor :=
  if size b <? 4 + 1 + 3 + 4 + 8 + 4 + 2 + 2 + 2 then Bad
  else
    m0 <- at_ b 0 ;;; m1 <- at_ b 1 ;;; m2 <- at_ b 2 ;;; m3 <- at_ b 3 ;;;
    if negb ((m0 =? 66) && (m1 =? 67) && (m2 =? 87) && (m3 =? 50)) then Bad
    else
      flags <- at_ b 4 ;;;
      k0 <- at_ b 5 ;;; kout <- at_ b 6 ;;; d <- at_ b 7 ;;;
      numShards <- read_u32_le b 8 ;;;
      seed <- read_u64_le b 12 ;;;
      next_perm_pos <- read_u32_le b 20 ;;;
      let off := 24 in
      window <- read_u16_le b off ;;;
      let off := off + 2 in
      burst <- read_u16_le b off ;;;
      let off := off + 2 in
      lane_count <- read_u16_le b off ;;;
      let off := off + 2 in
      lanes <- parse_lanes (Z.to_nat lane_count) b off ;;;
      Got (mkCursor true flags k0 kout d numShards seed next_perm_pos
                    window burst lanes).

Definition parse_cursor_bcw2 (token : str) : rd WindowCursor :=
  match b64url_decode token with
  | None => Bad
  | Some b => parse_cursor_bytes b
  end.

(** [c.present] is not part of the token; the parser sets it. *)
Definition mark_present (c : WindowCursor) : WindowCursor :=
  mkCursor true (c_flags c) (c_k0 c) (c_kout c) (c_d c) (c_numShards c) (c_seed c)
           (c_next_perm_pos c) (c_window c) (c_burst c) (c_lanes c).

(** *** Structural validity *)

(** The fields that the flags leave unused hold their default values. *)
Definition lane_valid (ln : LaneState) : Prop :=
  is_u32 (ls_perm_pos ln) /\ is_u8 (ls_mode ln) /\
  is_u64 (ls_after ln) /\ is_u64 (ls_parent_anchor ln) /\
  is_u8 (ls_L ln) /\ is_u64 (ls_left_idx ln) /\ is_u64 (ls_right_idx ln) /\
  (ls_active ln = false -> ln = default_lane) /\
  (ls_active ln = true -> ls_mode ln = 0 ->
     ls_parent_anchor ln = UINT64_MAX /\ ls_child_present ln = false /\
     ls_L ln = 0 /\ ls_left_idx ln = 0 /\ ls_right_idx ln = 0) /\
  (ls_active ln = true -> ls_mode ln <> 0 ->
     ls_after ln = UINT64_MAX /\
     (ls_child_present ln = false ->
        ls_L ln = 0 /\ ls_left_idx ln = 0 /\ ls_right_idx ln = 0)).

Definition cursor_valid (c : WindowCursor) : Prop :=
  c_present c = true /\
  is_u8 (c_flags c) /\ is_u8 (c_k0 c) /\ is_u8 (c_kout c) /\ is_u8 (c_d c) /\
  is_u32 (c_numShards c) /\ is_u64 (c_seed c) /\ is_u32 (c_next_perm_pos c) /\
  is_u16 (c_window c) /\ is_u16 (c_burst c) /\
  Z.of_nat (length (c_lanes c)) < 2 ^ 16 /\
  Forall lane_valid (c_lanes c).

End Cursor.

(** ** The compressed-bitmap library

    [roaring64_bitmap_t], its portable deserialiser and its membership
    test come from the Roaring library, which is not part of this
    repository: they are parameters of the development. *)

Class Roaring : Type := {
  bitmap : Type;
  portable_deserialize_safe : list Z -> option bitmap;
  bitmap_contains : bitmap -> Z -> bool
}.

(** A stand-in for the library, used only to run the programs on small
    concrete shards: a payload is a sequence of little-endian 64-bit
    keys, and anything else is rejected. *)
Fixpoint keys_of_payload (fuel : nat) (p : list Z) : option (list Z) :=
  match fuel with
  | O => match p with [] => Some [] | _ => None end
  | S f =>
      match p with
      | [] => Some []
      | b0 :: b1 :: b2 :: b3 :: b4 :: b5 :: b6 :: b7 :: rest =>
          match keys_of_payload f rest with
          | Some ks =>
              Some ((b0 + 2 ^ 8 * b1 + 2 ^ 16 * b2 + 2 ^ 24 * b3 + 2 ^ 32 * b4
                     + 2 ^ 40 * b5 + 2 ^ 48 * b6 + 2 ^ 56 * b7) :: ks)
          | None => None
          end
      | _ => None
      end
  end.

Definition KeyListRoaring : Roaring := {|
  bitmap := list Z;
  portable_deserialize_safe := fun p => keys_of_payload (length p) p;
  bitmap_contains := fun bm v => existsb (Z.eqb v) bm
|}.

(** ** KBITv1 shard files *)

Module Kbit.
Import B64.

Record KbitHeader : Type := mkHeader {
  total_bits : Z; ones : Z; hk : Z; hseed : Z; hflags : Z; payload_len : Z
}.

Definition empty_header : KbitHeader := mkHeader 0 0 0 0 0 0.

(** ["KBITv1\0"] compared over 8 bytes: the literal and its terminator. *)
Definition magic : list Z := [75; 66; 73; 84; 118; 49; 0; 0].

(** [read_le64] on the [n] bytes from [p]. *)
Fixpoint read_le64_go (n : nat) (p : list Z) (i v : Z) : Z :=
  match n, p with
  | S n', x :: p' => read_le64_go n' p' (i + 1) (Z.lor v (wrap64 (Z.shiftl x (8 * i))))
  | _, _ => v
  end.

Definition read_le64 (p : list Z) : Z := read_le64_go 8 p 0 0.

Inductive LoadError : Type :=
  | OpenFailed          (* perror("open ...") *)
  | InvalidHeader       (* short header or wrong magic *)
  | NotPortable         (* flags != 2 *)
  | TruncatedPayload
  | DeserializeFailed.

(** A file of the shard directory: [None] when it cannot be opened,
    otherwise its bytes. *)
Definition file : Type := option (list Z).

Definition parse_header (hdr : list Z) : KbitHeader :=
  mkHeader (read_le64 (drop 8 hdr)) (read_le64 (drop 16 hdr))
           (read_le64 (drop 24 hdr)) (read_le64 (drop 32 hdr))
           (read_le64 (drop 40 hdr)) (read_le64 (drop 48 hdr)).

(** [load_kbit_portable] of the streaming search.  The vector of
    [payload_len] bytes is taken to be allocated successfully; the read
    delivers the bytes that the file still holds, up to [payload_len]. *)
Definition load_kbit_portable `{Roaring} (f : file)
  : LoadError + (KbitHeader * bitmap) :=
  match f with
  | None => inl OpenFailed
  | Some bytes =>
      let hdr := take 64 bytes in
      if (length hdr <? 64)%nat || negb (bool_decide (take 8 hdr = magic))
      then inl InvalidHeader
      else
        let h := parse_header hdr in
        if negb (hflags h =? 2) then inl NotPortable
        else
          let payload := take (Z.to_nat (payload_len h)) (drop 64 bytes) in
          if negb (Z.of_nat (length payload) =? payload_len h) then inl TruncatedPayload
          else
            match portable_deserialize_safe payload with
            | None => inl DeserializeFailed
            | Some bm => inr (h, bm)
            end
  end.

End Kbit.

(** ** The windowed streaming search (query_substring_bitmap_stream) *)

Module Stream.
Import Dna Filters Perm Expansion B64 Cursor Kbit.

(** [Args] after a successful [parse_args] (the two path arguments are
    represented by the environment below). *)
Record Args : Type := mkArgs {
  substring : str;
  substring_set : bool;
  reverse_complement : bool;
  gcMinPct : Z;
  gcMaxPct : Z;
  limit : Z;              (* uint64_t *)
  threads : Z;
  construct_k : Z;        (* int, -1 when absent *)
  cursor_set : bool;
  cursor_token : str;
  random_access : bool;
  ra_seed_set : bool;
  ra_seed : Z;            (* uint64_t *)
  window : Z;             (* uint16_t *)
  burst : Z;              (* uint16_t *)
  refill_chunk : Z        (* uint32_t *)
}.

(** What [read_index] leaves in its reference parameters when it
    returns [true]. *)
Record Index : Type := mkIndex {
  ix_numShards : Z;       (* unsigned *)
  ix_k : Z;               (* uint64_t *)
  ix_total_bits : Z;      (* uint64_t *)
  ix_starts : list Z;
  ix_ends : list Z
}.

(** The files the program reads, and the two 64-bit values it draws
    from [std::random_device] when no seed is given. *)
Record Env `{Roaring} : Type := mkEnv {
  index : option Index;           (* None: read_index returned false *)
  gc_hist_k : option Z;           (* None: load_gc_hist_json returned false *)
  shard_file : Z -> Kbit.file;    (* the file named shardFiles[i] *)
  rd_s1 : Z;
  rd_s2 : Z
}.

Section WithRoaring.
Context `{Roaring}.

Record LaneRuntime : Type := mkLane {
  active : bool;
  perm_pos : Z;           (* uint32_t *)
  shardIdx : Z;           (* unsigned *)
  bm : option bitmap;     (* None is the null pointer *)
  hdr : KbitHeader;
  after : Z;
  parent_anchor : Z;
  child_present : bool;
  L : Z;
  left_idx : Z;
  right_idx : Z;
  buf : list Z;
  buf_pos : nat
}.

Definition default_runtime : LaneRuntime :=
  mkLane false 0 0 None empty_header UINT64_MAX UINT64_MAX false 0 0 0 [] 0.

Definition clear_buf (ln : LaneRuntime) : LaneRuntime :=
  mkLane (active ln) (perm_pos ln) (shardIdx ln) (bm ln) (hdr ln) (after ln)
         (parent_anchor ln) (child_present ln) (L ln) (left_idx ln) (right_idx ln)
         [] 0.

Definition free_all (ln : LaneRuntime) : LaneRuntime :=
  mkLane false (perm_pos ln) (shardIdx ln) None (hdr ln) (after ln)
         (parent_anchor ln) (child_present ln) (L ln) (left_idx ln) (right_idx ln)
         [] 0.

Definition set_active (b : bool) (ln : LaneRuntime) : LaneRuntime :=
  mkLane b (perm_pos ln) (shardIdx ln) (bm ln) (hdr ln) (after ln)
         (parent_anchor ln) (child_present ln) (L ln) (left_idx ln) (right_idx ln)
         (buf ln) (buf_pos ln).

Definition set_after (a : Z) (ln : LaneRuntime) : LaneRuntime :=
  mkLane (active ln) (perm_pos ln) (shardIdx ln) (bm ln) (hdr ln) a
         (parent_anchor ln) (child_present ln) (L ln) (left_idx ln) (right_idx ln)
         (buf ln) (buf_pos ln).

Definition set_buf (b : list Z) (ln : LaneRuntime) : LaneRuntime :=
  mkLane (active ln) (perm_pos ln) (shardIdx ln) (bm ln) (hdr ln) (after ln)
         (parent_anchor ln) (child_present ln) (L ln) (left_idx ln) (right_idx ln)
         b (buf_pos ln).

Definition set_expand (pa : Z) (cp : bool) (s : ExpState) (ln : LaneRuntime) : LaneRuntime :=
  mkLane (active ln) (perm_pos ln) (shardIdx ln) (bm ln) (hdr ln) (after ln)
         pa cp (eL s) (eleft s) (eright s) (buf ln) (buf_pos ln).

(** The filter settings and geometry shared by all refills. *)
Record Config : Type := mkConfig {
  k0 : Z;
  kout : Z;
  cf_gcMin : Z;
  cf_gcMax : Z;
  cf_substring_set : bool;
  patterns : list Pattern;
  refill_target : Z;
  shard_starts : list Z;
  shard_ends : list Z
}.

Definition leaf (cf : Config) (v : Z) : bool :=
  leaf_ok v (kout cf) (cf_gcMin cf) (cf_gcMax cf) (cf_substring_set cf) (patterns cf).

Definition bsize (b : list Z) : Z := Z.of_nat (length b).

(** The scan loop of mode 0:
    [for (; v < end && buf.size() < refill_target; ++v)].
    It runs at most [end - v] times, which is the fuel given to it. *)
Fixpoint scan_konly (n : nat) (cf : Config) (b : bitmap) (end_ v : Z) (bf : list Z)
  : Z * list Z :=
  match n with
  | O => (v, bf)
  | S n' =>
      if (v <? end_) && (bsize bf <? refill_target cf) then
        if bitmap_contains b v then scan_konly n' cf b end_ (v + 1) bf
        else if negb (leaf cf v) then scan_konly n' cf b end_ (v + 1) bf
        else scan_konly n' cf b end_ (v + 1) (bf ++ [v])
      else (v, bf)
  end.

(** [while (parentB < end && contains(bm, parentB)) parentB++]. *)
Fixpoint skip_present (n : nat) (b : bitmap) (end_ parentB : Z) : Z :=
  match n with
  | O => parentB
  | S n' =>
      if (parentB <? end_) && bitmap_contains b parentB
      then skip_present n' b end_ (parentB + 1)
      else parentB
  end.

(** The per-parent loop
    [while (!exhausted_parent && buf.size() < refill_target)];
    the result is [(exhausted_parent, state, buf)]. *)
Fixpoint expand_parent (fuel : nat) (cf : Config) (parentB : Z) (s : ExpState) (bf : list Z)
  : option (bool * ExpState * list Z) :=
  if bsize bf <? refill_target cf then
    match fuel with
    | O => None
    | S f =>
        let vX := make_value parentB (k0 cf) (kout cf) (eL s) (eleft s) (eright s) in
        let bf' := if leaf cf vX then bf ++ [vX] else bf in
        match advance_state (kout cf - k0 cf) s with
        | (true, s') => expand_parent f cf parentB s' bf'
        | (false, s') => Some (true, s', bf')
        end
    end
  else Some (false, s, bf).

(** The outer loop [while (lane.buf.size() < refill_target)] of mode 1. *)
Fixpoint refill_expand (fuel : nat) (cf : Config) (b : bitmap) (start end_ : Z)
         (ln : LaneRuntime) : option LaneRuntime :=
  if bsize (buf ln) <? refill_target cf then
    match fuel with
    | O => None
    | S f =>
        let parentB :=
          if parent_anchor ln =? UINT64_MAX then start
          else if child_present ln then parent_anchor ln
          else wrap64 (parent_anchor ln + 1) in
        let parentB := skip_present (Z.to_nat (end_ - parentB)) b end_ parentB in
        if end_ <=? parentB then Some (set_active false ln)
        else
          let s :=
            if child_present ln && (parent_anchor ln =? parentB)
            then mkExp (L ln) (left_idx ln) (right_idx ln)
            else init_state_first (kout cf - k0 cf) in
          match expand_parent (S f) cf parentB s (buf ln) with
          | None => None
          | Some (_, s', bf') =>
              if refill_target cf <=? bsize bf' then
                Some (set_expand parentB true s' (set_buf bf' ln))
              else
                refill_expand f cf b start end_
                              (set_expand parentB false (mkExp 0 0 0) (set_buf bf' ln))
          end
    end
  else Some ln.

(** [refill_lane]; [None] only when the fuel of the expansion loops
    runs out. *)
Definition refill_lane (fuel : nat) (cf : Config) (ln0 : LaneRuntime) : option LaneRuntime :=
  let ln := clear_buf ln0 in
  match active ln, bm ln with
  | true, Some b =>
      let n := Z.to_nat (shardIdx ln) in
      match shard_starts cf !! n, shard_ends cf !! n with
      | Some start, Some end_ =>
          if kout cf =? k0 cf then
            let v := if after ln =? UINT64_MAX then start else wrap64 (after ln + 1) in
            let '(v', bf) := scan_konly (Z.to_nat (end_ - v)) cf b end_ v (buf ln) in
            if v' =? end_ then Some (set_active false (set_buf bf ln))
            else Some (set_after (wrap64 (v' - 1)) (set_buf bf ln))
          else refill_expand fuel cf b start end_ ln
      | _, _ => Some (set_active false ln)
      end
  | _, _ => Some ln
  end.

(** *** The driver *)

(** What the process leaves behind: a non-zero exit with its
    diagnostic, an uncaught C++ exception, or exit 0 with the page
    written to stdout. *)
Record Page : Type := mkPage {
  cursorStr : str;
  hasMore : bool;
  out_vals : list Z;      (* the keys behind the printed k-mers *)
  page_kout : Z
}.

Inductive Outcome : Type :=
  | Exit (code : Z) (diagnostic : string)
  | Terminated                      (* std::length_error from reserve *)
  | Printed (p : Page).

(** The k-mer lines written after the [__META__] line. *)
Definition kmer_lines (p : Page) : list str :=
  map (fun v => decode_kmer v (page_kout p)) (out_vals p).

(** [(int)x] for a 64-bit unsigned [x]. *)
Definition to_int (x : Z) : Z :=
  let y := wrap32 x in if y <? 2 ^ 31 then y else y - 2 ^ 32.

(** Equal-width ranges, used when the index carries no start/end. *)
Definition default_ranges (numShards total_bits : Z) : list Z * list Z :=
  let width := wrap64 (total_bits + numShards - 1) / numShards in
  let starts := map (fun i => wrap64 (i * width)) (seqZ 0 numShards) in
  (starts, map (fun s => Z.min total_bits (wrap64 (s + width))) starts).

Record LoopState : Type := mkLoop {
  lanes : list LaneRuntime;
  next_perm_pos : Z;      (* uint32_t *)
  outv : list Z
}.

(** Everything main has fixed before it touches the lanes. *)
Record Setup : Type := mkSetup {
  su_numShards : Z;
  su_cf : Config;
  su_seed : Z;
  su_perm : list Z;
  su_next_perm_pos : Z;
  su_lane_states : list LaneState
}.

Section WithEnv.
Context (args : Args) (env : Env).

(** The seed block: [seed] stays 0 without [--random_access]. *)
Definition initial_seed : Z :=
  if random_access args then
    let seed :=
      if ra_seed_set args then ra_seed args
      else splitmix64 (Z.lxor (rd_s1 env) (wrap64 (Z.shiftl (rd_s2 env) 1))) in
    if seed =? 0 then 1 else seed
  else 0.

(** Main up to and including the cursor block. *)
Definition setup : Outcome + Setup :=
  match index env with
  | None => inl (Exit 1 "Failed to read index.json")
  | Some ix =>
      let numShards := ix_numShards ix in
      let k_index := to_int (ix_k ix) in
      if (k_index <=? 0) || (32 <? k_index) then inl (Exit 1 "Error: invalid k in index.json")
      else
        let k0 := k_index in
        let kout := if 0 <? construct_k args then construct_k args else k0 in
        if 32 <? kout then inl (Exit 1 "Error: construct_k>32 not supported in uint64 encoding")
        else if (18 <? kout) && negb (k0 =? 18)
        then inl (Exit 1 "Error: construct_k>18 expansion is only supported from k=18 base shards.")
        else if (k0 <? 18) && negb (kout =? k0)
        then inl (Exit 1 "Error: expansion is disabled for this k")
        else
          match gc_hist_k env with
          | None => inl (Exit 1 "Failed to load gc histogram json")
          | Some k_from_hist =>
              if negb (k_from_hist =? k0) then inl (Exit 1 "GC hist k != index k")
              else
                let '(starts, ends) :=
                  if negb (bsize (ix_starts ix) =? numShards)
                     || negb (bsize (ix_ends ix) =? numShards)
                  then
                    let total_bits :=
                      if ix_total_bits ix =? 0 then wrap64 (Z.shiftl 1 (2 * k0))
                      else ix_total_bits ix in
                    default_ranges numShards total_bits
                  else (ix_starts ix, ix_ends ix) in
                (* patterns.reserve throws for a negative count *)
                if substring_set args
                   && (2 * (kout - Z.of_nat (length (substring args)) + 1) <? 0)
                then inl Terminated
                else
                  match build_patterns kout (substring args) (substring_set args)
                                       (reverse_complement args) with
                  | inl SubstringTooLong => inl (Exit 1 "substring longer than output k")
                  | inl InvalidBase => inl (Exit 1 "Invalid base in substring")
                  | inr pats =>
                      let cf := mkConfig k0 kout (gcMinPct args) (gcMaxPct args)
                                         (substring_set args) pats (refill_chunk args)
                                         starts ends in
                      let seed := initial_seed in
                      let perm := if random_access args then build_perm (wrap32 numShards) seed
                                  else identity_perm numShards in
                      if cursor_set args then
                        match parse_cursor_bcw2 (cursor_token args) with
                        | Got c =>
                            if negb (c_numShards c =? wrap32 numShards)
                            then inl (Exit 1 "Error: cursor mismatch numShards")
                            else if negb (c_k0 c =? wrap8 k0) || negb (c_kout c =? wrap8 kout)
                            then inl (Exit 1 "Error: cursor mismatch k")
                            else if negb (c_window c =? window args)
                            then inl (Exit 1 "Error: cursor window mismatch")
                            else if negb (c_burst c =? burst args)
                            then inl (Exit 1 "Error: cursor burst mismatch")
                            else
                              let cursor_ra := negb (Z.land (c_flags c) 1 =? 0) in
                              if negb (Bool.eqb cursor_ra (random_access args))
                              then inl (Exit 1 "Error: cursor random_access mismatch")
                              else
                                let seed' :=
                                  if random_access args
                                  then (if c_seed c =? 0 then 1 else c_seed c)
                                  else seed in
                                let perm' :=
                                  if random_access args
                                  then build_perm (wrap32 numShards) seed'
                                  else perm in
                                inr (mkSetup numShards cf seed' perm'
                                             (c_next_perm_pos c) (c_lanes c))
                        | _ => inl (Exit 1 "Error: expected BCW2 cursor")
                        end
                      else
                        inr (mkSetup numShards cf seed perm 0
                                     (replicate (Z.to_nat (window args)) default_lane))
                  end
          end
  end.

Section WithSetup.
Context (su : Setup).

Definition cfg : Config := su_cf su.

Definition shard_from_permpos (pp : Z) : Z :=
  default 0 (su_perm su !! Z.to_nat pp).

(** The lambda [load_lane_from_state], applied to a fresh lane. *)
Definition load_lane_from_state (st : LaneState) (ln0 : LaneRuntime) : LaneRuntime :=
  let ln := set_active false (free_all ln0) in
  if negb (ls_active st) then ln
  else if su_numShards su <=? ls_perm_pos st then ln
  else
    let sidx := shard_from_permpos (ls_perm_pos st) in
    match load_kbit_portable (shard_file env sidx) with
    | inl _ =>
        mkLane false (ls_perm_pos st) sidx None (hdr ln) (after ln) (parent_anchor ln)
               (child_present ln) (L ln) (left_idx ln) (right_idx ln) [] 0
    | inr (h, b) =>
        if kout cfg =? k0 cfg then
          mkLane true (ls_perm_pos st) sidx (Some b) h (ls_after st) (parent_anchor ln)
                 (child_present ln) (L ln) (left_idx ln) (right_idx ln) [] 0
        else
          mkLane true (ls_perm_pos st) sidx (Some b) h (after ln) (ls_parent_anchor st)
                 (ls_child_present st) (ls_L st) (ls_left_idx st) (ls_right_idx st) [] 0
    end.

(** The lambda [try_fill_empty_lane] on one lane: the lane and the new
    [next_perm_pos]. *)
Definition try_fill_empty_lane (ln : LaneRuntime) (npp : Z) : LaneRuntime * Z :=
  if active ln then (ln, npp)
  else if npp <? su_numShards su then
    let ppos := npp in
    let npp := wrap32 (npp + 1) in
    let sidx := shard_from_permpos ppos in
    match load_kbit_portable (shard_file env sidx) with
    | inl _ =>
        (mkLane (active ln) ppos sidx (bm ln) (hdr ln) (after ln) (parent_anchor ln)
                (child_present ln) (L ln) (left_idx ln) (right_idx ln)
                (buf ln) (buf_pos ln), npp)
    | inr (h, b) =>
        if kout cfg =? k0 cfg then
          (mkLane true ppos sidx (Some b) h UINT64_MAX (parent_anchor ln)
                  (child_present ln) (L ln) (left_idx ln) (right_idx ln) [] 0, npp)
        else
          (mkLane true ppos sidx (Some b) h (after ln) UINT64_MAX false 0 0 0 [] 0, npp)
    end
  else (ln, npp).

(** Lanes as main has them when the scan loop starts. *)
Definition initial_lanes : list LaneRuntime * Z :=
  let w := Z.to_nat (window args) in
  let loaded :=
    map (fun i => match su_lane_states su !! i with
                  | Some st => if ls_active st then load_lane_from_state st default_runtime
                               else default_runtime
                  | None => default_runtime
                  end) (seq 0 w) in
  fold_left (fun '(done, npp) ln =>
               let '(ln', npp') := try_fill_empty_lane ln npp in
               (done ++ [ln'], npp'))
            loaded ([], su_next_perm_pos su).

(** The body a refill worker runs for lane [i]. *)
Definition refill_one (fuel : nat) (ln : LaneRuntime) (npp : Z)
  : option (LaneRuntime * Z) :=
  if negb (active ln) then Some (ln, npp)
  else if (buf_pos ln <? length (buf ln))%nat then Some (ln, npp)
  else
    match refill_lane fuel cfg ln with
    | None => None
    | Some ln' =>
        if negb (active ln') then Some (try_fill_empty_lane (free_all ln') npp)
        else Some (ln', npp)
    end.

(** The refill phase, with the lanes taken in index order (one worker:
    [--threads 1]). *)
Fixpoint refill_phase (fuel : nat) (todo done : list LaneRuntime) (npp : Z)
  : option (list LaneRuntime * Z) :=
  match todo with
  | [] => Some (done, npp)
  | ln :: rest =>
      match refill_one fuel ln npp with
      | None => None
      | Some (ln', npp') => refill_phase fuel rest (done ++ [ln']) npp'
      end
  end.

(** The inner loop [while (took < burst && out_vals.size() < need)] for
    one lane; [n] bounds the iterations by [burst]. *)
Fixpoint drain (n : nat) (need : Z) (ln : LaneRuntime) (out : list Z)
  : LaneRuntime * list Z :=
  match n with
  | O => (ln, out)
  | S n' =>
      if bsize out <? need then
        match buf ln !! buf_pos ln with
        | None => (ln, out)
        | Some v =>
            let ln1 := mkLane (active ln) (perm_pos ln) (shardIdx ln) (bm ln) (hdr ln)
                              (if kout cfg =? k0 cfg then v else after ln)
                              (parent_anchor ln) (child_present ln) (L ln)
                              (left_idx ln) (right_idx ln) (buf ln) (S (buf_pos ln)) in
            drain n' need ln1 (out ++ [v])
        end
      else (ln, out)
  end.

(** Round-robin emission over the lanes [0..W-1]. *)
Fixpoint emit_phase (need : Z) (todo done : list LaneRuntime) (out : list Z)
  : list LaneRuntime * list Z :=
  match todo with
  | [] => (done, out)
  | ln :: rest =>
      if bsize out <? need then
        if negb (active ln) then emit_phase need rest (done ++ [ln]) out
        else
          let '(ln', out') := drain (Z.to_nat (burst args)) need ln out in
          emit_phase need rest (done ++ [ln']) out'
      else (done ++ ln :: rest, out)
  end.

Definition any_active (ls : list LaneRuntime) : bool := existsb active ls.

(** [while (out_vals.size() < need)]; [None] when the fuel runs out. *)
Fixpoint main_loop (fuel : nat) (need : Z) (st : LoopState) : option LoopState :=
  match fuel with
  | O => None
  | S f =>
      if bsize (outv st) <? need then
        if negb (any_active (lanes st)) then Some st
        else
          match refill_phase (S f) (lanes st) [] (next_perm_pos st) with
          | None => None
          | Some (ls1, npp) =>
              let '(ls2, out2) := emit_phase need ls1 [] (outv st) in
              let emitted_any := (length (outv st) <? length out2)%nat in
              let st2 := mkLoop ls2 npp out2 in
              if negb emitted_any && negb (any_active ls2) then Some st2
              else main_loop f need st2
          end
      else Some st
  end.

(** The [hasMore] decision after the loop. *)
Definition has_more (st : LoopState) : bool :=
  if (limit args <? bsize (outv st)) then true
  else
    existsb (fun ln => active ln
                       && ((buf_pos ln <? length (buf ln))%nat || (k0 cfg <? kout cfg)))
            (lanes st)
    || (next_perm_pos st <? su_numShards su).

Definition lane_state_of (ln : LaneRuntime) : LaneState :=
  if negb (active ln) then default_lane
  else if kout cfg =? k0 cfg then
    mkLaneState true (perm_pos ln) 0 (after ln) UINT64_MAX false 0 0 0
  else
    mkLaneState true (perm_pos ln) 1 UINT64_MAX (parent_anchor ln) (child_present ln)
                (L ln) (left_idx ln) (right_idx ln).

(** The cursor built when [hasMore] holds. *)
Definition next_cursor (st : LoopState) : WindowCursor :=
  mkCursor false (if random_access args then 1 else 0)
           (wrap8 (k0 cfg)) (wrap8 (kout cfg)) (wrap8 (kout cfg - k0 cfg))
           (wrap32 (su_numShards su)) (su_seed su) (next_perm_pos st)
           (window args) (burst args)
           (map lane_state_of (lanes st)).

Definition finish (st : LoopState) : Page :=
  let more := has_more st in
  let out := if limit args <? bsize (outv st)
             then take (Z.to_nat (limit args)) (outv st) else outv st in
  mkPage (if more then make_cursor_bcw2 (next_cursor st) else [])
         more out (kout cfg).

Definition run_loop (fuel : nat) : option LoopState :=
  let '(ls, npp) := initial_lanes in
  main_loop fuel (wrap64 (limit args + 1)) (mkLoop ls npp []).

End WithSetup.

(** The whole program; [None] when the scan loop needs more fuel. *)
Definition main (fuel : nat) : option Outcome :=
  match setup with
  | inl o => Some o
  | inr su =>
      match run_loop su fuel with
      | None => None
      | Some st => Some (Printed (finish su st))
      end
  end.

End WithEnv.

(** Chain pages through the returned cursor until [hasMore] is false
    (at most [pages] requests).  The result is the list of pages. *)
Fixpoint paginate (pages fuel : nat) (args : Args) (env : Env) : option (list Page) :=
  match pages with
  | O => None
  | S n =>
      match main args env fuel with
      | Some (Printed p) =>
          if hasMore p then
            let args' := mkArgs (substring args) (substring_set args)
                                (reverse_complement args) (gcMinPct args) (gcMaxPct args)
                                (limit args) (threads args) (construct_k args)
                                true (cursorStr p)
                                (random_access args) (ra_seed_set args) (ra_seed args)
                                (window args) (burst args) (refill_chunk args) in
            match paginate n fuel args' env with
            | Some ps => Some (p :: ps)
            | None => None
            end
          else Some [p]
      | _ => None
      end
  end.

(** *** Specification side *)

(** A non-zero exit status and nothing on stdout. *)
Definition rejected (o : Outcome) : Prop :=
  match o with
  | Exit code _ => code <> 0
  | Terminated => True
  | Printed _ => False
  end.

(** The six values a cursor has to share with the request. *)
Definition cursor_matches (args : Args) (env : Env) (c : WindowCursor) : Prop :=
  exists ix,
    index env = Some ix /\
    let k0 := to_int (ix_k ix) in
    let kout := if 0 <? construct_k args then construct_k args else k0 in
    c_numShards c = wrap32 (ix_numShards ix) /\
    c_k0 c = wrap8 k0 /\ c_kout c = wrap8 kout /\
    c_window c = window args /\ c_burst c = burst args /\
    negb (Z.land (c_flags c) 1 =? 0) = random_access args.

(** The same request with another [--ra_seed] (or none). *)
Definition with_ra_seed (given : bool) (seed : Z) (args : Args) : Args :=
  mkArgs (substring args) (substring_set args) (reverse_complement args)
         (gcMinPct args) (gcMaxPct args) (limit args) (threads args)
         (construct_k args) (cursor_set args) (cursor_token args)
         (random_access args) given seed
         (window args) (burst args) (refill_chunk args).

(** The same files with other values drawn from [std::random_device]. *)
Definition with_random_device (s1 s2 : Z) (env : Env) : Env :=
  mkEnv _ (index env) (gc_hist_k env) (shard_file env) s1 s2.

(** The leaf filters, as the request states them. *)
Definition leaf_spec (args : Args) (kout v : Z) : Prop :=
  gc_in_range v kout (gcMinPct args) (gcMaxPct args) /\
  (substring_set args = true ->
     occurs v kout (substring args) \/
     (reverse_complement args = true /\
      occurs v kout (revcomp_string (substring args)))).

(** [v] is absent from the bitmap of a shard of the database. *)
Definition absent_key (env : Env) (v : Z) : Prop :=
  exists sidx h b,
    load_kbit_portable (shard_file env sidx) = inr (h, b) /\
    bitmap_contains b v = false.

(** [v] is a child of an anchor that is absent from its shard. *)
Definition child_of_absent_anchor (env : Env) (k0 kout v : Z) : Prop :=
  exists parentB L l r,
    v = make_value parentB k0 kout L l r /\ absent_key env parentB.

(** What the mode-0 scan keeps: absent and passing the leaf test. *)
Definition eligible (cf : Config) (b : bitmap) (v : Z) : bool :=
  negb (bitmap_contains b v) && leaf cf v.

(** Where the mode-0 scan of a lane starts. *)
Definition resume_point (start : Z) (ln : LaneRuntime) : Z :=
  if after ln =? UINT64_MAX then start else wrap64 (after ln + 1).

(** [b] is the bitmap of one of the shard files. *)
Definition loaded_bitmap (env : Env) (b : bitmap) : Prop :=
  exists sidx h, load_kbit_portable (shard_file env sidx) = inr (h, b).

(** What holds of every key a refill puts into a buffer. *)
Definition good_key (cf : Config) (env : Env) (v : Z) : Prop :=
  leaf cf v = true /\
  if kout cf =? k0 cf then absent_key env v
  else child_of_absent_anchor env (k0 cf) (kout cf) v.

Definition lane_ok (cf : Config) (env : Env) (ln : LaneRuntime) : Prop :=
  (forall b, bm ln = Some b -> loaded_bitmap env b) /\
  Forall (good_key cf env) (buf ln).

End WithRoaring.
End Stream.

(** ** The membership query (query_kmer_bitmap) *)

Module Query.
Import Dna Kbit.

Record Args : Type := mkArgs {
  shards_mode : bool;     (* --shards given; otherwise legacy --bitmap *)
  arg_k : Z;              (* -1 when absent *)
  kmers_from_file : bool; (* --kmers given; otherwise stdin *)
  threads : Z
}.

Record ShardInfo : Type := mkShard { s_start : Z; s_end : Z }.

(** What [read_index_shards] returns through its references. *)
Record Index : Type := mkIndex {
  ix_numShards : Z;
  ix_k : Z;
  ix_shards : list ShardInfo
}.

Record Env : Type := mkEnv {
  index : option Index;          (* None: read_index_shards returned false *)
  shard_file : Z -> Kbit.file;   (* the file shards[sid].file *)
  bitmap_file : Kbit.file;       (* the --bitmap file *)
  input : option str;            (* the k-mer file or stdin; None: no such file *)
  out_opens : bool               (* the --out file can be opened *)
}.

Record Result : Type := mkResult {
  exit_code : Z;
  out_lines : list str;          (* lines written to the output *)
  err_lines : list string        (* lines written to stderr *)
}.

(** [read_header]: [inl] carries what it printed. *)
Definition read_header (bytes : list Z) : list string + KbitHeader :=
  let hdr := take 64 bytes in
  if (length hdr <? 64)%nat then inl []
  else if negb (bool_decide (take 8 hdr = magic))
  then inl ["Error: bad magic (not a KBITv1 file)"%string]
  else inr (parse_header hdr).

(** [load_kbit_portable] and [load_bitmap_file] (same body up to the
    wording of the open error). *)
Definition load_kbit_portable `{Roaring} (open_msg : string) (f : Kbit.file)
  : list string + bitmap :=
  match f with
  | None => inl [open_msg]
  | Some bytes =>
      match read_header bytes with
      | inl msgs => inl msgs
      | inr h =>
          if negb (hflags h =? 2) then inl ["Error: expected roaring payload (flags=2)"%string]
          else
            let payload := take (Z.to_nat (payload_len h)) (drop 64 bytes) in
            if negb (Z.of_nat (length payload) =? payload_len h)
            then inl ["Error: truncated payload"%string]
            else
              match portable_deserialize_safe payload with
              | None => inl ["Error: deserialization failed"%string]
              | Some bm => inr bm
              end
      end
  end.

(** [find_shard]: the binary-search loop with its two cursors; the
    fuel bounds the iterations ([hi - lo] shrinks at each one). *)
Fixpoint find_shard_go (fuel : nat) (shards : list ShardInfo) (idx : Z) (lo hi : nat)
  : option Z :=
  match fuel with
  | O => None
  | S f =>
      if (lo <? hi)%nat then
        let mid := (lo + (hi - lo) / 2)%nat in
        match shards !! mid with
        | None => None
        | Some s =>
            if idx <? s_start s then find_shard_go f shards idx lo mid
            else if s_end s <=? idx then find_shard_go f shards idx (S mid) hi
            else Some (Z.of_nat mid)
        end
      else Some (-1)
  end.

(** [None] would mean that the fuel did not suffice; it never happens
    (see [find_shard_total]). *)
Definition find_shard (shards : list ShardInfo) (idx : Z) : option Z :=
  match shards with
  | [] => Some (-1)
  | _ => find_shard_go (S (length shards)) shards idx 0 (length shards)
  end.

(** The table [base_lut]: 255 marks an invalid character. *)
Definition base_lut (c : ascii) : Z :=
  match c with
  | "A"%char | "a"%char => 0
  | "C"%char | "c"%char => 1
  | "G"%char | "g"%char => 2
  | "T"%char | "t"%char => 3
  | _ => 255
  end.

Fixpoint encode_go (s : str) (v : Z) : option Z :=
  match s with
  | [] => Some v
  | c :: rest =>
      let d := base_lut c in
      if d =? 255 then None
      else encode_go rest (Z.lor (wrap64 (Z.shiftl v 2)) d)
  end.

Definition encode_kmer_sv (sv : str) (k : Z) : option Z :=
  if negb (Z.of_nat (length sv) =? k) then None else encode_go sv 0.

Definition trim_cr (line : str) : str :=
  match rev line with
  | c :: r => if Ascii.eqb c "013"%char then rev r else line
  | [] => line
  end.

(** The lines that successive calls of [FastLineReader::next] deliver:
    a line ends at a newline and loses one trailing carriage return; a
    last line without newline is delivered as it is, if not empty. *)
Fixpoint read_lines (s : str) (cur : str) : list str :=
  match s with
  | [] => match cur with [] => [] | _ => [cur] end
  | c :: rest =>
      if Ascii.eqb c "010"%char then trim_cr cur :: read_lines rest []
      else read_lines rest (cur ++ [c])
  end.

(** The input loop of main: [inl len] is the rejected line's length. *)
Fixpoint encode_all (k : Z) (lines : list str) (kmers : list str) (vals : list Z)
  : Z + (list str * list Z) :=
  match lines with
  | [] => inr (kmers, vals)
  | ln :: rest =>
      match ln with
      | [] => encode_all k rest kmers vals
      | _ =>
          match encode_kmer_sv ln k with
          | None => inl (Z.of_nat (length ln))
          | Some idx => encode_all k rest (kmers ++ [ln]) (vals ++ [idx])
          end
      end
  end.

(** Bucketing: [shard_to_indices[sid].push_back(i)]; [None] when a key
    has no shard. *)
Fixpoint bucket (shards : list ShardInfo) (vals : list Z) (i : nat)
         (tbl : list (list nat)) : option (list (list nat)) :=
  match vals with
  | [] => Some tbl
  | v :: rest =>
      match find_shard shards v with
      | Some sid =>
          if sid <? 0 then None
          else
            let n := Z.to_nat sid in
            bucket shards rest (S i) (<[n := default [] (tbl !! n) ++ [i]]> tbl)
      | None => None
      end
  end.

Definition flag (b : bool) : ascii := if b then "1"%char else "0"%char.

Section WithRoaring.
Context `{Roaring}.

(** What a worker does with shard [sid].  Each position of [hits]
    belongs to one shard only, so the table after all workers have
    joined does not depend on how the shards were shared out. *)
Definition probe_shard (env : Env) (vals : list Z) (sid : nat) (idxs : list nat)
           (st : list ascii * list string) : list ascii * list string :=
  let '(hits, err) := st in
  match idxs with
  | [] => st
  | _ =>
      match load_kbit_portable "open shard: No such file or directory"
                               (shard_file env (Z.of_nat sid)) with
      | inl msgs => (hits, err ++ msgs)
      | inr sbm =>
          (fold_left (fun h idx_pos =>
                        <[idx_pos := flag (bitmap_contains sbm (default 0 (vals !! idx_pos)))]> h)
                     idxs hits, err)
      end
  end.

Fixpoint probe_all (env : Env) (vals : list Z) (sid : nat) (tbl : list (list nat))
         (st : list ascii * list string) : list ascii * list string :=
  match tbl with
  | [] => st
  | idxs :: rest => probe_all env vals (S sid) rest (probe_shard env vals sid idxs st)
  end.

Definition format_line (kmer : str) (hit : ascii) : str :=
  kmer ++ ["009"%char; hit; "010"%char].

Definition supported_k (k : Z) : bool := (k =? 16) || (k =? 17) || (k =? 18).

Definition main (args : Args) (env : Env) : Result :=
  let fail code msgs := mkResult code [] msgs in
  (* index or legacy bitmap *)
  let loaded : list string + (option Index * option bitmap * Z) :=
    if shards_mode args then
      match index env with
      | None => inl ["Error: failed to read shards index"%string]
      | Some ix => inr (Some ix, None, Stream.to_int (ix_k ix))
      end
    else
      match load_kbit_portable "open bitmap: No such file or directory"
                               (bitmap_file env) with
      | inl msgs => inl msgs
      | inr rbm =>
          inr (None, Some rbm,
               Stream.to_int (hk (parse_header (take 64 (default [] (bitmap_file env))))))
      end in
  match loaded with
  | inl msgs => fail 2 msgs
  | inr (ix, rbm, k_fixed) =>
      if negb (arg_k args =? -1) && negb (k_fixed =? arg_k args)
      then fail 2 ["Error: bitmap header k does not match requested --k"%string]
      else if negb (supported_k k_fixed)
      then fail 2 ["Error: unsupported bitmap k (expected 16/17/18)"%string]
      else
        let opened : option (str * list string) :=
          if kmers_from_file args then
            match input env with
            | None => None
            | Some text => Some (text, [])
            end
          else Some (default [] (input env),
                     ["Enter k-mers (one per line, Ctrl+D to finish):"%string]) in
        match opened with
        | None => fail 1 ["open kmers: No such file or directory"%string]
        | Some (text, prompt) =>
            if negb (out_opens env) then fail 1 (prompt ++ ["open out"%string])
            else
              match encode_all k_fixed (read_lines text []) [] [] with
              | inl _ =>
                  fail 3 (prompt ++ ["Error: encountered k-mer of unexpected length"%string])
              | inr (kmers, vals) =>
                  let hits0 := replicate (length kmers) "0"%char in
                  match ix with
                  | Some ix =>
                      let shards := ix_shards ix in
                      match shards with
                      | [] => fail 2 (prompt ++ ["Error: no shards listed in index.json"%string])
                      | _ =>
                          if existsb (fun s => s_end s <=? s_start s) shards
                          then fail 2 (prompt ++
                                 ["Error: shard ranges missing in index.json (start/end)"%string])
                          else
                            match bucket shards vals 0 (replicate (length shards) []) with
                            | None =>
                                fail 2 (prompt ++ ["Error: k-mer index out of shard ranges"%string])
                            | Some tbl =>
                                let '(hits, err) := probe_all env vals 0 tbl (hits0, prompt) in
                                mkResult 0 (zip_with format_line kmers hits) err
                            end
                      end
                  | None =>
                      let hits :=
                        match rbm with
                        | Some b => map (fun v => flag (bitmap_contains b v)) vals
                        | None => hits0
                        end in
                      mkResult 0 (zip_with format_line kmers hits) prompt
                  end
              end
        end
  end.

(** *** Specification side *)

(** The lines the input loop does not skip. *)
Definition nonempty_lines (text : str) : list str :=
  List.filter (fun ln => match ln with [] => false | _ => true end)
              (read_lines text []).

(** The answer for one key: the shard the router returns for it, and
    whether that shard's bitmap holds the key.  [None] when the key has
    no shard or the shard file does not load. *)
Definition lookup_key (env : Env) (shards : list ShardInfo) (v : Z) : option bool :=
  match find_shard shards v with
  | Some sid =>
      if sid <? 0 then None
      else
        match load_kbit_portable "open shard: No such file or directory"
                                 (shard_file env sid) with
        | inr sbm => Some (bitmap_contains sbm v)
        | inl _ => None
        end
  | None => None
  end.

Definition answer_line (env : Env) (shards : list ShardInfo) (k : Z) (ln : str)
  : option str :=
  match encode_kmer_sv ln k with
  | Some v =>
      match lookup_key env shards v with
      | Some hit => Some (format_line ln (flag hit))
      | None => None
      end
  | None => None
  end.

(** A line of [k] letters, each one of A, C, G, T in either case. *)
Definition acgt_char (c : ascii) : bool :=
  existsb (Ascii.eqb c) (lit "ACGTacgt").

Definition valid_kmer (k : Z) (ln : str) : bool :=
  (Z.of_nat (length ln) =? k) && forallb acgt_char ln.

(** A run in --shards mode that gets as far as the input loop: the
    index is read, --k (if given) agrees with it, the k-mer file and
    the output open, and every shard has a range. *)
Definition shards_run (args : Args) (env : Env) (ix : Index) (text : str) : Prop :=
  shards_mode args = true /\
  index env = Some ix /\
  (arg_k args = -1 \/ arg_k args = Stream.to_int (ix_k ix)) /\
  supported_k (Stream.to_int (ix_k ix)) = true /\
  kmers_from_file args = true /\
  input env = Some text /\
  out_opens env = true /\
  ix_shards ix <> [] /\
  existsb (fun s => s_end s <=? s_start s) (ix_shards ix) = false.

(** [hits[i]] is the answer for the [i]-th key. *)
Definition right_answer (env : Env) (shards : list ShardInfo) (vals : list Z)
           (i : nat) (c : ascii) : Prop :=
  exists v hit, vals !! i = Some v /\ lookup_key env shards v = Some hit /\ c = flag hit.

End WithRoaring.
End Query.

(** ** The dense bitmap generator (gen_kmer_bitmap) *)

Module Gen.
Import Kbit.

(** [ones_target] is the value of
    [llround(percent * total_bits / 100)], a floating-point computation
    that is taken as an input here. *)
Record Args : Type := mkArgs {
  arg_k : Z;              (* 1..31 after parse_args *)
  ones_rounded : Z;
  arg_seed : Z            (* uint64_t *)
}.

Definition write_le64_u (v : Z) : list Z :=
  [Z.land v 255; Z.land (Z.shiftr v 8) 255; Z.land (Z.shiftr v 16) 255;
   Z.land (Z.shiftr v 24) 255; Z.land (Z.shiftr v 32) 255;
   Z.land (Z.shiftr v 40) 255; Z.land (Z.shiftr v 48) 255;
   Z.land (Z.shiftr v 56) 255].

(** xoshiro256** *)
Record Xoshiro256ss : Type := mkRng { x0 : Z; x1 : Z; x2 : Z; x3 : Z }.

Definition rotl (x k : Z) : Z :=
  Z.lor (wrap64 (Z.shiftl x k)) (Z.shiftr x (64 - k)).

Definition next (r : Xoshiro256ss) : Z * Xoshiro256ss :=
  let result := wrap64 (rotl (wrap64 (x1 r * 5)) 7 * 9) in
  let t := wrap64 (Z.shiftl (x1 r) 17) in
  let s2 := Z.lxor (x2 r) (x0 r) in
  let s3 := Z.lxor (x3 r) (x1 r) in
  let s1 := Z.lxor (x1 r) s2 in
  let s0 := Z.lxor (x0 r) s3 in
  let s2 := Z.lxor s2 t in
  let s3 := rotl s3 45 in
  (result, mkRng s0 s1 s2 s3).

Definition make_rng (seed : Z) : Xoshiro256ss :=
  mkRng (Perm.splitmix64 seed)
        (Perm.splitmix64 (wrap64 (seed + 0x9e3779b97f4a7c15)))
        (Perm.splitmix64 (wrap64 (seed + 0x632be59bd9b4e019)))
        (Perm.splitmix64 (wrap64 (seed + 0x94d049bb133111eb))).

(** Lemire's mapping: the high 64 bits of the 128-bit product. *)
Definition fast_bounded (rnd bound : Z) : Z := Z.shiftr (rnd * bound) 64.

Record Sampler : Type := mkSampler {
  rng : Xoshiro256ss;
  remaining : Z;
  needed : Z
}.

(** One iteration of the bit loop without the packing: the decision
    [one] and the sampler after [--remaining]. *)
Definition choose (s : Sampler) : bool * Sampler :=
  if needed s =? 0 then (false, mkSampler (rng s) (remaining s - 1) (needed s))
  else
    let '(r, g) := next (rng s) in
    let pick := fast_bounded r (remaining s) in
    if pick <? needed s then (true, mkSampler g (remaining s - 1) (needed s - 1))
    else (false, mkSampler g (remaining s - 1) (needed s)).

(** [for (b = ...; b < bits_here; ++b)]: [n] iterations left. *)
Fixpoint gen_word (n : nat) (b : Z) (s : Sampler) (w : Z) : Z * Sampler :=
  match n with
  | O => (w, s)
  | S n' =>
      let '(one, s') := choose s in
      gen_word n' (b + 1) s' (if one then Z.lor w (wrap64 (Z.shiftl 1 b)) else w)
  end.

(** [while (remaining)]: [words] iterations left; each word is written
    with [put_bytes(&w, 8)], that is in the byte order of the host,
    which is little-endian on the machines the tool is built for. *)
Fixpoint gen_words (words : nat) (s : Sampler) : list Z :=
  match words with
  | O => []
  | S n =>
      if remaining s =? 0 then []
      else
        let bits_here := if 64 <=? remaining s then 64 else remaining s in
        let '(w, s') := gen_word (Z.to_nat bits_here) 0 s 0 in
        write_le64_u w ++ gen_words n s'
  end.

Definition total_bits_of (a : Args) : Z := wrap64 (Z.shiftl 1 (2 * arg_k a)).
Definition payload_bytes_of (a : Args) : Z := (total_bits_of a + 7) / 8.
Definition ones_target_of (a : Args) : Z := Z.min (ones_rounded a) (total_bits_of a).

Definition header (a : Args) : list Z :=
  magic ++ write_le64_u (total_bits_of a) ++ write_le64_u (ones_target_of a)
  ++ write_le64_u (arg_k a) ++ write_le64_u (arg_seed a) ++ write_le64_u 1
  ++ write_le64_u (payload_bytes_of a) ++ replicate 8 0.

Definition initial_sampler (a : Args) : Sampler :=
  mkSampler (make_rng (arg_seed a)) (total_bits_of a) (ones_target_of a).

Definition payload (a : Args) : list Z :=
  gen_words (Z.to_nat ((total_bits_of a + 63) / 64)) (initial_sampler a).

(** The file as it is on disk when the generator exits. *)
Definition gen_file (a : Args) : list Z := header a ++ payload a.

(** *** Specification side *)

(** The decisions [one] of the first [n] iterations, in order. *)
Fixpoint decisions (n : nat) (s : Sampler) : list bool :=
  match n with
  | O => []
  | S n' => let '(one, s') := choose s in one :: decisions n' s'
  end.

(** The sampler after [n] iterations of the bit loop. *)
Fixpoint skip (n : nat) (s : Sampler) : Sampler :=
  match n with
  | O => s
  | S n' => skip n' (snd (choose s))
  end.

(** The set of one-bits the generator chose: key [i] is in it iff the
    [i]-th decision was [true]. *)
Definition chosen (a : Args) (i : Z) : bool :=
  default false (decisions (Z.to_nat (total_bits_of a)) (initial_sampler a) !! Z.to_nat i).

(** The number of one-bits the generator chose. *)
Definition ones_written (a : Args) : Z :=
  Z.of_nat (length (List.filter (fun one : bool => one)
                      (decisions (Z.to_nat (total_bits_of a)) (initial_sampler a)))).

(** Dense lookup: bit [i & 7] of byte [i >> 3]. *)
Definition dense_bit (pl : list Z) (i : Z) : bool :=
  Z.testbit (default 0 (pl !! Z.to_nat (Z.shiftr i 3))) (Z.land i 7).

End Gen.

(** ** Small concrete databases

    Used to run the programs on explicit inputs.  The shard payloads
    are in the format of [KeyListRoaring]. *)

Module Examples.
Import Dna B64 Kbit.

(** A KBITv1 file with flags = 2 holding [keys]. *)
Definition shard_bytes (k : Z) (keys : list Z) : list Z :=
  magic ++ push_u64_le (4 ^ k) ++ push_u64_le (Z.of_nat (length keys))
  ++ push_u64_le k ++ push_u64_le 0 ++ push_u64_le 2
  ++ push_u64_le (8 * Z.of_nat (length keys)) ++ replicate 8 0
  ++ flat_map push_u64_le keys.

(** One shard of 16-mers covering the keys [0, 64), none of them
    present; index.json gives the range explicitly. *)
Definition env16 : @Stream.Env KeyListRoaring :=
  Stream.mkEnv KeyListRoaring
    (Some (Stream.mkIndex 1 16 0 [0] [64])) (Some 16)
    (fun i => if i =? 0 then Some (shard_bytes 16 []) else None) 0 0.

(** --limit lim --threads 1 --window 1 --burst 1 --refill_chunk 16,
    GC range 0..100, no substring, no random access. *)
Definition args16 (lim : Z) : Stream.Args :=
  Stream.mkArgs [] false false 0 100 lim 1 (-1) false [] false false 0 1 1 16.

(** One shard of 18-mers covering the anchors [0, 4), of which only
    AAAAAAAAAAAAAAAAAC (key 1) is present. *)
Definition env18 : @Stream.Env KeyListRoaring :=
  Stream.mkEnv KeyListRoaring
    (Some (Stream.mkIndex 1 18 0 [0] [4])) (Some 18)
    (fun i => if i =? 0 then Some (shard_bytes 18 [1]) else None) 0 0.

(** As [args16], with --construct_k 19. *)
Definition args19 (lim : Z) : Stream.Args :=
  Stream.mkArgs [] false false 0 100 lim 1 19 false [] false false 0 1 1 16.

(** The first page of [args16 1] on [env16]. *)
Definition page16 : Stream.Page :=
  Stream.mkPage (lit "QkNXMgAQEAABAAAAAAAAAAAAAAABAAAAAQABAAEAAQAAAAAAAQAAAAAAAAA")
                true [0] 16.

(** The request for the second page. *)
Definition args16_resume (lim : Z) : Stream.Args :=
  Stream.mkArgs [] false false 0 100 lim 1 (-1) true (Stream.cursorStr page16)
                false false 0 1 1 16.

(** What [setup] yields for [args16] on [env16], and the lane main
    starts with. *)
Definition cf16 : Stream.Config :=
  Stream.mkConfig 16 16 0 100 false [] 16 [0] [64].

Definition su16 : Stream.Setup :=
  Stream.mkSetup 1 cf16 0 [0] 0 [Cursor.default_lane].

Definition lane16 : @Stream.LaneRuntime KeyListRoaring :=
  Stream.mkLane true 0 0 (Some (@nil Z : @bitmap KeyListRoaring))
                (mkHeader (4 ^ 16) 0 16 0 2 0)
                UINT64_MAX UINT64_MAX false 0 0 0 [] 0.

(** Membership query: --shards DIR --k 16 --kmers FILE, one shard
    covering all 16-mers. *)
Definition qargs : Query.Args := Query.mkArgs true 16 true 1.

Definition qindex : Query.Index :=
  Query.mkIndex 1 16 [Query.mkShard 0 (4 ^ 16)].

Definition qenv (shard : Kbit.file) (text : string) : Query.Env :=
  Query.mkEnv (Some qindex) (fun _ => shard) None (Some (lit text)) true.

Definition newline : string := String "010"%char EmptyString.
Definition tab : string := String "009"%char EmptyString.

(** A shard file with the payload bytes given as they are. *)
Definition shard_raw (k : Z) (pl : list Z) : list Z :=
  magic ++ push_u64_le (4 ^ k) ++ push_u64_le 0
  ++ push_u64_le k ++ push_u64_le 0 ++ push_u64_le 2
  ++ push_u64_le (Z.of_nat (length pl)) ++ replicate 8 0 ++ pl.

(** gen_kmer_bitmap --k 3 with 8 one-bits wanted and seed 1. *)
Definition gen_args : Gen.Args := Gen.mkArgs 3 8 1.

Definition kmer_A16 : string := "AAAAAAAAAAAAAAAA".
Definition kmer_a14cc : string := "aaaaaaaaaaaaaacc".

(** One k-mer on one line. *)
Definition text_one : string := (kmer_A16 ++ newline)%string.

(** An empty line, a k-mer, and a k-mer in lower case. *)
Definition text_mixed : string :=
  (newline ++ kmer_A16 ++ newline ++ kmer_a14cc ++ newline)%string.

End Examples.

(** ** Notions used to state further properties of the programs *)

Module Notions.
Import Dna.

(** The letters A, C, G, T in either case. *)
Definition is_acgt (c : ascii) : Prop := In c (lit "ACGTacgt").

(** The upper-case letter of a base. *)
Definition upper_base (c : ascii) : ascii :=
  match c with
  | "a"%char => "A"%char
  | "c"%char => "C"%char
  | "g"%char => "G"%char
  | "t"%char => "T"%char
  | _ => c
  end.

(** The number of letters C and G of a printed k-mer. *)
Definition gc_letter (c : ascii) : bool :=
  Ascii.eqb c "C"%char || Ascii.eqb c "G"%char.

Definition gc_letters (s : str) : Z :=
  Z.of_nat (length (List.filter gc_letter s)).

(** Shard ranges that are not empty, in increasing order and without
    overlap. *)
Definition ranges_sorted (shards : list Query.ShardInfo) : Prop :=
  (forall i s, shards !! i = Some s -> Query.s_start s < Query.s_end s) /\
  (forall i j s t, (i < j)%nat -> shards !! i = Some s -> shards !! j = Some t ->
     Query.s_end s <= Query.s_start t).

End Notions.


(** * Facts about the expansion state machine *)

Module ExpansionFacts.
Import Expansion.

Lemma pow4_small n : 0 <= n < 32 -> pow4 n = 4 ^ n.
Proof.
  intros Hn. unfold pow4, wrap64.
  destruct (Z.leb_spec n 0) as [H0|H0].
  - assert (n = 0) by lia. subst. reflexivity.
  - rewrite Z.shiftl_1_l.
    replace (4 ^ n) with (2 ^ (2 * n)).
    + apply Z.mod_small. split; [apply Z.pow_nonneg; lia|].
      apply Z.pow_lt_mono_r; lia.
    + rewrite Z.pow_mul_r by lia. reflexivity.
Qed.

Lemma pow4_big n : 32 <= n -> pow4 n = 0.
Proof.
  intros Hn. unfold pow4, wrap64.
  destruct (Z.leb_spec n 0) as [H0|H0]; [lia|].
  rewrite Z.shiftl_1_l.
  replace (2 * n) with (64 + (2 * n - 64)) by lia.
  rewrite Z.pow_add_r by lia.
  rewrite Z.mul_comm. apply Z.mod_mul. lia.
Qed.

Lemma pow4_range n : 0 <= pow4 n < 2 ^ 64.
Proof.
  unfold pow4, wrap64. destruct (n <=? 0); [lia|].
  apply Z.mod_pos_bound. lia.
Qed.

Lemma pow4_le4 n : 0 <= n -> pow4 n <= 4 ^ n.
Proof.
  intros Hn. destruct (Z.lt_ge_cases n 32).
  - rewrite pow4_small; lia.
  - rewrite pow4_big by lia. apply Z.pow_nonneg. lia.
Qed.

Lemma remaining_bounds n x :
  0 <= n -> 0 <= x < 4 ^ n -> 0 <= remaining n x < 2 ^ 64.
Proof.
  intros Hn Hx. unfold remaining.
  destruct (Z.ltb_spec n 32); [|lia].
  assert (4 ^ n <= 4 ^ 31) by (apply Z.pow_le_mono_r; lia).
  change (4 ^ 31) with 4611686018427387904 in *.
  change (2 ^ 64) with 18446744073709551616. lia.
Qed.

Lemma remaining_zero_bounds n : 0 <= n -> 0 <= remaining n 0 < 2 ^ 64.
Proof.
  intros Hn. apply remaining_bounds; [lia|].
  split; [lia|]. apply Z.pow_pos_nonneg; lia.
Qed.

Lemma measure_nonneg d s : wf_state d s -> 0 <= measure d s.
Proof.
  intros (HL & HL8 & Hl & Hr & Hl4 & Hr4). unfold measure.
  pose proof (remaining_bounds (eL s) (eleft s)).
  pose proof (remaining_bounds (d - eL s) (eright s)).
  nia.
Qed.

(** One step from a well-formed state: either exhaustion, or a
    well-formed successor with a strictly smaller measure. *)
Lemma advance_state_step d s :
  wf_state d s ->
  match advance_state d s with
  | (false, _) => eL s = 0 /\ eleft s = 0 /\ (d < 32 -> eright s + 1 = 4 ^ d)
  | (true, s') => wf_state d s' /\ measure d s' < measure d s
  end.
Proof.
  intros (HL & HL8 & Hl & Hr & Hl4 & Hr4).
  unfold advance_state.
  set (R := d - eL s) in *.
  assert (HR : 0 <= R) by (unfold R; lia).
  assert (Hp4R : 0 < 4 ^ R) by (apply Z.pow_pos_nonneg; lia).
  assert (Hp4L : 0 < 4 ^ eL s) by (apply Z.pow_pos_nonneg; lia).
  pose proof (remaining_zero_bounds R HR) as HremR0.
  pose proof (remaining_zero_bounds (eL s) (proj1 HL)) as HremL0.
  pose proof (remaining_bounds (eL s) (eleft s) (proj1 HL) (conj (proj1 Hl) Hl4)) as HremL.
  pose proof (remaining_bounds R (eright s) HR (conj (proj1 Hr) Hr4)) as HremR.
  destruct (Z.ltb_spec (wrap64 (eright s + 1)) (pow4 R)) as [Hlt|Hge].
  - (* right_idx advances *)
    assert (HR32 : R < 32).
    { destruct (Z.lt_ge_cases R 32); [done|].
      rewrite pow4_big in Hlt by lia. unfold wrap64 in Hlt.
      pose proof (Z.mod_pos_bound (eright s + 1) (2 ^ 64)). lia. }
    rewrite pow4_small in Hlt by lia.
    assert (Hw : wrap64 (eright s + 1) = eright s + 1).
    { unfold wrap64. destruct (Z.eq_dec (eright s + 1) (2 ^ 64)) as [E|E].
      - exfalso. assert (4 ^ R <= 4 ^ 31) by (apply Z.pow_le_mono_r; lia).
        change (4 ^ 31) with 4611686018427387904 in *.
        change (2 ^ 64) with 18446744073709551616 in *. lia.
      - apply Z.mod_small. lia. }
    rewrite Hw in *.
    assert (4 ^ R <= 4 ^ 31) by (apply Z.pow_le_mono_r; lia).
    change (4 ^ 31) with 4611686018427387904 in *.
    change (2 ^ 64) with 18446744073709551616 in *.
    split.
    + unfold wf_state; simpl. fold R.
      change (2 ^ 64) with 18446744073709551616. lia.
    + unfold measure; simpl. fold R. unfold remaining.
      destruct (Z.ltb_spec R 32); lia.
  - destruct (Z.ltb_spec (wrap64 (eleft s + 1)) (pow4 (eL s))) as [Hlt2|Hge2].
    + (* carry into left_idx *)
      assert (HL32 : eL s < 32).
      { destruct (Z.lt_ge_cases (eL s) 32); [done|].
        rewrite pow4_big in Hlt2 by lia. unfold wrap64 in Hlt2.
        pose proof (Z.mod_pos_bound (eleft s + 1) (2 ^ 64)). lia. }
      rewrite pow4_small in Hlt2 by lia.
      assert (Hw : wrap64 (eleft s + 1) = eleft s + 1).
      { unfold wrap64. destruct (Z.eq_dec (eleft s + 1) (2 ^ 64)) as [E|E].
        - exfalso. assert (4 ^ eL s <= 4 ^ 31) by (apply Z.pow_le_mono_r; lia).
          change (4 ^ 31) with 4611686018427387904 in *.
          change (2 ^ 64) with 18446744073709551616 in *. lia.
        - apply Z.mod_small. lia. }
      rewrite Hw in *.
      assert (4 ^ eL s <= 4 ^ 31) by (apply Z.pow_le_mono_r; lia).
      change (4 ^ 31) with 4611686018427387904 in *.
      split.
      * unfold wf_state; simpl. fold R.
        change (2 ^ 64) with 18446744073709551616 in *. lia.
      * unfold measure; simpl. fold R.
        assert (remaining (eL s) (eleft s + 1) = remaining (eL s) (eleft s) - 1).
        { unfold remaining. destruct (Z.ltb_spec (eL s) 32); lia. }
        lia.
    + destruct (Z.eqb_spec (eL s) 0) as [E0|E0].
      * (* exhaustion *)
        assert (HRd : R = d) by (unfold R; lia). clearbody R. subst R.
        rewrite E0 in Hge2, Hl4. change (pow4 0) with 1 in Hge2.
        change (4 ^ 0) with 1 in Hl4.
        assert (eleft s = 0) by lia.
        split; [done|]. split; [done|].
        intros Hd. rewrite pow4_small in Hge by lia.
        assert (4 ^ d <= 4 ^ 31) by (apply Z.pow_le_mono_r; lia).
        change (4 ^ 31) with 4611686018427387904 in *.
        unfold wrap64 in Hge. rewrite Z.mod_small in Hge; [lia|].
        change (2 ^ 64) with 18446744073709551616. lia.
      * (* L decreases *)
        assert (Hw8 : wrap8 (eL s - 1) = eL s - 1).
        { unfold wrap8. apply Z.mod_small. lia. }
        rewrite Hw8.
        split.
        -- unfold wf_state; simpl.
           assert (0 < 4 ^ (eL s - 1)) by (apply Z.pow_pos_nonneg; lia).
           assert (0 < 4 ^ (d - (eL s - 1))) by (apply Z.pow_pos_nonneg; lia).
           lia.
        -- unfold measure; simpl.
           pose proof (remaining_zero_bounds (eL s - 1) ltac:(lia)).
           pose proof (remaining_zero_bounds (d - (eL s - 1)) ltac:(lia)).
           fold R. nia.
Qed.

Lemma steps_to_exhaustion_exists d s :
  wf_state d s -> exists n, steps_to_exhaustion n d s = Some n.
Proof.
  remember (Z.to_nat (measure d s)) as m eqn:Hm.
  revert s Hm. induction m as [m IH] using lt_wf_ind. intros s Hm Hwf.
  pose proof (advance_state_step d s Hwf) as Hstep.
  pose proof (measure_nonneg d s Hwf) as Hnn.
  destruct (advance_state d s) as [[|] s'] eqn:Hadv.
  - destruct Hstep as [Hwf' Hlt].
    pose proof (measure_nonneg d s' Hwf') as Hnn'.
    destruct (IH (Z.to_nat (measure d s'))) with (s := s') as [n Hn];
      [lia|reflexivity|assumption|].
    exists (S n). simpl. rewrite Hadv, Hn. reflexivity.
  - exists 1%nat. simpl. rewrite Hadv. reflexivity.
Qed.

Lemma steps_to_exhaustion_fuel_mono d fuel : forall s n fuel',
  steps_to_exhaustion fuel d s = Some n -> (fuel <= fuel')%nat ->
  steps_to_exhaustion fuel' d s = Some n.
Proof.
  induction fuel as [|fuel IH]; intros s n fuel' H Hle; [discriminate|].
  destruct fuel' as [|fuel']; [lia|].
  simpl in *. destruct (advance_state d s) as [[|] s']; [|assumption].
  destruct (steps_to_exhaustion fuel d s') as [k|] eqn:Hk; [|discriminate].
  rewrite (IH s' k fuel' Hk) by lia. assumption.
Qed.

(** For [d <= 31] no limit wraps: [advance_state] is the plain
    odometer step. *)
Lemma advance_state_cases d s :
  d <= 31 -> wf_state d s ->
  advance_state d s =
    if eright s + 1 <? 4 ^ (d - eL s) then (true, mkExp (eL s) (eleft s) (eright s + 1))
    else if eleft s + 1 <? 4 ^ eL s then (true, mkExp (eL s) (eleft s + 1) 0)
    else if eL s =? 0 then (false, mkExp (eL s) 0 0)
    else (true, mkExp (eL s - 1) 0 0).
Proof.
  intros Hd (HL & HL8 & Hl & Hr & Hl4 & Hr4). unfold advance_state.
  rewrite !pow4_small by lia.
  assert (4 ^ (d - eL s) <= 4 ^ 31) by (apply Z.pow_le_mono_r; lia).
  assert (4 ^ eL s <= 4 ^ 31) by (apply Z.pow_le_mono_r; lia).
  change (4 ^ 31) with 4611686018427387904 in *.
  assert (Hwr : wrap64 (eright s + 1) = eright s + 1).
  { unfold wrap64. apply Z.mod_small.
    change (2 ^ 64) with 18446744073709551616. lia. }
  assert (Hwl : wrap64 (eleft s + 1) = eleft s + 1).
  { unfold wrap64. apply Z.mod_small.
    change (2 ^ 64) with 18446744073709551616. lia. }
  rewrite Hwr, Hwl.
  destruct (eright s + 1 <? 4 ^ (d - eL s)); [reflexivity|].
  destruct (eleft s + 1 <? 4 ^ eL s); [reflexivity|].
  destruct (Z.eqb_spec (eL s) 0); [reflexivity|].
  unfold wrap8. rewrite Z.mod_small by lia. reflexivity.
Qed.

Lemma rev_seqZ_succ n : 0 <= n -> rev (seqZ 0 (n + 1)) = n :: rev (seqZ 0 n).
Proof.
  intros Hn. rewrite seqZ_app by lia. rewrite rev_app_distr.
  rewrite (seqZ_cons (0 + n) 1) by lia. rewrite seqZ_nil by lia.
  simpl. reflexivity.
Qed.

Lemma tail_from_step d s :
  d <= 31 -> wf_state d s ->
  match advance_state d s with
  | (true, s') => tail_from d s = s :: tail_from d s'
  | (false, _) => tail_from d s = [s]
  end.
Proof.
  intros Hd Hwf. rewrite advance_state_cases by assumption.
  destruct Hwf as (HL & HL8 & Hl & Hr & Hl4 & Hr4).
  destruct s as [L l r]. simpl in *. unfold tail_from. simpl.
  destruct (Z.ltb_spec (r + 1) (4 ^ (d - L))) as [H1|H1].
  - rewrite (seqZ_cons r) by lia. simpl.
    replace (Z.pred (4 ^ (d - L) - r)) with (4 ^ (d - L) - (r + 1)) by lia.
    reflexivity.
  - assert (Er : 4 ^ (d - L) - r = 1) by lia. rewrite Er.
    rewrite (seqZ_cons r 1) by lia. rewrite (seqZ_nil _ (Z.pred 1)) by lia.
    simpl.
    destruct (Z.ltb_spec (l + 1) (4 ^ L)) as [H2|H2].
    + rewrite (seqZ_cons (l + 1)) by lia. simpl.
      unfold block at 1. rewrite Z.sub_0_r.
      replace (Z.succ (l + 1)) with (l + 1 + 1) by lia.
      replace (Z.pred (4 ^ L - (l + 1))) with (4 ^ L - (l + 1 + 1)) by lia.
      rewrite <- app_assoc. reflexivity.
    + rewrite (seqZ_nil (l + 1)) by lia. simpl.
      destruct (Z.eqb_spec L 0) as [E|E].
      * subst L. rewrite (seqZ_nil 0 0) by lia. reflexivity.
      * replace L with (L - 1 + 1) at 2 by lia.
        rewrite rev_seqZ_succ by lia. simpl.
        unfold level at 1.
        assert (0 < 4 ^ (L - 1)) by (apply Z.pow_pos_nonneg; lia).
        rewrite (seqZ_cons 0 (4 ^ (L - 1))) by lia. simpl.
        unfold block at 1.
        assert (0 < 4 ^ (d - (L - 1))) by (apply Z.pow_pos_nonneg; lia).
        rewrite Z.sub_0_r.
        replace (Z.succ 0) with (0 + 1) by lia.
        replace (Z.pred (4 ^ (L - 1))) with (4 ^ (L - 1) - (0 + 1)) by lia.
        rewrite <- app_assoc. reflexivity.
Qed.

(** The machine started at a well-formed state visits exactly the
    remaining part of the documented order. *)
Lemma expand_from_tail d s :
  d <= 31 -> wf_state d s ->
  exists n, expand_from n d s = Some (tail_from d s).
Proof.
  intros Hd.
  remember (Z.to_nat (measure d s)) as m eqn:Hm.
  revert s Hm. induction m as [m IH] using lt_wf_ind. intros s Hm Hwf.
  pose proof (advance_state_step d s Hwf) as Hstep.
  pose proof (tail_from_step d s Hd Hwf) as Htail.
  pose proof (measure_nonneg d s Hwf) as Hnn.
  destruct (advance_state d s) as [[|] s'] eqn:Hadv.
  - destruct Hstep as [Hwf' Hlt].
    pose proof (measure_nonneg d s' Hwf') as Hnn'.
    destruct (IH (Z.to_nat (measure d s'))) with (s := s') as [n Hn];
      [lia|reflexivity|assumption|].
    exists (S n). simpl. rewrite Hadv, Hn, Htail. reflexivity.
  - exists 1%nat. simpl. rewrite Hadv, Htail. reflexivity.
Qed.

Lemma expand_from_fuel_mono d fuel : forall s l fuel',
  expand_from fuel d s = Some l -> (fuel <= fuel')%nat ->
  expand_from fuel' d s = Some l.
Proof.
  induction fuel as [|fuel IH]; intros s l fuel' H Hle; [discriminate|].
  destruct fuel' as [|fuel']; [lia|].
  simpl in *. destruct (advance_state d s) as [[|] s']; [|assumption].
  destruct (expand_from fuel d s') as [k|] eqn:Hk; [|discriminate].
  rewrite (IH s' k fuel' Hk) by lia. assumption.
Qed.

Lemma expand_from_length d fuel : forall s l,
  expand_from fuel d s = Some l -> (length l <= fuel)%nat.
Proof.
  induction fuel as [|fuel IH]; intros s l H; [discriminate|].
  simpl in H. destruct (advance_state d s) as [[|] s'].
  - destruct (expand_from fuel d s') as [k|] eqn:Hk; [|discriminate].
    injection H as <-. simpl. specialize (IH _ _ Hk). lia.
  - injection H as <-. simpl. lia.
Qed.

Lemma wf_init d : 0 <= d <= 31 -> wf_state d (init_state_first d).
Proof.
  intros Hd. unfold wf_state, init_state_first, wrap8. simpl.
  rewrite Z.mod_small by lia. rewrite Z.sub_diag.
  assert (0 < 4 ^ d) by (apply Z.pow_pos_nonneg; lia).
  change (4 ^ 0) with 1. lia.
Qed.

Lemma tail_from_init d :
  0 <= d <= 31 -> tail_from d (init_state_first d) = all_states d.
Proof.
  intros Hd. unfold tail_from, all_states, init_state_first, wrap8. simpl.
  rewrite Z.mod_small by lia.
  rewrite rev_seqZ_succ by lia. simpl.
  unfold level at 2.
  assert (0 < 4 ^ d) by (apply Z.pow_pos_nonneg; lia).
  rewrite (seqZ_cons 0 (4 ^ d)) by lia. simpl. unfold block at 2.
  rewrite Z.sub_0_r.
  replace (Z.succ 0) with (0 + 1) by lia.
  replace (Z.pred (4 ^ d)) with (4 ^ d - (0 + 1)) by lia.
  rewrite <- app_assoc. reflexivity.
Qed.

Lemma length_flat_map_const {A B} (f : A -> list B) (c : nat) l :
  (forall x, In x l -> length (f x) = c) ->
  length (flat_map f l) = (length l * c)%nat.
Proof.
  induction l as [|x l IH]; intros H; simpl; [reflexivity|].
  rewrite length_app, H by (left; reflexivity).
  rewrite IH by (intros; apply H; right; assumption). lia.
Qed.

Lemma length_block d L l : length (block d L l) = Z.to_nat (4 ^ (d - L)).
Proof. unfold block. rewrite length_map, length_seqZ. reflexivity. Qed.

Lemma length_level d L :
  0 <= L <= d -> length (level d L) = Z.to_nat (4 ^ d).
Proof.
  intros HL. unfold level.
  rewrite (length_flat_map_const _ (Z.to_nat (4 ^ (d - L))))
    by (intros; apply length_block).
  rewrite length_seqZ.
  rewrite <- Z2Nat.inj_mul by (apply Z.pow_nonneg; lia).
  rewrite <- Z.pow_add_r by lia. f_equal. f_equal. lia.
Qed.

Lemma length_all_states d :
  0 <= d -> length (all_states d) = Z.to_nat ((d + 1) * 4 ^ d).
Proof.
  intros Hd. unfold all_states.
  rewrite (length_flat_map_const _ (Z.to_nat (4 ^ d))).
  - rewrite length_rev, length_seqZ.
    rewrite <- Z2Nat.inj_mul; [reflexivity|lia|apply Z.pow_nonneg; lia].
  - intros L HL. apply length_level.
    apply in_rev in HL. apply list_elem_of_In, elem_of_seqZ in HL. lia.
Qed.

(** Membership in the documented order. *)
Lemma in_all_states d s :
  0 <= d ->
  In s (all_states d) <->
  0 <= eL s <= d /\ 0 <= eleft s < 4 ^ eL s /\ 0 <= eright s < 4 ^ (d - eL s).
Proof.
  intros Hd. unfold all_states, level, block.
  rewrite in_flat_map. split.
  - intros (L & HL & Hs). apply in_rev, list_elem_of_In, elem_of_seqZ in HL.
    apply in_flat_map in Hs as (l & Hl & Hs).
    apply list_elem_of_In, elem_of_seqZ in Hl.
    apply in_map_iff in Hs as (r & <- & Hr).
    apply list_elem_of_In, elem_of_seqZ in Hr. simpl. lia.
  - intros (HL & Hl & Hr). exists (eL s). split.
    + apply in_rev. rewrite rev_involutive.
      apply list_elem_of_In, elem_of_seqZ. lia.
    + apply in_flat_map. exists (eleft s). split.
      * apply list_elem_of_In, elem_of_seqZ. lia.
      * apply in_map_iff. exists (eright s). split; [destruct s; reflexivity|].
        apply list_elem_of_In, elem_of_seqZ. lia.
Qed.

Lemma NoDup_flat_map_key {A B} (f : A -> list B) (key : B -> A) l :
  NoDup l -> (forall x, NoDup (f x)) ->
  (forall x y, In y (f x) -> key y = x) ->
  NoDup (flat_map f l).
Proof.
  intros Hl Hf Hkey. induction Hl as [|x l Hx Hl IH]; simpl; [constructor|].
  apply NoDup_app. split; [apply Hf|]. split; [|exact IH].
  intros y Hy Hy'. apply list_elem_of_In in Hy, Hy'.
  apply in_flat_map in Hy' as (x' & Hx' & Hy').
  apply Hkey in Hy, Hy'. subst. apply Hx, list_elem_of_In. congruence.
Qed.

Lemma NoDup_block d L l : NoDup (block d L l).
Proof.
  unfold block. apply NoDup_fmap_2; [|apply NoDup_seqZ].
  intros r r' E. congruence.
Qed.

Lemma NoDup_level d L : NoDup (level d L).
Proof.
  unfold level. apply (NoDup_flat_map_key _ eleft).
  - apply NoDup_seqZ.
  - intros. apply NoDup_block.
  - intros l s Hs. unfold block in Hs. apply in_map_iff in Hs as (r & <- & _).
    reflexivity.
Qed.

Lemma NoDup_all_states d : NoDup (all_states d).
Proof.
  unfold all_states. apply (NoDup_flat_map_key _ eL).
  - apply NoDup_ListNoDup, List.NoDup_rev, NoDup_ListNoDup, NoDup_seqZ.
  - intros. apply NoDup_level.
  - intros L s Hs. unfold level in Hs. apply in_flat_map in Hs as (l & _ & Hs).
    unfold block in Hs. apply in_map_iff in Hs as (r & <- & _). reflexivity.
Qed.

(** Or-ing a value below [2^n] under a value shifted by [n] is adding. *)
Lemma lor_shiftl_add a b n :
  0 <= n -> 0 <= b < 2 ^ n -> Z.lor (Z.shiftl a n) b = a * 2 ^ n + b.
Proof.
  intros Hn Hb. rewrite <- Z.shiftl_mul_pow2 by lia.
  rewrite <- Z.lxor_lor.
  - symmetry. apply Z.add_nocarry_lxor.
    apply Z.bits_inj'. intros i Hi. rewrite Z.land_spec, Z.bits_0.
    destruct (Z.lt_ge_cases i n).
    + rewrite Z.shiftl_spec_low by lia. reflexivity.
    + destruct (Z.eq_dec b 0) as [->|Hb0]; [rewrite Z.bits_0; apply andb_false_r|].
      rewrite (Z.bits_above_log2 b i); [apply andb_false_r|lia|].
      apply Z.log2_lt_pow2; [lia|]. apply Z.lt_le_trans with (2 ^ n); [lia|].
      apply Z.pow_le_mono_r; lia.
  - apply Z.bits_inj'. intros i Hi. rewrite Z.land_spec, Z.bits_0.
    destruct (Z.lt_ge_cases i n).
    + rewrite Z.shiftl_spec_low by lia. reflexivity.
    + destruct (Z.eq_dec b 0) as [->|Hb0]; [rewrite Z.bits_0; apply andb_false_r|].
      rewrite (Z.bits_above_log2 b i); [apply andb_false_r|lia|].
      apply Z.log2_lt_pow2; [lia|]. apply Z.lt_le_trans with (2 ^ n); [lia|].
      apply Z.pow_le_mono_r; lia.
Qed.

Lemma pow4_pow2 n : 0 <= n -> 4 ^ n = 2 ^ (2 * n).
Proof. intros. rewrite Z.pow_mul_r by lia. reflexivity. Qed.

(** With [kout <= 32] no bit is shifted out: the value is the base-4
    concatenation of [left_idx], the anchor and [right_idx]. *)
Lemma make_value_exact parentB k0 kout L l r :
  0 <= k0 -> kout <= 32 -> 0 <= L <= kout - k0 ->
  0 <= parentB < 4 ^ k0 -> 0 <= l < 4 ^ L -> 0 <= r < 4 ^ (kout - k0 - L) ->
  make_value parentB k0 kout L l r
  = l * 4 ^ (k0 + (kout - k0 - L)) + parentB * 4 ^ (kout - k0 - L) + r
  /\ 0 <= make_value parentB k0 kout L l r < 4 ^ kout.
Proof.
  intros Hk0 Hk HL HB Hl Hr. unfold make_value.
  set (R := kout - k0 - L) in *.
  assert (HR : 0 <= R) by (unfold R; lia).
  assert (H4R : 0 < 4 ^ R) by (apply Z.pow_pos_nonneg; lia).
  assert (H4k : 0 < 4 ^ k0) by (apply Z.pow_pos_nonneg; lia).
  assert (H4L : 0 < 4 ^ L) by (apply Z.pow_pos_nonneg; lia).
  assert (Hmid : 0 <= parentB * 4 ^ R + r < 4 ^ (k0 + R)).
  { rewrite Z.pow_add_r by lia. nia. }
  assert (Hall : 0 <= l * 4 ^ (k0 + R) + (parentB * 4 ^ R + r) < 4 ^ kout).
  { replace kout with (L + (k0 + R)) by (unfold R; lia).
    rewrite (Z.pow_add_r 4 L) by lia.
    assert (0 < 4 ^ (k0 + R)) by (apply Z.pow_pos_nonneg; lia). nia. }
  assert (H64 : 4 ^ kout <= 2 ^ 64).
  { rewrite pow4_pow2 by lia. apply Z.pow_le_mono_r; lia. }
  assert (Hw1 : wrap64 (Z.shiftl l (2 * (k0 + R))) = l * 4 ^ (k0 + R)).
  { unfold wrap64. rewrite Z.shiftl_mul_pow2 by lia.
    rewrite <- pow4_pow2 by lia. apply Z.mod_small.
    assert (0 < 4 ^ (k0 + R)) by (apply Z.pow_pos_nonneg; lia). nia. }
  assert (Hw2 : wrap64 (Z.shiftl parentB (2 * R)) = parentB * 4 ^ R).
  { unfold wrap64. rewrite Z.shiftl_mul_pow2 by lia.
    rewrite <- pow4_pow2 by lia. apply Z.mod_small.
    assert (4 ^ (k0 + R) <= 4 ^ kout) by (apply Z.pow_le_mono_r; unfold R; lia).
    nia. }
  rewrite Hw1, Hw2.
  rewrite <- Z.lor_assoc.
  assert (Hin : Z.lor (parentB * 4 ^ R) r = parentB * 4 ^ R + r).
  { rewrite (pow4_pow2 R) by lia.
    rewrite <- lor_shiftl_add by (rewrite <- ?pow4_pow2; lia).
    rewrite Z.shiftl_mul_pow2 by lia. reflexivity. }
  rewrite Hin.
  assert (Hout : Z.lor (l * 4 ^ (k0 + R)) (parentB * 4 ^ R + r)
                 = l * 4 ^ (k0 + R) + (parentB * 4 ^ R + r)).
  { rewrite (pow4_pow2 (k0 + R)) by lia.
    rewrite <- lor_shiftl_add by (rewrite <- ?pow4_pow2; lia).
    rewrite Z.shiftl_mul_pow2 by lia. reflexivity. }
  rewrite Hout. split; lia.
Qed.

Lemma expand_from_det d f1 f2 s l1 l2 :
  expand_from f1 d s = Some l1 -> expand_from f2 d s = Some l2 -> l1 = l2.
Proof.
  intros H1 H2. destruct (Nat.le_ge_cases f1 f2) as [Hle|Hle].
  - rewrite (expand_from_fuel_mono d f1 s l1 f2 H1 Hle) in H2. congruence.
  - rewrite (expand_from_fuel_mono d f2 s l2 f1 H2 Hle) in H1. congruence.
Qed.

(** The per-parent loop of [refill_lane] needs no more iterations than
    [advance_state] needs steps. *)
Lemma expand_parent_returns cf parentB n : forall s bf,
  steps_to_exhaustion n (Stream.kout cf - Stream.k0 cf) s = Some n ->
  exists r, Stream.expand_parent n cf parentB s bf = Some r.
Proof.
  induction n as [|n IH]; intros s bf Hn; [discriminate|].
  simpl in *. destruct (Stream.bsize bf <? Stream.refill_target cf); [|eauto].
  destruct (advance_state _ s) as [[|] s']; [|eauto].
  destruct (steps_to_exhaustion n _ s') as [k|] eqn:Hk; [|discriminate].
  simpl in Hn. assert (k = n) by congruence. subst k.
  apply IH. assumption.
Qed.

End ExpansionFacts.

(** C10. From every well-formed expansion state (L <= d, left_idx < 4^L,
    right_idx < 4^(d-L), for any d >= 0) repeated [advance_state] returns
    [false] after finitely many steps, and the per-parent loop of
    [refill_lane] started there returns, whatever the anchor, the
    filters and the buffer are. *)
Theorem advance_state_reaches_exhaustion (d : Z) (s : Expansion.ExpState) :
  0 <= d -> Expansion.wf_state d s ->
  exists n : nat,
    Expansion.steps_to_exhaustion n d s = Some n /\
    forall cf parentB bf,
      Stream.kout cf - Stream.k0 cf = d ->
      exists r, Stream.expand_parent n cf parentB s bf = Some r.
Proof.
  intros _ Hwf.
  destruct (ExpansionFacts.steps_to_exhaustion_exists d s Hwf) as [n Hn].
  exists n. split; [exact Hn|].
  intros cf parentB bf Hd. apply ExpansionFacts.expand_parent_returns.
  rewrite Hd. exact Hn.
Qed.

Lemma advance_state_reaches_exhaustion_witness :
  exists n : nat,
    Expansion.steps_to_exhaustion n 2 (Expansion.mkExp 1 3 2) = Some n /\
    forall cf parentB bf,
      Stream.kout cf - Stream.k0 cf = 2 ->
      exists r, Stream.expand_parent n cf parentB (Expansion.mkExp 1 3 2) bf = Some r.
Proof.
  apply (advance_state_reaches_exhaustion 2 (Expansion.mkExp 1 3 2)).
  - lia.
  - unfold Expansion.wf_state; simpl. lia.
Defined.

(** C2, as stated: 4^d values, pairwise distinct.  For the anchor
    B = 0 (AAAAAAAAAAAAAAAAAA) and d = 1 the machine emits 8 values and
    the value 0 twice (A+B under L = 1 and B+A under L = 0). *)
Lemma expansion_not_4d_distinct :
  ~ (exists fuel vs,
       Expansion.expand_values fuel 0 18 19 = Some vs /\
       Z.of_nat (length vs) = 4 ^ (19 - 18) /\ NoDup vs).
Proof.
  intros (fuel & vs & Hvs & Hlen & _).
  unfold Expansion.expand_values in Hvs.
  destruct (Expansion.expand_from fuel (19 - 18) _) as [l|] eqn:Hl; [|discriminate].
  assert (H8 : Expansion.expand_from 8 (19 - 18) (Expansion.init_state_first (19 - 18))
               = Some (Expansion.all_states 1)) by (vm_compute; reflexivity).
  pose proof (ExpansionFacts.expand_from_det _ _ _ _ _ _ Hl H8) as ->.
  simpl in Hvs. injection Hvs as <-.
  vm_compute in Hlen. discriminate.
Qed.

(** C2, amended.  For every anchor B and d = kout - k0 >= 1
    (1 <= k0, kout <= 32, as main enforces)
    the machine started at (L = d, 0, 0) visits exactly the index triples
    (L, left_idx, right_idx) with L = d, d-1, ..., 0, left_idx in [0, 4^L)
    outermost and right_idx in [0, 4^(d-L)) innermost, each exactly once:
    (d+1) * 4^d states, 4^d for each L.  The value emitted at a state is
    (left_idx << 2(k0+R)) | (B << 2R) | right_idx with R = d - L, which is
    the base-4 concatenation left_idx . B . right_idx, no bit being lost. *)
Theorem expansion_enumerates_all_states (B k0 kout : Z) :
  1 <= kout - k0 -> 1 <= k0 -> kout <= 32 -> 0 <= B < 4 ^ k0 ->
  let d := kout - k0 in
  exists fuel,
    Expansion.expand_from fuel d (Expansion.init_state_first d)
      = Some (Expansion.all_states d) /\
    Expansion.expand_values fuel B k0 kout
      = Some (map (Expansion.value_of B k0 kout) (Expansion.all_states d)) /\
    NoDup (Expansion.all_states d) /\
    length (Expansion.all_states d) = Z.to_nat ((d + 1) * 4 ^ d) /\
    (forall s, In s (Expansion.all_states d) <->
               0 <= Expansion.eL s <= d /\
               0 <= Expansion.eleft s < 4 ^ Expansion.eL s /\
               0 <= Expansion.eright s < 4 ^ (d - Expansion.eL s)) /\
    (forall s, In s (Expansion.all_states d) ->
               Expansion.value_of B k0 kout s
               = Expansion.eleft s * 4 ^ (k0 + (d - Expansion.eL s))
                 + B * 4 ^ (d - Expansion.eL s) + Expansion.eright s).
Proof.
  intros Hd Hk0 Hk HB d.
  assert (Hd31 : 0 <= d <= 31) by (unfold d; lia).
  destruct (ExpansionFacts.expand_from_tail d (Expansion.init_state_first d))
    as [fuel Hfuel]; [lia|apply ExpansionFacts.wf_init; lia|].
  rewrite ExpansionFacts.tail_from_init in Hfuel by lia.
  exists fuel. split; [exact Hfuel|]. split.
  { unfold Expansion.expand_values. fold d. rewrite Hfuel. reflexivity. }
  split; [apply ExpansionFacts.NoDup_all_states|].
  split; [apply ExpansionFacts.length_all_states; lia|].
  split; [intros s; apply ExpansionFacts.in_all_states; lia|].
  intros s Hs. apply ExpansionFacts.in_all_states in Hs; [|lia].
  unfold Expansion.value_of.
  destruct (ExpansionFacts.make_value_exact B k0 kout (Expansion.eL s)
              (Expansion.eleft s) (Expansion.eright s)) as [E _];
    try lia; fold d; try lia.
  exact E.
Qed.

Lemma expansion_enumerates_all_states_witness :
  exists fuel,
    Expansion.expand_from fuel (20 - 18) (Expansion.init_state_first (20 - 18))
      = Some (Expansion.all_states (20 - 18)) /\
    Expansion.expand_values fuel 5 18 20
      = Some (map (Expansion.value_of 5 18 20) (Expansion.all_states (20 - 18))) /\
    NoDup (Expansion.all_states (20 - 18)) /\
    length (Expansion.all_states (20 - 18)) = Z.to_nat ((20 - 18 + 1) * 4 ^ (20 - 18)) /\
    (forall s, In s (Expansion.all_states (20 - 18)) <->
               0 <= Expansion.eL s <= 20 - 18 /\
               0 <= Expansion.eleft s < 4 ^ Expansion.eL s /\
               0 <= Expansion.eright s < 4 ^ (20 - 18 - Expansion.eL s)) /\
    (forall s, In s (Expansion.all_states (20 - 18)) ->
               Expansion.value_of 5 18 20 s
               = Expansion.eleft s * 4 ^ (18 + (20 - 18 - Expansion.eL s))
                 + 5 * 4 ^ (20 - 18 - Expansion.eL s) + Expansion.eright s).
Proof.
  apply (expansion_enumerates_all_states 5 18 20);
    [lia | lia | lia | split; [lia | reflexivity]].
Defined.



(** * Facts about base64url and the BCW2 codec *)

Module B64Facts.
Import Dna B64.

(** Bit operations with constant masks and shifts, as arithmetic. *)
Lemma land_63 x : Z.land x 63 = x mod 64.
Proof. change 63 with (Z.ones 6). rewrite Z.land_ones by lia. reflexivity. Qed.

Lemma land_255 x : Z.land x 255 = x mod 256.
Proof. change 255 with (Z.ones 8). rewrite Z.land_ones by lia. reflexivity. Qed.

Lemma lor_shl8 x c : 0 <= c < 256 -> Z.lor (Z.shiftl x 8) c = x * 256 + c.
Proof. intros. rewrite ExpansionFacts.lor_shiftl_add by (simpl; lia). reflexivity. Qed.

Lemma lor_shl6 x c : 0 <= c < 64 -> Z.lor (Z.shiftl x 6) c = x * 64 + c.
Proof. intros. rewrite ExpansionFacts.lor_shiftl_add by (simpl; lia). reflexivity. Qed.

Lemma wrap32_range x : 0 <= wrap32 x < 2 ^ 32.
Proof. unfold wrap32. apply Z.mod_pos_bound. lia. Qed.

Ltac arith :=
  unfold wrap32 in *; change (2 ^ 32) with 4294967296 in *;
  rewrite ?Z.shiftr_div_pow2, ?Z.shiftl_mul_pow2 by lia;
  change (2 ^ 0) with 1; change (2 ^ 2) with 4; change (2 ^ 4) with 16;
  change (2 ^ 6) with 64;
  Z.to_euclidean_division_equations; lia.

(** The encoder, one byte at a time. *)
Lemma encode_step_0 buf out c :
  is_byte c ->
  exists buf', encode_step (buf, 0, out) c = (buf', 2, out ++ [b64_char (c / 4)])
               /\ buf' mod 4 = c mod 4 /\ 0 <= buf'.
Proof.
  intros Hc. unfold is_byte in Hc. unfold encode_step.
  change (Z.to_nat ((0 + 8) / 6)) with 1%nat. cbn [emit_sextets].
  change (0 + 8 - 6) with 2.
  exists (wrap32 (Z.lor (Z.shiftl buf 8) c)).
  rewrite land_63, lor_shl8 by lia.
  split; [|split; [|apply wrap32_range]].
  - do 4 f_equal. arith.
  - arith.
Qed.

Lemma encode_step_2 buf out c :
  is_byte c -> 0 <= buf ->
  exists buf', encode_step (buf, 2, out) c
               = (buf', 4, out ++ [b64_char ((buf mod 4) * 16 + c / 16)])
               /\ buf' mod 16 = c mod 16 /\ 0 <= buf'.
Proof.
  intros Hc Hb. unfold is_byte in Hc. unfold encode_step.
  change (Z.to_nat ((2 + 8) / 6)) with 1%nat. cbn [emit_sextets].
  change (2 + 8 - 6) with 4.
  exists (wrap32 (Z.lor (Z.shiftl buf 8) c)).
  rewrite land_63, lor_shl8 by lia.
  split; [|split; [|apply wrap32_range]].
  - do 4 f_equal. arith.
  - arith.
Qed.

Lemma encode_step_4 buf out c :
  is_byte c -> 0 <= buf ->
  exists buf', encode_step (buf, 4, out) c
               = (buf', 0, (out ++ [b64_char ((buf mod 16) * 4 + c / 64)])
                              ++ [b64_char (c mod 64)])
               /\ 0 <= buf'.
Proof.
  intros Hc Hb. unfold is_byte in Hc. unfold encode_step.
  change (Z.to_nat ((4 + 8) / 6)) with 2%nat. cbn [emit_sextets].
  change (4 + 8 - 6) with 6. change (6 - 6) with 0.
  exists (wrap32 (Z.lor (Z.shiftl buf 8) c)).
  rewrite !land_63, lor_shl8 by lia.
  split; [|apply wrap32_range].
  assert (E1 : (Z.shiftr (wrap32 (buf * 256 + c)) 6) mod 64
               = buf mod 16 * 4 + c / 64) by arith.
  assert (E2 : (Z.shiftr (wrap32 (buf * 256 + c)) 0) mod 64 = c mod 64) by arith.
  rewrite E1, E2. reflexivity.
Qed.

Lemma b64_T_char v : 0 <= v < 64 -> b64_T (b64_char v) = v.
Proof.
  intros Hv.
  assert (H : forallb (fun i => b64_T (b64_char i) =? i) (seqZ 0 64) = true)
    by (vm_compute; reflexivity).
  rewrite forallb_forall in H. apply Z.eqb_eq, H.
  apply list_elem_of_In, elem_of_seqZ. lia.
Qed.

(** The decoder, one character at a time. *)
Lemma decode_go_0 v rest buf out :
  0 <= v < 64 ->
  exists buf', decode_go (b64_char v :: rest) buf 0 out = decode_go rest buf' 6 out
               /\ buf' mod 64 = v /\ 0 <= buf'.
Proof.
  intros Hv. cbn [decode_go]. rewrite b64_T_char by lia.
  destruct (Z.ltb_spec v 0); [lia|].
  change (8 <=? 0 + 6) with false. cbn iota. change (0 + 6) with 6.
  exists (wrap32 (Z.lor (Z.shiftl buf 6) v)).
  split; [reflexivity|]. rewrite lor_shl6 by lia.
  split; [|apply wrap32_range]. arith.
Qed.

Lemma decode_go_6 v rest buf out :
  0 <= v < 64 -> 0 <= buf ->
  exists buf', decode_go (b64_char v :: rest) buf 6 out
               = decode_go rest buf' 4 (out ++ [(buf mod 64) * 4 + v / 16])
               /\ buf' mod 16 = v mod 16 /\ 0 <= buf'.
Proof.
  intros Hv Hb. cbn [decode_go]. rewrite b64_T_char by lia.
  destruct (Z.ltb_spec v 0); [lia|].
  change (8 <=? 6 + 6) with true. cbn iota. change (6 + 6 - 8) with 4.
  exists (wrap32 (Z.lor (Z.shiftl buf 6) v)).
  rewrite land_255, lor_shl6 by lia.
  assert (E : (Z.shiftr (wrap32 (buf * 64 + v)) 4) mod 256
              = buf mod 64 * 4 + v / 16) by arith.
  rewrite E. split; [reflexivity|].
  split; [|apply wrap32_range]. arith.
Qed.

Lemma decode_go_4 v rest buf out :
  0 <= v < 64 -> 0 <= buf ->
  exists buf', decode_go (b64_char v :: rest) buf 4 out
               = decode_go rest buf' 2 (out ++ [(buf mod 16) * 16 + v / 4])
               /\ buf' mod 4 = v mod 4 /\ 0 <= buf'.
Proof.
  intros Hv Hb. cbn [decode_go]. rewrite b64_T_char by lia.
  destruct (Z.ltb_spec v 0); [lia|].
  change (8 <=? 4 + 6) with true. cbn iota. change (4 + 6 - 8) with 2.
  exists (wrap32 (Z.lor (Z.shiftl buf 6) v)).
  rewrite land_255, lor_shl6 by lia.
  assert (E : (Z.shiftr (wrap32 (buf * 64 + v)) 2) mod 256
              = buf mod 16 * 16 + v / 4) by arith.
  rewrite E. split; [reflexivity|].
  split; [|apply wrap32_range]. arith.
Qed.

Lemma decode_go_2 v rest buf out :
  0 <= v < 64 -> 0 <= buf ->
  exists buf', decode_go (b64_char v :: rest) buf 2 out
               = decode_go rest buf' 0 (out ++ [(buf mod 4) * 64 + v])
               /\ 0 <= buf'.
Proof.
  intros Hv Hb. cbn [decode_go]. rewrite b64_T_char by lia.
  destruct (Z.ltb_spec v 0); [lia|].
  change (8 <=? 2 + 6) with true. cbn iota. change (2 + 6 - 8) with 0.
  exists (wrap32 (Z.lor (Z.shiftl buf 6) v)).
  rewrite land_255, lor_shl6 by lia.
  assert (E : (Z.shiftr (wrap32 (buf * 64 + v)) 0) mod 256
              = buf mod 4 * 64 + v) by arith.
  rewrite E. split; [reflexivity|apply wrap32_range].
Qed.

(** The output accumulator of the encoder is only appended to. *)
Lemma emit_sextets_out n : forall buf bits out,
  emit_sextets n buf bits out
  = (fst (emit_sextets n buf bits []), out ++ snd (emit_sextets n buf bits [])).
Proof.
  induction n as [|n IH]; intros buf bits out; cbn [emit_sextets].
  - simpl. rewrite app_nil_r. reflexivity.
  - rewrite IH. rewrite (IH _ _ ([] ++ _)). simpl.
    rewrite <- app_assoc. reflexivity.
Qed.

Lemma encode_step_out buf bits out c :
  encode_step (buf, bits, out) c
  = let '(b, bi, o) := encode_step (buf, bits, []) c in (b, bi, out ++ o).
Proof.
  unfold encode_step. rewrite emit_sextets_out.
  destruct (emit_sextets _ _ _ []) as [bi o]. reflexivity.
Qed.

Lemma fold_encode_out l : forall buf bits out,
  fold_left encode_step l (buf, bits, out)
  = let '(b, bi, o) := fold_left encode_step l (buf, bits, []) in (b, bi, out ++ o).
Proof.
  induction l as [|c l IH]; intros buf bits out; cbn [fold_left].
  - rewrite app_nil_r. reflexivity.
  - rewrite encode_step_out.
    destruct (encode_step (buf, bits, []) c) as [[b bi] o].
    rewrite IH. rewrite (IH b bi o).
    destruct (fold_left encode_step l (b, bi, [])) as [[b' bi'] o'].
    rewrite app_assoc. reflexivity.
Qed.

Lemma enc_from_cons buf bits c l b bi o :
  encode_step (buf, bits, []) c = (b, bi, o) ->
  enc_from buf bits (c :: l) = o ++ enc_from b bi l.
Proof.
  intros E. unfold enc_from. cbn [fold_left]. rewrite E.
  rewrite fold_encode_out.
  destruct (fold_left encode_step l (b, bi, [])) as [[b' bi'] o'].
  destruct (bi' =? 0); [reflexivity|]. rewrite app_assoc. reflexivity.
Qed.

Lemma flush_2 buf : 0 <= buf ->
  Z.land (wrap32 (Z.shiftl buf (6 - 2))) 63 = (buf mod 4) * 16.
Proof. intros. rewrite land_63. change (6 - 2) with 4. arith. Qed.

Lemma flush_4 buf : 0 <= buf ->
  Z.land (wrap32 (Z.shiftl buf (6 - 4))) 63 = (buf mod 16) * 4.
Proof. intros. rewrite land_63. change (6 - 4) with 2. arith. Qed.

(** Decoder and encoder in step: the decoder has received everything the
    encoder wrote; what the encoder still holds ([bits] pending bits) is
    the low part of the byte the decoder is in the middle of. *)
Lemma decode_enc_from l :
  Forall is_byte l ->
  (forall ebuf dbuf out,
     decode_go (enc_from ebuf 0 l) dbuf 0 out = Some (out ++ l)) /\
  (forall ebuf dbuf out last,
     0 <= ebuf -> 0 <= dbuf ->
     last = (dbuf mod 64) * 4 + ebuf mod 4 ->
     decode_go (enc_from ebuf 2 l) dbuf 6 out = Some (out ++ last :: l)) /\
  (forall ebuf dbuf out last,
     0 <= ebuf -> 0 <= dbuf ->
     last = (dbuf mod 16) * 16 + ebuf mod 16 ->
     decode_go (enc_from ebuf 4 l) dbuf 4 out = Some (out ++ last :: l)).
Proof.
  induction 1 as [|c l Hc Hl (IH0 & IH2 & IH4)].
  - split; [|split].
    + intros. unfold enc_from. simpl. rewrite app_nil_r. reflexivity.
    + intros ebuf dbuf out last He Hd ->. unfold enc_from. cbn [fold_left].
      change (2 =? 0) with false. cbn iota. rewrite app_nil_l, flush_2 by lia.
      destruct (decode_go_6 (ebuf mod 4 * 16) [] dbuf out) as (b' & E & _); [arith|lia|].
      rewrite E. cbn [decode_go]. do 3 f_equal. arith.
    + intros ebuf dbuf out last He Hd ->. unfold enc_from. cbn [fold_left].
      change (4 =? 0) with false. cbn iota. rewrite app_nil_l, flush_4 by lia.
      destruct (decode_go_4 (ebuf mod 16 * 4) [] dbuf out) as (b' & E & _); [arith|lia|].
      rewrite E. cbn [decode_go]. do 3 f_equal. arith.
  - pose proof Hc as Hc'. unfold is_byte in Hc'. split; [|split].
    + intros ebuf dbuf out.
      destruct (encode_step_0 ebuf [] c Hc) as (eb & Ee & Hm & Hp).
      rewrite (enc_from_cons _ _ _ _ _ _ _ Ee). rewrite app_nil_l. cbn [app].
      destruct (decode_go_0 (c / 4) (enc_from eb 2 l) dbuf out) as (db & Ed & Hdm & Hdp);
        [arith|].
      rewrite Ed. apply IH2; [lia|lia|]. rewrite Hdm, Hm. arith.
    + intros ebuf dbuf out last He Hd ->.
      destruct (encode_step_2 ebuf [] c Hc He) as (eb & Ee & Hm & Hp).
      rewrite (enc_from_cons _ _ _ _ _ _ _ Ee). rewrite app_nil_l. cbn [app].
      destruct (decode_go_6 (ebuf mod 4 * 16 + c / 16) (enc_from eb 4 l) dbuf out)
        as (db & Ed & Hdm & Hdp); [arith|lia|].
      rewrite Ed.
      rewrite (IH4 eb db _ c); [|lia|lia|rewrite Hdm, Hm; arith].
      rewrite <- app_assoc. cbn [app]. do 3 f_equal. arith.
    + intros ebuf dbuf out last He Hd ->.
      destruct (encode_step_4 ebuf [] c Hc He) as (eb & Ee & Hp).
      rewrite (enc_from_cons _ _ _ _ _ _ _ Ee). rewrite app_nil_l. cbn [app].
      destruct (decode_go_4 (ebuf mod 16 * 4 + c / 64)
                            (b64_char (c mod 64) :: enc_from eb 0 l) dbuf out)
        as (db & Ed & Hdm & Hdp); [arith|lia|].
      rewrite Ed.
      destruct (decode_go_2 (c mod 64) (enc_from eb 0 l) db
                            (out ++ [dbuf mod 16 * 16 + (ebuf mod 16 * 4 + c / 64) / 4]))
        as (db2 & Ed2 & Hdp2); [arith|lia|].
      rewrite Ed2. rewrite IH0.
      rewrite <- !app_assoc. cbn [app]. do 3 f_equal; [arith|].
      f_equal. rewrite Hdm. arith.
Qed.

(** base64url round trip on byte strings. *)
Lemma b64url_decode_encode l :
  Forall is_byte l -> b64url_decode (b64url_encode l) = Some l.
Proof.
  intros Hl. destruct (decode_enc_from l Hl) as (H0 & _).
  exact (H0 0 0 []).
Qed.

(** What the decoder delivers are bytes. *)
Lemma decode_go_bytes s : forall buf bits out l,
  Forall is_byte out -> decode_go s buf bits out = Some l -> Forall is_byte l.
Proof.
  induction s as [|ch s IH]; intros buf bits out l Hout H; cbn [decode_go] in H.
  - injection H as <-. exact Hout.
  - destruct (b64_T ch <? 0); [discriminate|].
    destruct (8 <=? bits + 6).
    + eapply IH; [|exact H]. apply Forall_app. split; [exact Hout|].
      constructor; [|constructor]. unfold is_byte. rewrite land_255.
      apply Z.mod_pos_bound. lia.
    + eapply IH; eassumption.
Qed.

Lemma b64url_decode_bytes s l : b64url_decode s = Some l -> Forall is_byte l.
Proof. apply decode_go_bytes. constructor. Qed.

(** *** Little-endian fields *)

Lemma size_app a b : size (a ++ b) = size a + size b.
Proof. unfold size. rewrite length_app. lia. Qed.

Lemma size_cons x b : size (x :: b) = 1 + size b.
Proof. unfold size. cbn [length]. lia. Qed.

Lemma size_nonneg b : 0 <= size b.
Proof. unfold size. lia. Qed.

Lemma at_split b p x q off :
  b = p ++ x :: q -> off = size p -> at_ b off = Got x.
Proof.
  intros -> ->. unfold at_, size.
  destruct (Z.ltb_spec (Z.of_nat (length p)) 0); [lia|].
  rewrite Nat2Z.id. rewrite list_lookup_middle by reflexivity. reflexivity.
Qed.

Lemma at_in_range b off :
  0 <= off < size b -> exists x, at_ b off = Got x /\ In x b.
Proof.
  intros Hoff. unfold at_, size in *.
  destruct (Z.ltb_spec off 0); [lia|].
  destruct (b !! Z.to_nat off) as [x|] eqn:E.
  - exists x. split; [reflexivity|].
    apply list_elem_of_In, list_elem_of_lookup. eauto.
  - apply lookup_ge_None in E. lia.
Qed.

Lemma lor_low_shl v x n :
  0 <= n -> 0 <= v < 2 ^ n -> Z.lor v (Z.shiftl x n) = v + x * 2 ^ n.
Proof.
  intros Hn Hv. rewrite Z.lor_comm.
  rewrite ExpansionFacts.lor_shiftl_add by lia. lia.
Qed.

Ltac bytes_arith :=
  rewrite ?land_255;
  change (2 ^ 8) with 256 in *; change (2 ^ 16) with 65536 in *;
  change (2 ^ 24) with 16777216 in *; change (2 ^ 32) with 4294967296 in *;
  change (2 ^ 40) with 1099511627776 in *;
  change (2 ^ 48) with 281474976710656 in *;
  change (2 ^ 56) with 72057594037927936 in *;
  change (2 ^ 64) with 18446744073709551616 in *;
  rewrite ?Z.shiftr_div_pow2 by lia;
  change (2 ^ 8) with 256 in *; change (2 ^ 16) with 65536 in *;
  change (2 ^ 24) with 16777216 in *; change (2 ^ 32) with 4294967296 in *;
  change (2 ^ 40) with 1099511627776 in *;
  change (2 ^ 48) with 281474976710656 in *;
  change (2 ^ 56) with 72057594037927936 in *;
  Z.to_euclidean_division_equations; lia.

Lemma join_u16 x :
  is_u16 x ->
  Z.lor (Z.land x 255) (Z.shiftl (Z.land (Z.shiftr x 8) 255) 8) = x.
Proof.
  unfold is_u16. intros Hx.
  rewrite lor_low_shl by (try lia; bytes_arith). bytes_arith.
Qed.

Lemma join_u32 x :
  is_u32 x ->
  Z.lor (Z.lor (Z.lor (Z.land x 255) (Z.shiftl (Z.land (Z.shiftr x 8) 255) 8))
               (Z.shiftl (Z.land (Z.shiftr x 16) 255) 16))
        (Z.shiftl (Z.land (Z.shiftr x 24) 255) 24) = x.
Proof.
  unfold is_u32. intros Hx.
  rewrite (lor_low_shl _ _ 8) by (try lia; bytes_arith).
  rewrite (lor_low_shl _ _ 16) by (try lia; bytes_arith).
  rewrite (lor_low_shl _ _ 24) by (try lia; bytes_arith).
  bytes_arith.
Qed.

Lemma read_u16_le_split b p x q off :
  b = p ++ push_u16_le x ++ q -> off = size p -> is_u16 x ->
  read_u16_le b off = Got x.
Proof.
  intros Hb Hoff Hx. unfold read_u16_le.
  assert (Hs : size b = size p + 2 + size q).
  { rewrite Hb, !size_app. unfold push_u16_le, size. simpl. lia. }
  pose proof (size_nonneg q).
  destruct (Z.ltb_spec (size b) (off + 2)); [lia|].
  unfold push_u16_le in Hb. cbn [app] in Hb.
  rewrite (at_split b p _ _ off Hb Hoff).
  rewrite (at_split b (p ++ [Z.land x 255]) (Z.land (Z.shiftr x 8) 255) q (off + 1));
    [| rewrite Hb, <- app_assoc; reflexivity
     | rewrite size_app; unfold size at 2; simpl; lia].
  cbn [rd_bind]. rewrite join_u16 by assumption. reflexivity.
Qed.

Lemma read_u32_le_split b p x q off :
  b = p ++ push_u32_le x ++ q -> off = size p -> is_u32 x ->
  read_u32_le b off = Got x.
Proof.
  intros Hb Hoff Hx. unfold read_u32_le.
  assert (Hs : size b = size p + 4 + size q).
  { rewrite Hb, !size_app. unfold push_u32_le, size. simpl. lia. }
  pose proof (size_nonneg q).
  destruct (Z.ltb_spec (size b) (off + 4)); [lia|].
  unfold push_u32_le in Hb. cbn [app] in Hb.
  rewrite (at_split b p _ _ off Hb Hoff).
  rewrite (at_split b (p ++ [Z.land x 255]) (Z.land (Z.shiftr x 8) 255)
                    (Z.land (Z.shiftr x 16) 255 :: Z.land (Z.shiftr x 24) 255 :: q)
                    (off + 1));
    [| rewrite Hb, <- app_assoc; reflexivity
     | rewrite size_app; unfold size at 2; simpl; lia].
  rewrite (at_split b (p ++ [Z.land x 255; Z.land (Z.shiftr x 8) 255])
                    (Z.land (Z.shiftr x 16) 255)
                    (Z.land (Z.shiftr x 24) 255 :: q) (off + 2));
    [| rewrite Hb, <- app_assoc; reflexivity
     | rewrite size_app; unfold size at 2; simpl; lia].
  rewrite (at_split b (p ++ [Z.land x 255; Z.land (Z.shiftr x 8) 255;
                             Z.land (Z.shiftr x 16) 255])
                    (Z.land (Z.shiftr x 24) 255) q (off + 3));
    [| rewrite Hb, <- app_assoc; reflexivity
     | rewrite size_app; unfold size at 2; simpl; lia].
  cbn [rd_bind]. rewrite join_u32 by assumption. reflexivity.
Qed.

(** Resolve the next [at_ b off] of the goal, [pfx] being the bytes
    before [off]. *)
Ltac at_step Hb pfx :=
  erewrite (at_split _ pfx);
  [ | rewrite Hb, <- ?app_assoc; reflexivity
    | rewrite ?size_app; unfold size in *; simpl; lia ].

Lemma join_u64 x :
  is_u64 x ->
  Z.lor (Z.lor (Z.lor (Z.lor (Z.lor (Z.lor (Z.lor (Z.lor 0
    (Z.shiftl (Z.land x 255) 0))
    (Z.shiftl (Z.land (Z.shiftr x 8) 255) 8))
    (Z.shiftl (Z.land (Z.shiftr x 16) 255) 16))
    (Z.shiftl (Z.land (Z.shiftr x 24) 255) 24))
    (Z.shiftl (Z.land (Z.shiftr x 32) 255) 32))
    (Z.shiftl (Z.land (Z.shiftr x 40) 255) 40))
    (Z.shiftl (Z.land (Z.shiftr x 48) 255) 48))
    (Z.shiftl (Z.land (Z.shiftr x 56) 255) 56) = x.
Proof.
  unfold is_u64. intros Hx.
  rewrite Z.lor_0_l, Z.shiftl_0_r.
  rewrite (lor_low_shl _ _ 8) by (try lia; bytes_arith).
  rewrite (lor_low_shl _ _ 16) by (try lia; bytes_arith).
  rewrite (lor_low_shl _ _ 24) by (try lia; bytes_arith).
  rewrite (lor_low_shl _ _ 32) by (try lia; bytes_arith).
  rewrite (lor_low_shl _ _ 40) by (try lia; bytes_arith).
  rewrite (lor_low_shl _ _ 48) by (try lia; bytes_arith).
  rewrite (lor_low_shl _ _ 56) by (try lia; bytes_arith).
  bytes_arith.
Qed.

Lemma read_u64_le_split b p x q off :
  b = p ++ push_u64_le x ++ q -> off = size p -> is_u64 x ->
  read_u64_le b off = Got x.
Proof.
  intros Hb Hoff Hx. unfold read_u64_le.
  assert (Hs : size b = size p + 8 + size q).
  { rewrite Hb, !size_app. unfold push_u64_le, size. simpl. lia. }
  pose proof (size_nonneg q).
  destruct (Z.ltb_spec (size b) (off + 8)); [lia|].
  unfold push_u64_le in Hb. cbn [app] in Hb.
  cbn [read_le_go].
  at_step Hb p. cbn [rd_bind].
  at_step Hb (p ++ [Z.land x 255]). cbn [rd_bind].
  at_step Hb (p ++ [Z.land x 255; Z.land (Z.shiftr x 8) 255]). cbn [rd_bind].
  at_step Hb (p ++ [Z.land x 255; Z.land (Z.shiftr x 8) 255;
                    Z.land (Z.shiftr x 16) 255]). cbn [rd_bind].
  at_step Hb (p ++ [Z.land x 255; Z.land (Z.shiftr x 8) 255;
                    Z.land (Z.shiftr x 16) 255; Z.land (Z.shiftr x 24) 255]).
  cbn [rd_bind].
  at_step Hb (p ++ [Z.land x 255; Z.land (Z.shiftr x 8) 255;
                    Z.land (Z.shiftr x 16) 255; Z.land (Z.shiftr x 24) 255;
                    Z.land (Z.shiftr x 32) 255]).
  cbn [rd_bind].
  at_step Hb (p ++ [Z.land x 255; Z.land (Z.shiftr x 8) 255;
                    Z.land (Z.shiftr x 16) 255; Z.land (Z.shiftr x 24) 255;
                    Z.land (Z.shiftr x 32) 255; Z.land (Z.shiftr x 40) 255]).
  cbn [rd_bind].
  at_step Hb (p ++ [Z.land x 255; Z.land (Z.shiftr x 8) 255;
                    Z.land (Z.shiftr x 16) 255; Z.land (Z.shiftr x 24) 255;
                    Z.land (Z.shiftr x 32) 255; Z.land (Z.shiftr x 40) 255;
                    Z.land (Z.shiftr x 48) 255]).
  cbn [rd_bind].
  change (8 * 0) with 0. change (8 * (0 + 1)) with 8.
  change (8 * (0 + 1 + 1)) with 16. change (8 * (0 + 1 + 1 + 1)) with 24.
  change (8 * (0 + 1 + 1 + 1 + 1)) with 32.
  change (8 * (0 + 1 + 1 + 1 + 1 + 1)) with 40.
  change (8 * (0 + 1 + 1 + 1 + 1 + 1 + 1)) with 48.
  change (8 * (0 + 1 + 1 + 1 + 1 + 1 + 1 + 1)) with 56.
  rewrite join_u64 by assumption. reflexivity.
Qed.

End B64Facts.

Module CursorFacts.
Import Dna B64 Cursor B64Facts.

Lemma size_push_u16 x : size (push_u16_le x) = 2.
Proof. reflexivity. Qed.
Lemma size_push_u32 x : size (push_u32_le x) = 4.
Proof. reflexivity. Qed.
Lemma size_push_u64 x : size (push_u64_le x) = 8.
Proof. reflexivity. Qed.

(** Resolve the next multi-byte read of the goal. *)
Ltac rd_step lem Hb pfx :=
  erewrite (lem _ pfx);
  [ | rewrite Hb, <- ?app_assoc; reflexivity
    | rewrite ?size_app; unfold size in *; simpl; lia
    | assumption ].

Ltac size_false Hs :=
  match goal with
  | |- context [ ?a <? ?b ] =>
      let H := fresh in
      destruct (Z.ltb_spec a b) as [H|H];
      [ exfalso; rewrite Hs in H; unfold size in *; simpl in *; lia | clear H ]
  end.

Lemma parse_lane_bytes pre ln post :
  lane_valid ln ->
  parse_lane (pre ++ lane_bytes ln ++ post) (size pre)
  = Got (ln, size pre + size (lane_bytes ln)).
Proof.
  intros (Hpp & Hmode & Hafter & Hpa & HL & Hli & Hri & Hinact & Hm0 & Hm1).
  remember (pre ++ lane_bytes ln ++ post) as b eqn:Hb.
  destruct ln as [act pp mode after pa cp L li ri]. cbn in *.
  unfold parse_lane.
  destruct act.
  - (* active *)
    specialize (Hinact). clear Hinact.
    destruct (Z.eqb_spec mode 0) as [Em|Em].
    + (* konly *)
      subst mode. destruct (Hm0 eq_refl eq_refl) as (-> & -> & -> & -> & ->).
      unfold lane_bytes in Hb. cbn in Hb. rewrite <- ?app_assoc in Hb. cbn [app] in Hb.
      assert (Hs : size b = size pre + 14 + size post).
      { rewrite Hb. rewrite ?size_app, ?size_cons, ?size_app, ?size_push_u32,
          ?size_cons, ?size_app, ?size_push_u64. lia. }
      pose proof (size_nonneg post). pose proof (size_nonneg pre).
      size_false Hs.
      at_step Hb pre. cbn [rd_bind]. change (negb (b2z true =? 0)) with true.
      cbn [negb]. cbv zeta.
      size_false Hs.
      rd_step read_u32_le_split Hb (pre ++ [b2z true]). cbn [rd_bind].
      at_step Hb (pre ++ [b2z true] ++ push_u32_le pp). cbn [rd_bind].
      change (0 =? 0) with true. cbv iota.
      rd_step read_u64_le_split Hb (pre ++ [b2z true] ++ push_u32_le pp ++ [0]).
      cbn [rd_bind]. do 2 f_equal.
      rewrite ?size_app, ?size_cons, ?size_app, ?size_push_u32,
        ?size_cons, ?size_app, ?size_push_u64.
      unfold lane_bytes. cbn. unfold size. simpl. lia.
    + destruct (Hm1 eq_refl Em) as (-> & Hcp).
      destruct cp.
      * (* expand, mid-parent *)
        unfold lane_bytes in Hb. cbn in Hb.
        destruct (Z.eqb_spec mode 0) as [|_]; [contradiction|].
        rewrite <- ?app_assoc in Hb. cbn [app] in Hb.
        assert (Hs : size b = size pre + 32 + size post).
        { rewrite Hb. rewrite ?size_app, ?size_cons, ?size_app, ?size_push_u32,
            ?size_cons, ?size_app, ?size_push_u64, ?size_cons, ?size_cons,
            ?size_app, ?size_push_u64, ?size_app, ?size_push_u64. lia. }
        pose proof (size_nonneg post). pose proof (size_nonneg pre).
        size_false Hs.
        at_step Hb pre. cbn [rd_bind]. change (negb (b2z true =? 0)) with true.
        cbn [negb]. cbv zeta.
        size_false Hs.
        rd_step read_u32_le_split Hb (pre ++ [b2z true]). cbn [rd_bind].
        at_step Hb (pre ++ [b2z true] ++ push_u32_le pp). cbn [rd_bind].
        destruct (Z.eqb_spec mode 0) as [|_]; [contradiction|].
        rd_step read_u64_le_split Hb (pre ++ [b2z true] ++ push_u32_le pp ++ [mode]).
        cbn [rd_bind].
        size_false Hs.
        at_step Hb (pre ++ [b2z true] ++ push_u32_le pp ++ [mode] ++ push_u64_le pa).
        cbn [rd_bind]. change (negb (b2z true =? 0)) with true. cbv iota.
        size_false Hs.
        at_step Hb (pre ++ [b2z true] ++ push_u32_le pp ++ [mode] ++ push_u64_le pa
                        ++ [b2z true]).
        cbn [rd_bind].
        rd_step read_u64_le_split Hb
                (pre ++ [b2z true] ++ push_u32_le pp ++ [mode] ++ push_u64_le pa
                     ++ [b2z true] ++ [L]).
        cbn [rd_bind].
        rd_step read_u64_le_split Hb
                (pre ++ [b2z true] ++ push_u32_le pp ++ [mode] ++ push_u64_le pa
                     ++ [b2z true] ++ [L] ++ push_u64_le li).
        cbn [rd_bind]. do 2 f_equal.
        unfold lane_bytes. cbn.
        destruct (Z.eqb_spec mode 0) as [|_]; [contradiction|].
        unfold size. simpl. lia.
      * (* expand, between parents *)
        destruct (Hcp eq_refl) as (-> & -> & ->).
        unfold lane_bytes in Hb. cbn in Hb.
        destruct (Z.eqb_spec mode 0) as [|_]; [contradiction|].
        rewrite <- ?app_assoc in Hb. cbn [app] in Hb.
        assert (Hs : size b = size pre + 15 + size post).
        { rewrite Hb. rewrite ?size_app, ?size_cons, ?size_app, ?size_push_u32,
            ?size_cons, ?size_app, ?size_push_u64, ?size_cons. lia. }
        pose proof (size_nonneg post). pose proof (size_nonneg pre).
        size_false Hs.
        at_step Hb pre. cbn [rd_bind]. change (negb (b2z true =? 0)) with true.
        cbn [negb]. cbv zeta.
        size_false Hs.
        rd_step read_u32_le_split Hb (pre ++ [b2z true]). cbn [rd_bind].
        at_step Hb (pre ++ [b2z true] ++ push_u32_le pp). cbn [rd_bind].
        destruct (Z.eqb_spec mode 0) as [|_]; [contradiction|].
        rd_step read_u64_le_split Hb (pre ++ [b2z true] ++ push_u32_le pp ++ [mode]).
        cbn [rd_bind].
        size_false Hs.
        at_step Hb (pre ++ [b2z true] ++ push_u32_le pp ++ [mode] ++ push_u64_le pa).
        cbn [rd_bind]. change (negb (b2z false =? 0)) with false. cbv iota.
        do 2 f_equal.
        unfold lane_bytes. cbn.
        destruct (Z.eqb_spec mode 0) as [|_]; [contradiction|].
        unfold size. simpl. lia.
  - (* inactive *)
    specialize (Hinact eq_refl). injection Hinact as -> -> -> -> -> -> -> ->.
    unfold lane_bytes in Hb. cbn in Hb.
    assert (Hs : size b = size pre + 1 + size post).
    { rewrite Hb. rewrite ?size_app, ?size_cons. lia. }
    pose proof (size_nonneg post). pose proof (size_nonneg pre).
    size_false Hs.
    at_step Hb pre. cbn [rd_bind]. change (negb (b2z false =? 0)) with false.
    cbn [negb]. cbv iota. reflexivity.
Qed.

Lemma parse_lanes_bytes lanes : forall pre post,
  Forall lane_valid lanes ->
  parse_lanes (length lanes) (pre ++ flat_map lane_bytes lanes ++ post) (size pre)
  = Got lanes.
Proof.
  induction lanes as [|ln lanes IH]; intros pre post Hv; [reflexivity|].
  inversion Hv as [|? ? Hln Hrest]; subst.
  cbn [length parse_lanes flat_map]. rewrite <- app_assoc.
  rewrite parse_lane_bytes by assumption. cbn [rd_bind fst snd].
  rewrite <- size_app.
  replace (pre ++ lane_bytes ln ++ flat_map lane_bytes lanes ++ post)
    with ((pre ++ lane_bytes ln) ++ flat_map lane_bytes lanes ++ post)
    by (rewrite <- app_assoc; reflexivity).
  rewrite IH by assumption. reflexivity.
Qed.

(** Serialising a structurally valid cursor and parsing the bytes gives
    the cursor back. *)
Lemma parse_cursor_bytes_roundtrip c :
  cursor_valid c -> parse_cursor_bytes (cursor_bytes c) = Got c.
Proof.
  intros (Hp & Hfl & Hk0 & Hkout & Hd & Hns & Hseed & Hnpp & Hw & Hb & Hlen & Hlanes).
  destruct c as [present flags k0 kout d ns seed npp w bu lanes].
  cbn [c_present c_flags c_k0 c_kout c_d c_numShards c_seed
    c_next_perm_pos c_window c_burst c_lanes] in *. subst present.
  remember (cursor_bytes (mkCursor true flags k0 kout d ns seed npp w bu lanes))
    as b eqn:Hbytes.
  unfold cursor_bytes in Hbytes. cbn [c_flags c_k0 c_kout c_d c_numShards c_seed
    c_next_perm_pos c_window c_burst c_lanes] in Hbytes.
  assert (Hwl : wrap16 (Z.of_nat (length lanes)) = Z.of_nat (length lanes)).
  { unfold wrap16. apply Z.mod_small. lia. }
  rewrite Hwl in Hbytes.
  assert (Hs : size b = 30 + size (flat_map lane_bytes lanes)).
  { rewrite Hbytes. rewrite ?size_app. unfold size. simpl. lia. }
  pose proof (size_nonneg (flat_map lane_bytes lanes)).
  rewrite <- ?app_assoc in Hbytes. cbn [app] in Hbytes.
  unfold parse_cursor_bytes.
  size_false Hs.
  at_step Hbytes (@nil Z). cbn [rd_bind].
  at_step Hbytes [66]. cbn [rd_bind].
  at_step Hbytes [66; 67]. cbn [rd_bind].
  at_step Hbytes [66; 67; 87]. cbn [rd_bind].
  change ((66 =? 66) && (67 =? 67) && (87 =? 87) && (50 =? 50)) with true.
  cbn [negb]. cbv iota.
  at_step Hbytes [66; 67; 87; 50]. cbn [rd_bind].
  at_step Hbytes [66; 67; 87; 50; flags]. cbn [rd_bind].
  at_step Hbytes [66; 67; 87; 50; flags; k0]. cbn [rd_bind].
  at_step Hbytes [66; 67; 87; 50; flags; k0; kout]. cbn [rd_bind].
  rd_step read_u32_le_split Hbytes [66; 67; 87; 50; flags; k0; kout; d]. cbn [rd_bind].
  rd_step read_u64_le_split Hbytes
          ([66; 67; 87; 50; flags; k0; kout; d] ++ push_u32_le ns). cbn [rd_bind].
  rd_step read_u32_le_split Hbytes
          ([66; 67; 87; 50; flags; k0; kout; d] ++ push_u32_le ns ++ push_u64_le seed).
  cbn [rd_bind]. cbv zeta.
  rd_step read_u16_le_split Hbytes
          ([66; 67; 87; 50; flags; k0; kout; d] ++ push_u32_le ns ++ push_u64_le seed
           ++ push_u32_le npp).
  cbn [rd_bind].
  rd_step read_u16_le_split Hbytes
          ([66; 67; 87; 50; flags; k0; kout; d] ++ push_u32_le ns ++ push_u64_le seed
           ++ push_u32_le npp ++ push_u16_le w).
  cbn [rd_bind].
  erewrite (read_u16_le_split _
          ([66; 67; 87; 50; flags; k0; kout; d] ++ push_u32_le ns ++ push_u64_le seed
           ++ push_u32_le npp ++ push_u16_le w ++ push_u16_le bu)
          (Z.of_nat (length lanes)));
    [ | rewrite Hbytes, <- ?app_assoc; reflexivity
      | rewrite ?size_app; unfold size in *; simpl; lia
      | unfold is_u16; lia ].
  cbn [rd_bind]. rewrite Nat2Z.id.
  pose proof (parse_lanes_bytes lanes
          ([66; 67; 87; 50; flags; k0; kout; d] ++ push_u32_le ns ++ push_u64_le seed
           ++ push_u32_le npp ++ push_u16_le w ++ push_u16_le bu
           ++ push_u16_le (Z.of_nat (length lanes))) [] Hlanes) as Hpl.
  rewrite app_nil_r in Hpl.
  replace b with
      (([66; 67; 87; 50; flags; k0; kout; d] ++ push_u32_le ns ++ push_u64_le seed
           ++ push_u32_le npp ++ push_u16_le w ++ push_u16_le bu
           ++ push_u16_le (Z.of_nat (length lanes))) ++ flat_map lane_bytes lanes)
    by (rewrite Hbytes, <- ?app_assoc; reflexivity).
  change (24 + 2 + 2 + 2) with
      (size ([66; 67; 87; 50; flags; k0; kout; d] ++ push_u32_le ns ++ push_u64_le seed
           ++ push_u32_le npp ++ push_u16_le w ++ push_u16_le bu
           ++ push_u16_le (Z.of_nat (length lanes)))).
  rewrite Hpl. reflexivity.
Qed.

(** All bytes written by the serialiser are bytes. *)
Lemma land_255_byte x : is_byte (Z.land x 255).
Proof. unfold is_byte. rewrite land_255. apply Z.mod_pos_bound. lia. Qed.

Lemma u8_byte x : is_u8 x -> is_byte x.
Proof. unfold is_u8, is_byte. change (2 ^ 8) with 256. tauto. Qed.

Lemma push_u16_bytes x : Forall is_byte (push_u16_le x).
Proof. unfold push_u16_le. repeat constructor; apply land_255_byte. Qed.
Lemma push_u32_bytes x : Forall is_byte (push_u32_le x).
Proof. unfold push_u32_le. repeat constructor; apply land_255_byte. Qed.
Lemma push_u64_bytes x : Forall is_byte (push_u64_le x).
Proof. unfold push_u64_le. repeat constructor; apply land_255_byte. Qed.

Lemma b2z_byte b : is_byte (b2z b).
Proof. destruct b; unfold is_byte; simpl; lia. Qed.

Lemma lane_bytes_bytes ln : lane_valid ln -> Forall is_byte (lane_bytes ln).
Proof.
  intros (Hpp & Hmode & Hafter & Hpa & HL & Hli & Hri & _).
  unfold lane_bytes.
  repeat first
    [ apply push_u32_bytes | apply push_u64_bytes | apply b2z_byte
    | apply land_255_byte
    | apply Forall_app; split
    | apply Forall_cons; split
    | apply Forall_nil_2
    | apply u8_byte; assumption
    | match goal with |- Forall _ (if ?c then _ else _) => destruct c end ].
Qed.

Lemma cursor_bytes_bytes c : cursor_valid c -> Forall is_byte (cursor_bytes c).
Proof.
  intros (Hp & Hfl & Hk0 & Hkout & Hd & Hns & Hseed & Hnpp & Hw & Hb & Hlen & Hlanes).
  unfold cursor_bytes.
  repeat first
    [ apply push_u16_bytes | apply push_u32_bytes | apply push_u64_bytes
    | apply land_255_byte
    | apply Forall_app; split
    | apply Forall_cons; split
    | apply Forall_nil_2
    | apply u8_byte; assumption
    | (unfold is_byte; lia) ].
  induction Hlanes as [|ln lanes Hln _ IH]; cbn [flat_map]; [constructor|].
  apply Forall_app. split; [apply lane_bytes_bytes; assumption|].
  apply IH. cbn [length] in Hlen. lia.
Qed.

Lemma parse_make_roundtrip c :
  cursor_valid c -> parse_cursor_bcw2 (make_cursor_bcw2 c) = Got c.
Proof.
  intros Hc. unfold parse_cursor_bcw2, make_cursor_bcw2.
  rewrite b64url_decode_encode by (apply cursor_bytes_bytes; assumption).
  apply parse_cursor_bytes_roundtrip. assumption.
Qed.

(** *** Parsing arbitrary bytes *)

Lemma at_ok b off :
  Forall is_byte b -> 0 <= off < size b ->
  exists x, at_ b off = Got x /\ is_byte x.
Proof.
  intros Hb Hoff. destruct (at_in_range b off Hoff) as (x & E & Hin).
  exists x. split; [exact E|]. rewrite Forall_forall in Hb. apply Hb.
  apply list_elem_of_In. exact Hin.
Qed.

Lemma read_le_go_ok b off n : forall i v,
  Forall is_byte b -> 0 <= off -> 0 <= i ->
  off + i + Z.of_nat n <= size b -> 0 <= v < 2 ^ (8 * i) ->
  exists x, read_le_go n b off i v = Got x /\ 0 <= x < 2 ^ (8 * (i + Z.of_nat n)).
Proof.
  induction n as [|n IH]; intros i v Hb Hoff Hi Hsz Hv.
  - exists v. split; [reflexivity|]. rewrite Z.add_0_r. exact Hv.
  - cbn [read_le_go].
    destruct (at_ok b (off + i) Hb) as (x & E & Hx); [lia|].
    rewrite E. cbn [rd_bind].
    destruct (IH (i + 1) (Z.lor v (Z.shiftl x (8 * i)))) as (y & Ey & Hy);
      try assumption; try lia.
    + rewrite lor_low_shl by lia. unfold is_byte in Hx.
      replace (8 * (i + 1)) with (8 * i + 8) by lia.
      rewrite Z.pow_add_r by lia. change (2 ^ 8) with 256.
      assert (0 < 2 ^ (8 * i)) by (apply Z.pow_pos_nonneg; lia). nia.
    + exists y. split; [exact Ey|].
      replace (i + Z.of_nat (S n)) with (i + 1 + Z.of_nat n) by lia. exact Hy.
Qed.

Lemma read_u64_le_ok b off :
  Forall is_byte b -> 0 <= off ->
  read_u64_le b off = Bad \/ exists x, read_u64_le b off = Got x /\ is_u64 x.
Proof.
  intros Hb Hoff. unfold read_u64_le.
  destruct (Z.ltb_spec (size b) (off + 8)); [left; reflexivity|right].
  destruct (read_le_go_ok b off 8 0 0 Hb Hoff) as (x & E & Hx);
    try (change (2 ^ (8 * 0)) with 1); try lia.
  exists x. split; [exact E|]. exact Hx.
Qed.

Lemma read_u32_le_ok b off :
  Forall is_byte b -> 0 <= off ->
  read_u32_le b off = Bad \/ exists x, read_u32_le b off = Got x /\ is_u32 x.
Proof.
  intros Hb Hoff. unfold read_u32_le.
  destruct (Z.ltb_spec (size b) (off + 4)); [left; reflexivity|right].
  destruct (at_ok b off Hb) as (x0 & E0 & H0); [lia|].
  destruct (at_ok b (off + 1) Hb) as (x1 & E1 & H1); [lia|].
  destruct (at_ok b (off + 2) Hb) as (x2 & E2 & H2); [lia|].
  destruct (at_ok b (off + 3) Hb) as (x3 & E3 & H3); [lia|].
  rewrite E0, E1, E2, E3. cbn [rd_bind]. eexists. split; [reflexivity|].
  unfold is_byte, is_u32 in *.
  rewrite (lor_low_shl _ _ 8) by (change (2 ^ 8) with 256; lia).
  rewrite (lor_low_shl _ _ 16) by (change (2 ^ 8) with 256; change (2 ^ 16) with 65536; lia).
  rewrite (lor_low_shl _ _ 24)
    by (change (2 ^ 8) with 256; change (2 ^ 16) with 65536;
        change (2 ^ 24) with 16777216; lia).
  change (2 ^ 8) with 256; change (2 ^ 16) with 65536;
    change (2 ^ 24) with 16777216; change (2 ^ 32) with 4294967296. lia.
Qed.

Lemma read_u16_le_ok b off :
  Forall is_byte b -> 0 <= off ->
  read_u16_le b off = Bad \/ exists x, read_u16_le b off = Got x /\ is_u16 x.
Proof.
  intros Hb Hoff. unfold read_u16_le.
  destruct (Z.ltb_spec (size b) (off + 2)); [left; reflexivity|right].
  destruct (at_ok b off Hb) as (x0 & E0 & H0); [lia|].
  destruct (at_ok b (off + 1) Hb) as (x1 & E1 & H1); [lia|].
  rewrite E0, E1. cbn [rd_bind]. eexists. split; [reflexivity|].
  unfold is_byte, is_u16 in *.
  rewrite (lor_low_shl _ _ 8) by (change (2 ^ 8) with 256; lia).
  change (2 ^ 8) with 256; change (2 ^ 16) with 65536. lia.
Qed.

Lemma byte_u8 x : is_byte x -> is_u8 x.
Proof. unfold is_u8, is_byte. change (2 ^ 8) with 256. tauto. Qed.

Lemma u64_max : is_u64 UINT64_MAX.
Proof. unfold is_u64, UINT64_MAX. lia. Qed.

Lemma default_lane_valid : lane_valid default_lane.
Proof.
  unfold lane_valid, default_lane, is_u8, is_u32, is_u64, UINT64_MAX. cbn.
  repeat split; try lia; try discriminate.
Qed.

Ltac read_or_bad lem Hb :=
  match goal with
  | |- context [ rd_bind (?f ?b ?off) _ ] =>
      let x := fresh "x" in let E := fresh "E" in let Hx := fresh "Hx" in
      destruct (lem b off Hb) as [E | (x & E & Hx)];
      [ lia | rewrite E; left; reflexivity | rewrite E; cbn [rd_bind] ]
  end.

Ltac at_or_bad Hb :=
  match goal with
  | |- context [ rd_bind (at_ ?b ?off) _ ] =>
      let x := fresh "x" in let E := fresh "E" in let Hx := fresh "Hx" in
      destruct (at_ok b off Hb) as (x & E & Hx);
      [ lia | rewrite E; cbn [rd_bind] ]
  end.

Ltac size_or_bad :=
  match goal with
  | |- context [ if ?a <? ?c then Bad else _ ] =>
      destruct (Z.ltb_spec a c); [left; reflexivity|]
  end.

Ltac valid_auto :=
  unfold lane_valid; cbn;
  repeat match goal with H : is_byte _ |- _ => apply byte_u8 in H end;
  unfold is_u8, is_u16, is_u32, is_u64, UINT64_MAX in *;
  repeat (first [split | match goal with |- _ -> _ => intro end]);
  try lia; try discriminate; try congruence; try contradiction.

Lemma parse_lane_ok b off :
  Forall is_byte b -> 0 <= off ->
  parse_lane b off = Bad \/
  exists ln off', parse_lane b off = Got (ln, off') /\ lane_valid ln /\ off <= off'.
Proof.
  intros Hb Hoff. unfold parse_lane.
  size_or_bad. at_or_bad Hb. cbv zeta.
  destruct (negb (x =? 0)) eqn:Hact; cbn [negb]; cbv iota;
    [| right; eexists _, _; split; [reflexivity|];
       split; [apply default_lane_valid|lia] ].
  size_or_bad.
  read_or_bad read_u32_le_ok Hb.
  at_or_bad Hb.
  destruct (Z.eqb_spec x1 0) as [Em|Em].
  - read_or_bad read_u64_le_ok Hb.
    right. eexists _, _. split; [reflexivity|]. split; [|lia].
    subst x1. valid_auto.
  - read_or_bad read_u64_le_ok Hb.
    size_or_bad. at_or_bad Hb.
    destruct (negb (x3 =? 0)) eqn:Hcp; cbv iota.
    + size_or_bad. at_or_bad Hb.
      read_or_bad read_u64_le_ok Hb.
      read_or_bad read_u64_le_ok Hb.
      right. eexists _, _. split; [reflexivity|]. split; [|lia].
      valid_auto.
    + right. eexists _, _. split; [reflexivity|]. split; [|lia].
      valid_auto.
Qed.

Lemma parse_lanes_ok b n : forall off,
  Forall is_byte b -> 0 <= off ->
  parse_lanes n b off = Bad \/
  exists lanes, parse_lanes n b off = Got lanes /\ Forall lane_valid lanes
                /\ length lanes = n.
Proof.
  induction n as [|n IH]; intros off Hb Hoff.
  - right. exists []. repeat split. constructor.
  - cbn [parse_lanes].
    destruct (parse_lane_ok b off Hb Hoff) as [E | (ln & off' & E & Hln & Hle)];
      rewrite E; cbn [rd_bind fst snd]; [left; reflexivity|].
    destruct (IH off' Hb) as [E' | (lanes & E' & Hl & Hlen)]; [lia| |];
      rewrite E'; cbn [rd_bind]; [left; reflexivity|].
    right. exists (ln :: lanes). split; [reflexivity|].
    split; [constructor; assumption|]. cbn [length]. congruence.
Qed.

(** Parsing any byte string fails or gives a structurally valid cursor;
    it never reads outside the vector. *)
Lemma parse_cursor_bytes_ok b :
  Forall is_byte b ->
  parse_cursor_bytes b = Bad \/
  exists c, parse_cursor_bytes b = Got c /\ cursor_valid c.
Proof.
  intros Hb. unfold parse_cursor_bytes.
  size_or_bad.
  change (4 + 1 + 3 + 4 + 8 + 4 + 2 + 2 + 2) with 30 in *.
  do 4 at_or_bad Hb.
  destruct (negb _); [left; reflexivity|].
  do 4 at_or_bad Hb.
  read_or_bad read_u32_le_ok Hb.
  read_or_bad read_u64_le_ok Hb.
  read_or_bad read_u32_le_ok Hb.
  cbv zeta.
  read_or_bad read_u16_le_ok Hb.
  read_or_bad read_u16_le_ok Hb.
  read_or_bad read_u16_le_ok Hb.
  destruct (parse_lanes_ok b (Z.to_nat x12) (24 + 2 + 2 + 2) Hb)
    as [E' | (lanes & E' & Hl & Hlen)]; [lia| |];
    rewrite E'; cbn [rd_bind]; [left; reflexivity|].
  right. eexists. split; [reflexivity|].
  unfold cursor_valid. cbn.
  repeat match goal with H : is_byte _ |- _ => apply byte_u8 in H end.
  unfold is_u8, is_u16, is_u32, is_u64 in *.
  repeat split; try assumption; try lia.
Qed.

Lemma parse_cursor_bcw2_ok token :
  parse_cursor_bcw2 token = Bad \/
  exists c, parse_cursor_bcw2 token = Got c /\ cursor_valid c.
Proof.
  unfold parse_cursor_bcw2.
  destruct (b64url_decode token) as [b|] eqn:E; [|left; reflexivity].
  apply parse_cursor_bytes_ok. eapply b64url_decode_bytes. exact E.
Qed.

End CursorFacts.

(** C4. The BCW2 codec round-trips: parsing the token of a structurally
    valid cursor (every field in the range of its type, the lane fields
    that the active/mode/child_present flags leave unused at their
    default values) gives the cursor back; for a cursor whose
    in-memory flag [present] is not set, as main builds them, it gives
    the cursor with the flag set.  Parsing any token either fails or
    yields a structurally valid cursor, and never reads outside the
    decoded byte vector. *)
Theorem cursor_codec_roundtrip :
  (forall c, Cursor.cursor_valid c ->
     Cursor.parse_cursor_bcw2 (Cursor.make_cursor_bcw2 c) = B64.Got c) /\
  (forall c, Cursor.cursor_valid (Cursor.mark_present c) ->
     Cursor.parse_cursor_bcw2 (Cursor.make_cursor_bcw2 c)
     = B64.Got (Cursor.mark_present c)) /\
  (forall token,
     Cursor.parse_cursor_bcw2 token = B64.Bad \/
     exists c, Cursor.parse_cursor_bcw2 token = B64.Got c /\ Cursor.cursor_valid c).
Proof.
  split; [|split].
  - apply CursorFacts.parse_make_roundtrip.
  - intros c Hc.
    change (Cursor.make_cursor_bcw2 c)
      with (Cursor.make_cursor_bcw2 (Cursor.mark_present c)).
    apply CursorFacts.parse_make_roundtrip. exact Hc.
  - apply CursorFacts.parse_cursor_bcw2_ok.
Qed.

Lemma cursor_codec_roundtrip_witness :
  let c := Cursor.mkCursor true 1 18 20 2 4 12345 3 2 1
             [Cursor.mkLaneState true 2 1 UINT64_MAX 77 true 1 3 9;
              Cursor.default_lane;
              Cursor.mkLaneState true 0 0 41 UINT64_MAX false 0 0 0] in
  Cursor.cursor_valid c /\
  Cursor.parse_cursor_bcw2 (Cursor.make_cursor_bcw2 c) = B64.Got c.
Proof.
  intros c.
  assert (Hc : Cursor.cursor_valid c).
  { unfold Cursor.cursor_valid, c. cbn.
    unfold is_u8, is_u16, is_u32, is_u64.
    repeat split; try lia.
    constructor; [|constructor; [|constructor; [|constructor]]];
      unfold Cursor.lane_valid, Cursor.default_lane; cbn;
      unfold is_u8, is_u16, is_u32, is_u64, UINT64_MAX;
      repeat (first [split | match goal with |- _ -> _ => intro end]);
      try lia; try discriminate; try congruence. }
  split; [exact Hc|].
  apply (proj1 cursor_codec_roundtrip c Hc).
Defined.


(** * Resume validation *)

Module ResumeFacts.
Import Dna Filters Perm Expansion B64 Cursor Kbit Stream.

Lemma build_perm_seed0 n : build_perm n 0 = build_perm n 1.
Proof. reflexivity. Qed.

Lemma build_perm_remap n seed :
  build_perm n (if seed =? 0 then 1 else seed) = build_perm n seed.
Proof.
  destruct (Z.eqb_spec seed 0) as [->|]; [reflexivity|reflexivity].
Qed.

Section WithRoaring.
Context `{Roaring}.

(** What a successful [setup] of a resumed request has established. *)
Lemma setup_resume args env su :
  cursor_set args = true -> setup args env = inr su ->
  exists c ix,
    parse_cursor_bcw2 (cursor_token args) = Got c /\
    index env = Some ix /\
    cursor_matches args env c /\
    su_numShards su = ix_numShards ix /\
    su_next_perm_pos su = c_next_perm_pos c /\
    su_lane_states su = c_lanes c /\
    su_perm su = (if random_access args
                  then build_perm (wrap32 (ix_numShards ix)) (c_seed c)
                  else identity_perm (ix_numShards ix)) /\
    su_seed su = (if random_access args
                  then (if c_seed c =? 0 then 1 else c_seed c) else 0).
Proof.
  intros Hcs Hsu. unfold setup in Hsu. rewrite Hcs in Hsu.
  repeat match type of Hsu with
  | (match ?x with _ => _ end) = _ =>
      let E := fresh "E" in destruct x eqn:E; try discriminate
  end.
  injection Hsu as <-. cbn.
  repeat match goal with
  | H : negb _ = false |- _ => apply negb_false_iff in H
  | H : _ || _ = false |- _ => apply orb_false_iff in H; destruct H
  | H : (_ =? _) = true |- _ => apply Z.eqb_eq in H
  | H : Bool.eqb _ _ = true |- _ => apply eqb_prop in H
  end.
  eexists _, _. split; [reflexivity|]. split; [reflexivity|].
  repeat split; try reflexivity.
  - eexists. split; [eassumption|]. cbv zeta. repeat split; assumption.
  - destruct (random_access args); [|reflexivity].
    apply build_perm_remap.
  - destruct (random_access args) eqn:Era; [reflexivity|].
    unfold initial_seed. rewrite Era. reflexivity.
Qed.

(** Every way [setup] can fail is a rejection. *)
Lemma setup_inl_rejected args env o : setup args env = inl o -> rejected o.
Proof.
  intros Hsu. unfold setup in Hsu.
  repeat match type of Hsu with
  | (match ?x with _ => _ end) = _ =>
      let E := fresh "E" in destruct x eqn:E;
      try discriminate;
      try (injection Hsu as <-; cbn; first [exact I | discriminate | congruence])
  end.
Qed.

Lemma setup_with_ra_seed args env given seed :
  cursor_set args = true ->
  setup (with_ra_seed given seed args) env = setup args env.
Proof.
  intros Hcs. destruct args. cbn in Hcs. subst.
  unfold setup, with_ra_seed, initial_seed.
  cbn [Stream.substring Stream.substring_set Stream.reverse_complement
       Stream.gcMinPct Stream.gcMaxPct Stream.limit Stream.threads
       Stream.construct_k Stream.cursor_set Stream.cursor_token
       Stream.random_access Stream.ra_seed_set Stream.ra_seed
       Stream.window Stream.burst Stream.refill_chunk].
  destruct random_access0; reflexivity.
Qed.

Lemma emit_phase_with_ra_seed args su given seed need todo : forall done out,
  emit_phase (with_ra_seed given seed args) su need todo done out
  = emit_phase args su need todo done out.
Proof.
  induction todo as [|ln todo IH]; intros done out; cbn [emit_phase]; [reflexivity|].
  destruct (bsize out <? need); [|reflexivity].
  destruct (negb (active ln)); [apply IH|].
  change (burst (with_ra_seed given seed args)) with (burst args).
  destruct (drain su _ need ln out) as [ln' out']. apply IH.
Qed.

Lemma main_loop_with_ra_seed args env su given seed need fuel : forall st,
  main_loop (with_ra_seed given seed args) env su fuel need st
  = main_loop args env su fuel need st.
Proof.
  induction fuel as [|fuel IH]; intros st; cbn [main_loop]; [reflexivity|].
  destruct (bsize (outv st) <? need); [|reflexivity].
  destruct (negb (any_active (lanes st))); [reflexivity|].
  destruct (refill_phase env su (S fuel) (lanes st) [] (next_perm_pos st))
    as [[ls1 npp]|]; [|reflexivity].
  rewrite emit_phase_with_ra_seed.
  destruct (emit_phase args su need ls1 [] (outv st)) as [ls2 out2].
  destruct (_ && _); [reflexivity|]. apply IH.
Qed.

Lemma main_with_ra_seed args env given seed fuel :
  cursor_set args = true ->
  main (with_ra_seed given seed args) env fuel = main args env fuel.
Proof.
  intros Hcs. unfold main. rewrite setup_with_ra_seed by assumption.
  destruct (setup args env) as [o|su]; [reflexivity|].
  unfold run_loop.
  change (initial_lanes (with_ra_seed given seed args) env su)
    with (initial_lanes args env su).
  destruct (initial_lanes args env su) as [ls npp].
  change (limit (with_ra_seed given seed args)) with (limit args).
  rewrite main_loop_with_ra_seed.
  destruct (main_loop args env su fuel _ _) as [st|]; reflexivity.
Qed.

End WithRoaring.
End ResumeFacts.




(** * Facts about the leaf filters *)

Module FilterFacts.
Import Dna Filters.

Lemma passes_gc_percent_spec v k lo hi :
  passes_gc_percent v k lo hi = true -> gc_in_range v k lo hi.
Proof.
  unfold passes_gc_percent, gc_in_range. intros H.
  apply andb_true_iff in H as [H1 H2].
  apply Z.leb_le in H1, H2. lia.
Qed.

Lemma base4_digit_range c : base4_digit c = -1 \/ 0 <= base4_digit c <= 3.
Proof.
  destruct c as [[] [] [] [] [] [] [] []]; cbn; lia.
Qed.

Lemma land_3 x : Z.land x 3 = x mod 4.
Proof. change 3 with (Z.ones 2). rewrite Z.land_ones by lia. reflexivity. Qed.

(** The value [encode_sub] builds holds the digits of the string, the
    first character in the highest position. *)
Lemma encode_sub_digits s : forall acc a r,
  encode_sub s acc = Some r ->
  0 <= a -> 0 <= acc < 4 ^ a -> a + Z.of_nat (length s) <= 32 ->
  0 <= r < 4 ^ (a + Z.of_nat (length s)) /\
  Z.shiftr r (2 * Z.of_nat (length s)) = acc /\
  (forall (j : nat) c, s !! j = Some c ->
     Z.land (Z.shiftr r (2 * (Z.of_nat (length s) - 1 - Z.of_nat j))) 3
     = base4_digit c).
Proof.
  induction s as [|c s IH]; intros acc a r Hr Ha Hacc Hlen.
  - cbn in Hr. injection Hr as <-. cbn [length]. rewrite Z.add_0_r.
    split; [exact Hacc|]. split; [apply Z.shiftr_0_r|].
    intros j c Hj. destruct j; discriminate.
  - cbn [encode_sub] in Hr. cbn [length] in *.
    destruct (base4_digit_range c) as [Hd|Hd].
    { rewrite Hd in Hr. discriminate. }
    destruct (Z.ltb_spec (base4_digit c) 0); [lia|].
    assert (H4a : 4 ^ (a + 1) <= 4 ^ 32) by (apply Z.pow_le_mono_r; lia).
    assert (H4a' : 4 ^ (a + 1) = 4 * 4 ^ a) by (rewrite Z.pow_add_r by lia; lia).
    assert (Hacc' : Z.lor (wrap64 (Z.shiftl acc 2)) (base4_digit c)
                    = acc * 4 + base4_digit c).
    { unfold wrap64. rewrite Z.shiftl_mul_pow2 by lia. change (2 ^ 2) with 4.
      rewrite Z.mod_small
        by (change (4 ^ 32) with (2 ^ 64) in H4a; lia).
      change 4 with (2 ^ 2) at 1. rewrite <- Z.shiftl_mul_pow2 by lia.
      rewrite ExpansionFacts.lor_shiftl_add by (change (2 ^ 2) with 4; lia).
      reflexivity. }
    rewrite Hacc' in Hr.
    destruct (IH _ (a + 1) r Hr) as (Hrange & Hhigh & Hdig); try lia.
    replace (a + Z.of_nat (S (length s))) with (a + 1 + Z.of_nat (length s)) by lia.
    split; [exact Hrange|]. split.
    + replace (2 * Z.of_nat (S (length s))) with (2 * Z.of_nat (length s) + 2) by lia.
      rewrite <- Z.shiftr_shiftr by lia. rewrite Hhigh.
      rewrite Z.shiftr_div_pow2 by lia. change (2 ^ 2) with 4.
      Z.to_euclidean_division_equations; lia.
    + intros j c' Hj. destruct j as [|j].
      * cbn in Hj. injection Hj as <-.
        replace (2 * (Z.of_nat (S (length s)) - 1 - Z.of_nat 0))
          with (2 * Z.of_nat (length s)) by lia.
        rewrite Hhigh, land_3. Z.to_euclidean_division_equations; lia.
      * cbn in Hj.
        replace (2 * (Z.of_nat (S (length s)) - 1 - Z.of_nat (S j)))
          with (2 * (Z.of_nat (length s) - 1 - Z.of_nat j)) by lia.
        apply Hdig. exact Hj.
Qed.

Lemma base_mask_ones m : 1 <= m <= 32 -> base_mask m = Z.ones (2 * m).
Proof.
  intros Hm. unfold base_mask. destruct (Z.leb_spec 32 m).
  - assert (m = 32) by lia. subst. reflexivity.
  - unfold wrap64. rewrite Z.shiftl_1_l, Z.ones_equiv.
    rewrite Z.mod_small; [lia|].
    split; [apply Z.pow_nonneg; lia|]. apply Z.pow_lt_mono_r; lia.
Qed.

(** A pattern that hits fixes the bits of [v] under the mask. *)
Lemma pattern_hit_bits v kout m sb pos :
  1 <= m -> kout <= 32 -> 0 <= pos <= kout - m -> 0 <= sb < 4 ^ m ->
  pattern_hit v (pattern_at kout m sb pos) = true ->
  forall t, 0 <= t < 2 * m ->
    Z.testbit v (2 * (kout - m - pos) + t) = Z.testbit sb t.
Proof.
  intros Hm Hk Hpos Hsb Hhit t Ht.
  unfold pattern_hit, pattern_at in Hhit. cbn [pmask pbits] in Hhit.
  apply Z.eqb_eq in Hhit.
  set (shift := 2 * (kout - m - pos)) in *.
  assert (Hshift : 0 <= shift) by (unfold shift; lia).
  assert (Hfit : shift + 2 * m <= 64) by (unfold shift; lia).
  rewrite base_mask_ones in Hhit by lia.
  assert (Hmask : wrap64 (Z.shiftl (Z.ones (2 * m)) shift)
                  = Z.shiftl (Z.ones (2 * m)) shift).
  { unfold wrap64. apply Z.mod_small.
    rewrite Z.shiftl_mul_pow2, Z.ones_equiv by lia.
    assert (0 < 2 ^ (2 * m)) by (apply Z.pow_pos_nonneg; lia).
    assert (0 < 2 ^ shift) by (apply Z.pow_pos_nonneg; lia).
    assert (2 ^ (2 * m) * 2 ^ shift <= 2 ^ 64).
    { rewrite <- Z.pow_add_r by lia. apply Z.pow_le_mono_r; lia. }
    nia. }
  assert (Hbits : wrap64 (Z.shiftl sb shift) = Z.shiftl sb shift).
  { unfold wrap64. apply Z.mod_small.
    rewrite Z.shiftl_mul_pow2 by lia.
    rewrite ExpansionFacts.pow4_pow2 in Hsb by lia.
    assert (0 < 2 ^ shift) by (apply Z.pow_pos_nonneg; lia).
    assert (2 ^ (2 * m) * 2 ^ shift <= 2 ^ 64).
    { rewrite <- Z.pow_add_r by lia. apply Z.pow_le_mono_r; lia. }
    nia. }
  rewrite Hmask, Hbits in Hhit.
  assert (Hb : Z.testbit (Z.land (Z.lxor v (Z.shiftl sb shift))
                                 (Z.shiftl (Z.ones (2 * m)) shift)) (shift + t)
               = false) by (rewrite Hhit; apply Z.bits_0).
  rewrite Z.land_spec, Z.lxor_spec in Hb.
  rewrite !Z.shiftl_spec in Hb by lia.
  replace (shift + t - shift) with t in Hb by lia.
  rewrite Z.ones_spec_low in Hb by lia.
  rewrite andb_true_r in Hb. apply xorb_eq in Hb. exact Hb.
Qed.

(** A hit of the pattern for offset [pos] means that the string occurs
    at [pos]. *)
Lemma pattern_hit_occurs v kout sub sb pos :
  let m := Z.of_nat (length sub) in
  1 <= m -> kout <= 32 -> 0 <= pos <= kout - m ->
  encode_sub sub 0 = Some sb ->
  pattern_hit v (pattern_at kout m sb pos) = true ->
  occurs_at v kout sub pos.
Proof.
  intros m Hm Hk Hpos Henc Hhit.
  destruct (encode_sub_digits sub 0 0 sb Henc) as (Hsb & _ & Hdig);
    [lia|simpl; lia|fold m; lia|].
  fold m in Hsb, Hdig. rewrite Z.add_0_l in Hsb.
  pose proof (pattern_hit_bits v kout m sb pos Hm Hk Hpos Hsb Hhit) as Hbits.
  split; [fold m; exact Hpos|].
  intros j Hj. destruct (lookup_lt_is_Some_2 sub j Hj) as [c Hc].
  unfold str in *. rewrite Hc.
  cbn [fmap option_fmap option_map]. f_equal.
  rewrite <- (Hdig j c Hc). unfold digit_at.
  apply Z.bits_inj'. intros i Hi.
  rewrite !Z.land_spec, !Z.shiftr_spec by lia.
  destruct (Z.ltb_spec i 2) as [Hi2|Hi2].
  - f_equal.
    replace (i + 2 * (kout - 1 - (pos + Z.of_nat j)))
      with (2 * (kout - m - pos) + (i + 2 * (m - 1 - Z.of_nat j))) by lia.
    apply Hbits. lia.
  - change 3 with (Z.ones 2). rewrite Z.ones_spec_high by lia.
    rewrite !andb_false_r. reflexivity.
Qed.

(** Every pattern that [append_patterns_for] adds stands for an offset
    of the string. *)
Lemma append_patterns_for_hit kout sub pats0 pats v :
  kout <= 32 ->
  append_patterns_for kout sub pats0 = inr pats ->
  contains_sub v pats = true ->
  contains_sub v pats0 = true \/ occurs v kout sub.
Proof.
  intros Hk Happ Hhit. unfold append_patterns_for in Happ.
  destruct (Z.eqb_spec (Z.of_nat (length sub)) 0) as [E|E].
  { injection Happ as <-. left. exact Hhit. }
  destruct (Z.ltb_spec kout (Z.of_nat (length sub))); [discriminate|].
  destruct (encode_sub sub 0) as [sb|] eqn:Henc; [|discriminate].
  injection Happ as <-.
  unfold contains_sub in *. rewrite existsb_app in Hhit.
  apply orb_true_iff in Hhit as [Hhit|Hhit]; [left; exact Hhit|right].
  apply existsb_exists in Hhit as (p & Hp & Hhit).
  apply in_map_iff in Hp as (pos & <- & Hpos).
  apply list_elem_of_In, elem_of_seqZ in Hpos.
  exists pos. eapply pattern_hit_occurs; eauto; lia.
Qed.

Lemma build_patterns_hit kout sub set rc pats v :
  kout <= 32 ->
  build_patterns kout sub set rc = inr pats ->
  contains_sub v pats = true ->
  occurs v kout sub \/ (rc = true /\ occurs v kout (revcomp_string sub)).
Proof.
  intros Hk Hb Hhit. unfold build_patterns in Hb.
  destruct set; [|injection Hb as <-; discriminate].
  destruct (append_patterns_for kout sub []) as [e|pats1] eqn:H1; [discriminate|].
  destruct rc.
  - destruct (str_eqb (revcomp_string sub) sub).
    + injection Hb as <-.
      destruct (append_patterns_for_hit _ _ _ _ v Hk H1 Hhit) as [F|O];
        [discriminate|left; exact O].
    + destruct (append_patterns_for_hit _ _ _ _ v Hk Hb Hhit) as [Hhit1|O];
        [|right; split; [reflexivity|exact O]].
      destruct (append_patterns_for_hit _ _ _ _ v Hk H1 Hhit1) as [F|O];
        [discriminate|left; exact O].
  - injection Hb as <-.
    destruct (append_patterns_for_hit _ _ _ _ v Hk H1 Hhit) as [F|O];
      [discriminate|left; exact O].
Qed.

End FilterFacts.


(** * Invariants of the streaming engine *)

Module EngineFacts.
Import Dna Filters Perm Expansion B64 Cursor Kbit Stream.

Section WithRoaring.
Context `{Roaring}.

(** What [setup] has put into the configuration. *)
Lemma setup_config args env su :
  setup args env = inr su ->
  cf_gcMin (su_cf su) = gcMinPct args /\
  cf_gcMax (su_cf su) = gcMaxPct args /\
  cf_substring_set (su_cf su) = substring_set args /\
  1 <= k0 (su_cf su) <= 32 /\ kout (su_cf su) <= 32 /\
  build_patterns (kout (su_cf su)) (substring args) (substring_set args)
                 (reverse_complement args) = inr (patterns (su_cf su)).
Proof.
  intros Hsu. unfold setup in Hsu.
  repeat match type of Hsu with
  | (match ?x with _ => _ end) = _ =>
      let E := fresh "E" in destruct x eqn:E; try discriminate
  end;
  injection Hsu as <-; cbn;
  repeat match goal with
  | H : _ || _ = false |- _ => apply orb_false_iff in H; destruct H
  | H : (_ <=? _) = false |- _ => apply Z.leb_gt in H
  | H : (_ <? _) = false |- _ => apply Z.ltb_ge in H
  end;
  repeat split; try reflexivity; try lia; try assumption.
Qed.

Section Refill.
Context (cf : Config) (env : Env).

Lemma scan_konly_good b end_ n : forall v bf,
  loaded_bitmap env b -> (kout cf =? k0 cf) = true ->
  Forall (good_key cf env) bf ->
  Forall (good_key cf env) (snd (scan_konly n cf b end_ v bf)).
Proof.
  intros v bf (sidx & h & Hload) Hk. revert v bf.
  induction n as [|n IH]; intros v bf Hbf; cbn [scan_konly]; [exact Hbf|].
  destruct (_ && _); [|exact Hbf].
  destruct (bitmap_contains b v) eqn:Hc; [apply IH; exact Hbf|].
  destruct (leaf cf v) eqn:Hl; cbn [negb]; [|apply IH; exact Hbf].
  apply IH. apply Forall_app. split; [exact Hbf|].
  constructor; [|constructor].
  split; [exact Hl|]. rewrite Hk. exists sidx, h, b. split; assumption.
Qed.

Lemma skip_present_stop b end_ n : forall p,
  (Z.to_nat (end_ - p) <= n)%nat ->
  end_ <= skip_present n b end_ p
  \/ bitmap_contains b (skip_present n b end_ p) = false.
Proof.
  induction n as [|n IH]; intros p Hn; cbn [skip_present].
  - left. lia.
  - destruct (Z.ltb_spec p end_) as [Hlt|Hge]; cbn [andb]; [|left; lia].
    destruct (bitmap_contains b p) eqn:Hc; [|right; exact Hc].
    apply IH. lia.
Qed.

Lemma expand_parent_good parentB fuel : forall s bf r,
  (kout cf =? k0 cf) = false -> absent_key env parentB ->
  Forall (good_key cf env) bf ->
  expand_parent fuel cf parentB s bf = Some r ->
  Forall (good_key cf env) (snd r).
Proof.
  intros s bf r Hk Habs. revert s bf r.
  induction fuel as [|fuel IH]; intros s bf r Hbf Hr; cbn [expand_parent] in Hr.
  - destruct (_ <? _); [discriminate|]. injection Hr as <-. exact Hbf.
  - destruct (_ <? _); [|injection Hr as <-; exact Hbf].
    assert (Hbf' : Forall (good_key cf env)
                     (if leaf cf (make_value parentB (k0 cf) (kout cf) (eL s) (eleft s) (eright s))
                      then bf ++ [make_value parentB (k0 cf) (kout cf) (eL s) (eleft s) (eright s)]
                      else bf)).
    { destruct (leaf cf _) eqn:Hl; [|exact Hbf].
      apply Forall_app. split; [exact Hbf|]. constructor; [|constructor].
      split; [exact Hl|]. rewrite Hk.
      exists parentB, (eL s), (eleft s), (eright s). split; [reflexivity|exact Habs]. }
    destruct (advance_state _ s) as [[|] s'].
    + eapply IH; eassumption.
    + injection Hr as <-. exact Hbf'.
Qed.

Lemma refill_expand_good b start end_ fuel : forall ln ln',
  loaded_bitmap env b -> (kout cf =? k0 cf) = false ->
  Forall (good_key cf env) (buf ln) ->
  refill_expand fuel cf b start end_ ln = Some ln' ->
  Forall (good_key cf env) (buf ln') /\ bm ln' = bm ln.
Proof.
  intros ln ln' Hload Hk. revert ln ln'.
  induction fuel as [|fuel IH]; intros ln ln' Hbf Hr; cbn [refill_expand] in Hr.
  - destruct (_ <? _); [discriminate|]. injection Hr as <-. split; [exact Hbf|reflexivity].
  - destruct (_ <? _); [|injection Hr as <-; split; [exact Hbf|reflexivity]].
    set (p0 := if parent_anchor ln =? UINT64_MAX then start
               else if child_present ln then parent_anchor ln
                    else wrap64 (parent_anchor ln + 1)) in *.
    set (p := skip_present (Z.to_nat (end_ - p0)) b end_ p0) in *.
    destruct (Z.leb_spec end_ p) as [Hend|Hend].
    { injection Hr as <-. split; [exact Hbf|reflexivity]. }
    assert (Habs : absent_key env p).
    { destruct (skip_present_stop b end_ (Z.to_nat (end_ - p0)) p0) as [Hs|Hs];
        [lia|fold p in Hs; lia|].
      destruct Hload as (sidx & h & Hload). exists sidx, h, b. split; assumption. }
    destruct (expand_parent (S fuel) cf p _ (buf ln)) as [[[e s'] bf']|] eqn:He;
      [|discriminate].
    pose proof (expand_parent_good p _ _ _ _ Hk Habs Hbf He) as Hbf'. cbn [snd] in Hbf'.
    destruct (_ <=? _).
    + injection Hr as <-. split; [exact Hbf'|reflexivity].
    + apply IH in Hr; [|exact Hbf']. exact Hr.
Qed.

Lemma refill_lane_ok fuel ln ln' :
  lane_ok cf env ln -> refill_lane fuel cf ln = Some ln' -> lane_ok cf env ln'.
Proof.
  intros [Hbm Hbuf] Hr. unfold refill_lane in Hr. cbn [clear_buf active bm shardIdx
    after buf] in Hr.
  destruct (active ln); [|injection Hr as <-; split; [exact Hbm|constructor]].
  destruct (bm ln) as [b|] eqn:Hb; [|injection Hr as <-; split; [|constructor]];
    [|cbn; rewrite Hb; exact Hbm].
  pose proof (Hbm b eq_refl) as Hload.
  destruct (shard_starts cf !! _) as [start|];
    [|injection Hr as <-; split; [cbn; rewrite Hb; exact Hbm|constructor]].
  destruct (shard_ends cf !! _) as [end_|];
    [|injection Hr as <-; split; [cbn; rewrite Hb; exact Hbm|constructor]].
  destruct (kout cf =? k0 cf) eqn:Hk.
  - match type of Hr with
    | context [scan_konly ?n cf b end_ ?v []] =>
        pose proof (scan_konly_good b end_ n v [] Hload Hk (Forall_nil_2 _)) as Hg;
        destruct (scan_konly n cf b end_ v []) as [v' bf]
    end.
    cbn [snd] in Hg.
    destruct (v' =? end_); injection Hr as <-; (split; [cbn; rewrite Hb; exact Hbm|exact Hg]).
  - apply refill_expand_good in Hr; [|exact Hload|exact Hk|constructor].
    destruct Hr as [Hg Hbm']. split; [|exact Hg].
    rewrite Hbm'. cbn. rewrite Hb. exact Hbm.
Qed.

End Refill.

Section Driver.
Context (args : Args) (env : Env) (su : Setup).

Local Abbreviation ok := (lane_ok (su_cf su) env).
Local Abbreviation good := (good_key (su_cf su) env).

Lemma default_runtime_ok : ok default_runtime.
Proof. split; [intros b Hb; discriminate|constructor]. Qed.

Lemma free_all_ok ln : ok (free_all ln).
Proof. split; [intros b Hb; discriminate|constructor]. Qed.

Lemma load_lane_from_state_ok st ln : ok (load_lane_from_state env su st ln).
Proof.
  unfold load_lane_from_state.
  destruct (negb (ls_active st)); [split; [intros b Hb; discriminate|constructor]|].
  destruct (_ <=? _); [split; [intros b Hb; discriminate|constructor]|].
  destruct (load_kbit_portable _) as [e|[h b]] eqn:Hload;
    [split; [intros b Hb; discriminate|constructor]|].
  destruct (_ =? _); (split; [|constructor]);
    intros b' Hb'; injection Hb' as <-; eexists _, _; exact Hload.
Qed.

Lemma try_fill_empty_lane_ok ln npp :
  ok ln -> ok (fst (try_fill_empty_lane env su ln npp)).
Proof.
  intros Hln. unfold try_fill_empty_lane.
  destruct (active ln); [exact Hln|].
  destruct (_ <? _); [|exact Hln].
  destruct (load_kbit_portable _) as [e|[h b]] eqn:Hload; [exact Hln|].
  destruct (_ =? _); cbn [fst]; (split; [|constructor]);
    intros b' Hb'; injection Hb' as <-; eexists _, _; exact Hload.
Qed.

Lemma initial_lanes_ok : Forall ok (fst (initial_lanes args env su)).
Proof.
  unfold initial_lanes.
  set (loaded := map _ (seq 0 _)).
  assert (Hl : Forall ok loaded).
  { apply Forall_forall. intros ln Hln. apply list_elem_of_In, in_map_iff in Hln.
    destruct Hln as (i & <- & _).
    destruct (su_lane_states su !! i) as [st|]; [|apply default_runtime_ok].
    destruct (ls_active st); [apply load_lane_from_state_ok|apply default_runtime_ok]. }
  clearbody loaded.
  assert (Hgen : forall done npp, Forall ok done ->
            Forall ok (fst (fold_left
              (fun '(done, npp) ln =>
                 let '(ln', npp') := try_fill_empty_lane env su ln npp in
                 (done ++ [ln'], npp')) loaded (done, npp)))).
  { induction Hl as [|ln loaded Hln _ IH]; intros done npp Hdone; [exact Hdone|].
    cbn [fold_left].
    pose proof (try_fill_empty_lane_ok ln npp Hln) as Hln'.
    destruct (try_fill_empty_lane env su ln npp) as [ln' npp'].
    apply IH. apply Forall_app. split; [exact Hdone|]. constructor; [exact Hln'|constructor]. }
  apply Hgen. constructor.
Qed.

Lemma refill_one_ok fuel ln npp r :
  ok ln -> refill_one env su fuel ln npp = Some r -> ok (fst r).
Proof.
  intros Hln Hr. unfold refill_one in Hr.
  destruct (negb (active ln)); [injection Hr as <-; exact Hln|].
  destruct (_ <? _)%nat; [injection Hr as <-; exact Hln|].
  destruct (refill_lane fuel _ ln) as [ln'|] eqn:Hrefill; [|discriminate].
  pose proof (refill_lane_ok _ _ _ _ _ Hln Hrefill) as Hln'.
  destruct (negb (active ln')); injection Hr as <-; [|exact Hln'].
  apply try_fill_empty_lane_ok, free_all_ok.
Qed.

Lemma refill_phase_ok fuel todo : forall done npp r,
  Forall ok todo -> Forall ok done ->
  refill_phase env su fuel todo done npp = Some r -> Forall ok (fst r).
Proof.
  induction todo as [|ln todo IH]; intros done npp r Htodo Hdone Hr; cbn [refill_phase] in Hr.
  - injection Hr as <-. exact Hdone.
  - inversion Htodo as [|? ? Hln Htodo']; subst.
    destruct (refill_one env su fuel ln npp) as [[ln' npp']|] eqn:Hone; [|discriminate].
    pose proof (refill_one_ok _ _ _ _ Hln Hone) as Hln'. cbn [fst] in Hln'.
    eapply IH; [exact Htodo'| |exact Hr].
    apply Forall_app. split; [exact Hdone|]. constructor; [exact Hln'|constructor].
Qed.

Lemma drain_ok n need : forall ln out,
  ok ln -> Forall good out ->
  ok (fst (drain su n need ln out)) /\ Forall good (snd (drain su n need ln out)).
Proof.
  induction n as [|n IH]; intros ln out Hln Hout; cbn [drain]; [split; assumption|].
  destruct (_ <? _); [|split; assumption].
  destruct (buf ln !! buf_pos ln) as [v|] eqn:Hv; [|split; assumption].
  apply IH.
  - destruct Hln as [Hbm Hbuf]. split; [exact Hbm|exact Hbuf].
  - apply Forall_app. split; [exact Hout|]. constructor; [|constructor].
    destruct Hln as [_ Hbuf]. rewrite Forall_forall in Hbuf. apply Hbuf.
    apply list_elem_of_lookup. eauto.
Qed.

Lemma emit_phase_ok need todo : forall done out,
  Forall ok todo -> Forall ok done -> Forall good out ->
  Forall ok (fst (emit_phase args su need todo done out))
  /\ Forall good (snd (emit_phase args su need todo done out)).
Proof.
  induction todo as [|ln todo IH]; intros done out Htodo Hdone Hout; cbn [emit_phase].
  - split; assumption.
  - inversion Htodo as [|? ? Hln Htodo']; subst.
    destruct (_ <? _).
    + destruct (negb (active ln)).
      * apply IH; try assumption. apply Forall_app. split; [exact Hdone|].
        constructor; [exact Hln|constructor].
      * pose proof (drain_ok (Z.to_nat (burst args)) need ln out Hln Hout) as [H1 H2].
        destruct (drain su _ need ln out) as [ln' out']. cbn [fst snd] in *.
        apply IH; try assumption. apply Forall_app. split; [exact Hdone|].
        constructor; [exact H1|constructor].
    + cbn [fst snd]. split; [|exact Hout].
      apply Forall_app. split; [exact Hdone|exact Htodo].
Qed.

Lemma main_loop_ok fuel need : forall st st',
  Forall ok (lanes st) -> Forall good (outv st) ->
  main_loop args env su fuel need st = Some st' ->
  Forall ok (lanes st') /\ Forall good (outv st').
Proof.
  induction fuel as [|fuel IH]; intros st st' Hl Ho Hr; cbn [main_loop] in Hr;
    [discriminate|].
  destruct (_ <? _); [|injection Hr as <-; split; assumption].
  destruct (negb (any_active (lanes st))); [injection Hr as <-; split; assumption|].
  destruct (refill_phase env su (S fuel) (lanes st) [] (next_perm_pos st))
    as [[ls1 npp]|] eqn:Hrp; [|discriminate].
  pose proof (refill_phase_ok _ _ _ _ _ Hl (Forall_nil_2 _) Hrp) as Hls1.
  cbn [fst] in Hls1.
  pose proof (emit_phase_ok need ls1 [] (outv st) Hls1 (Forall_nil_2 _) Ho) as [H1 H2].
  destruct (emit_phase args su need ls1 [] (outv st)) as [ls2 out2].
  cbn [fst snd] in *.
  destruct (_ && _).
  - injection Hr as <-. split; assumption.
  - eapply IH; [| |exact Hr]; assumption.
Qed.

(** Every key on a printed page went through the leaf test of a refill
    against the bitmap of one of the shards. *)
Lemma printed_keys_good fuel st :
  run_loop args env su fuel = Some st ->
  Forall good (out_vals (finish args su st)).
Proof.
  intros Hr. unfold run_loop in Hr.
  pose proof initial_lanes_ok as Hinit.
  destruct (initial_lanes args env su) as [ls npp]. cbn [fst] in Hinit.
  apply main_loop_ok in Hr as [_ Hout]; [|exact Hinit|constructor].
  unfold finish. cbn [out_vals].
  destruct (_ <? _); [apply Forall_take|]; exact Hout.
Qed.

End Driver.
End WithRoaring.
End EngineFacts.


(** * The leaf filters on the printed keys *)

Module LeafFacts.
Import Dna Filters Stream.

Section WithRoaring.
Context `{Roaring}.

Lemma leaf_true_spec args env su v :
  setup args env = inr su ->
  leaf (su_cf su) v = true -> leaf_spec args (kout (su_cf su)) v.
Proof.
  intros Hsu Hleaf.
  destruct (EngineFacts.setup_config args env su Hsu)
    as (Hmin & Hmax & Hset & Hk0 & Hkout & Hpats).
  unfold leaf, leaf_ok in Hleaf. rewrite Hmin, Hmax, Hset in Hleaf.
  destruct (passes_gc_percent _ _ _ _) eqn:Hgc; cbn [negb] in Hleaf; [|discriminate].
  split; [apply FilterFacts.passes_gc_percent_spec; exact Hgc|].
  intros Hs. rewrite Hs in Hleaf. cbn [andb] in Hleaf.
  destruct (contains_sub v _) eqn:Hc; cbn [negb] in Hleaf; [|discriminate].
  eapply FilterFacts.build_patterns_hit; eassumption.
Qed.

End WithRoaring.
End LeafFacts.





(** * The mode-0 scan position *)

Module ScanFacts.
Import Dna Filters Stream.

Section WithRoaring.
Context `{Roaring}.

(** The scan loop keeps the eligible keys of the range it walks. *)
Lemma scan_konly_spec cf b end_ n : forall v bf v' bf',
  v <= end_ ->
  scan_konly n cf b end_ v bf = (v', bf') ->
  v <= v' <= end_ /\
  bf' = bf ++ List.filter (eligible cf b) (seqZ v (v' - v)) /\
  ((Z.to_nat (end_ - v) <= n)%nat ->
   v' = end_ \/ refill_target cf <= bsize bf').
Proof.
  induction n as [|n IH]; intros v bf v' bf' Hv Hs; cbn [scan_konly] in Hs.
  - injection Hs as <- <-. rewrite Z.sub_diag, seqZ_nil by lia. cbn.
    rewrite app_nil_r. split; [lia|]. split; [reflexivity|]. intros ?. left. lia.
  - destruct (Z.ltb_spec v end_) as [Hlt|Hge]; cbn [andb] in Hs.
    2:{ injection Hs as <- <-. rewrite Z.sub_diag, seqZ_nil by lia. cbn.
        rewrite app_nil_r. split; [lia|]. split; [reflexivity|]. intros ?. left. lia. }
    destruct (Z.ltb_spec (bsize bf) (refill_target cf)) as [Hsz|Hsz].
    2:{ injection Hs as <- <-. rewrite Z.sub_diag, seqZ_nil by lia. cbn.
        rewrite app_nil_r. split; [lia|]. split; [reflexivity|]. intros ?. right. lia. }
    assert (Hcons : forall v'', v + 1 <= v'' ->
              seqZ v (v'' - v) = v :: seqZ (v + 1) (v'' - (v + 1))).
    { intros v'' Hv''. rewrite seqZ_cons by lia. f_equal. f_equal; lia. }
    destruct (bitmap_contains b v) eqn:Hc.
    + apply IH in Hs as (Hr & Hbf & Hdone); [|lia].
      split; [lia|]. split.
      * rewrite Hcons by lia. cbn [List.filter]. unfold eligible at 1.
        rewrite Hc. cbn. exact Hbf.
      * intros Hn. apply Hdone. lia.
    + destruct (leaf cf v) eqn:Hl; cbn [negb] in Hs.
      * apply IH in Hs as (Hr & Hbf & Hdone); [|lia].
        split; [lia|]. split.
        -- rewrite Hcons by lia. cbn [List.filter]. unfold eligible at 1.
           rewrite Hc, Hl. cbn. rewrite Hbf, <- app_assoc. reflexivity.
        -- intros Hn. apply Hdone. lia.
      * apply IH in Hs as (Hr & Hbf & Hdone); [|lia].
        split; [lia|]. split.
        -- rewrite Hcons by lia. cbn [List.filter]. unfold eligible at 1.
           rewrite Hc, Hl. cbn. exact Hbf.
        -- intros Hn. apply Hdone. lia.
Qed.

(** In the eligible keys of a range, what follows the key [a] is what a
    scan from [a + 1] to the end of the range finds. *)
Lemma filter_seqZ_drop (P : Z -> bool) n : forall v0 i a,
  List.filter P (seqZ v0 (Z.of_nat n)) !! i = Some a ->
  v0 <= a < v0 + Z.of_nat n /\
  drop (S i) (List.filter P (seqZ v0 (Z.of_nat n)))
  = List.filter P (seqZ (a + 1) (v0 + Z.of_nat n - (a + 1))).
Proof.
  induction n as [|n IH]; intros v0 i a Hi.
  - rewrite seqZ_nil in Hi by lia. cbn in Hi. destruct i; discriminate.
  - rewrite seqZ_cons in * by lia.
    replace (Z.pred (Z.of_nat (S n))) with (Z.of_nat n) in * by lia.
    replace (Z.succ v0) with (v0 + 1) in * by lia.
    cbn [List.filter] in *. destruct (P v0).
    + destruct i as [|i].
      * cbn in Hi. injection Hi as <-. split; [lia|]. cbn [drop].
        rewrite drop_0. f_equal. f_equal. lia.
      * cbn in Hi. apply IH in Hi as [Hr Hd]. split; [lia|].
        cbn [drop]. rewrite Hd. f_equal. f_equal. lia.
    + apply IH in Hi as [Hr Hd]. split; [lia|]. rewrite Hd. f_equal. f_equal. lia.
Qed.

(** The drain loop hands over a prefix of what is left in the buffer
    and, in mode 0, leaves the last key handed over in [after]. *)
Lemma drain_spec su n need : forall ln out ln' out',
  (kout (su_cf su) =? k0 (su_cf su)) = true ->
  drain su n need ln out = (ln', out') ->
  buf ln' = buf ln /\ (buf_pos ln <= buf_pos ln')%nat /\
  active ln' = active ln /\ perm_pos ln' = perm_pos ln /\
  out' = out ++ take (buf_pos ln' - buf_pos ln) (drop (buf_pos ln) (buf ln)) /\
  (buf_pos ln' = buf_pos ln -> after ln' = after ln) /\
  ((buf_pos ln < buf_pos ln')%nat ->
   buf ln !! (buf_pos ln' - 1)%nat = Some (after ln')).
Proof.
  intros ln out ln' out' Hk. revert ln out ln' out'.
  induction n as [|n IH]; intros ln out ln' out' Hd; cbn [drain] in Hd.
  - injection Hd as <- <-. rewrite Nat.sub_diag. cbn. rewrite app_nil_r.
    repeat split; try reflexivity; try lia.
  - destruct (_ <? _).
    2:{ injection Hd as <- <-. rewrite Nat.sub_diag. cbn [take]. rewrite app_nil_r.
        repeat split; try reflexivity; try lia. }
    destruct (buf ln !! buf_pos ln) as [v|] eqn:Hv.
    2:{ injection Hd as <- <-. rewrite Nat.sub_diag. cbn [take]. rewrite app_nil_r.
        repeat split; try reflexivity; try lia. }
    unfold cfg in Hd. rewrite Hk in Hd.
    apply IH in Hd as (Hbuf & Hpos & Hact & Hpp & Hout & Hsame & Hlast).
    cbn [buf buf_pos active perm_pos after] in *.
    split; [exact Hbuf|]. split; [lia|]. split; [exact Hact|]. split; [exact Hpp|].
    split; [|split; [lia|]].
    + rewrite Hout, <- app_assoc. f_equal.
      replace (buf_pos ln' - buf_pos ln)%nat with (S (buf_pos ln' - S (buf_pos ln)))
        by lia.
      rewrite (drop_S _ _ _ Hv). reflexivity.
    + intros _. destruct (Nat.eq_dec (buf_pos ln') (S (buf_pos ln))) as [E|E].
      * rewrite E. replace (S (buf_pos ln) - 1)%nat with (buf_pos ln) by lia.
        rewrite Hv. f_equal. symmetry. apply Hsame. exact E.
      * apply Hlast. lia.
Qed.

End WithRoaring.
End ScanFacts.





(** * Pagination on concrete databases *)

(** C1 at a concrete input.  On the 16-mer shard [0, 64) without present
    keys, a single run with --limit 1000 prints the keys 0..47, while
    chaining pages of --limit 1 through the returned cursors prints
    0, 2, 4, ..., 46 and then an empty last page: of every page the
    (limit+1)-th candidate has been drained from its lane, has become
    the lane's after, and is cut off by the final resize, so that no
    page prints it.  In expansion mode (18-mer anchors [0, 4), key 1
    present, --construct_k 19, pages of --limit 6) the keys a lane has
    buffered beyond the page are lost as well: the second page is
    empty. *)
Theorem pagination_loses_keys :
  exists pages single pages19 single19,
    Stream.paginate 100 200 (Examples.args16 1) Examples.env16 = Some pages /\
    Stream.main (Examples.args16 1000) Examples.env16 200
    = Some (Stream.Printed single) /\
    Stream.hasMore single = false /\
    Stream.out_vals single = seqZ 0 48 /\
    flat_map Stream.out_vals pages = map (Z.mul 2) (seqZ 0 24) /\
    In 1 (Stream.out_vals single) /\
    ~ In 1 (flat_map Stream.out_vals pages) /\
    Stream.paginate 100 200 (Examples.args19 6) Examples.env18 = Some pages19 /\
    Stream.main (Examples.args19 1000) Examples.env18 200
    = Some (Stream.Printed single19) /\
    Stream.hasMore single19 = false /\
    flat_map Stream.out_vals pages19 = [0; 4 ^ 18; 2 * 4 ^ 18; 3 * 4 ^ 18; 0; 1] /\
    Stream.out_vals single19
    = [0; 4 ^ 18; 2 * 4 ^ 18; 3 * 4 ^ 18; 0; 1; 2; 3;
       2; 4 ^ 18 + 2; 2 * 4 ^ 18 + 2; 3 * 4 ^ 18 + 2; 8; 9; 10; 11].
Proof.
  eexists _, _, _, _.
  split; [vm_compute; reflexivity|].
  split; [vm_compute; reflexivity|].
  split; [reflexivity|].
  split; [vm_compute; reflexivity|].
  split; [vm_compute; reflexivity|].
  split; [cbn; tauto|].
  split.
  { cbn. intros Hin.
    repeat (destruct Hin as [Hin|Hin]; [discriminate|]). exact Hin. }
  split; [vm_compute; reflexivity|].
  split; [vm_compute; reflexivity|].
  split; [reflexivity|].
  split; vm_compute; reflexivity.
Qed.


(** * The membership query *)

Module QueryFacts.
Import Dna Kbit Query.

Local Abbreviation nonempty :=
  (fun ln : str => match ln with [] => false | _ => true end).
Local Abbreviation shard_msg := "open shard: No such file or directory"%string.

(** ** Routing *)

Lemma find_shard_go_spec shards idx : forall fuel lo hi,
  (hi <= length shards)%nat -> (hi - lo < fuel)%nat ->
  exists r, find_shard_go fuel shards idx lo hi = Some r /\
    (r = -1 \/
     (0 <= r < Z.of_nat (length shards) /\
      exists s, shards !! Z.to_nat r = Some s /\ s_start s <= idx < s_end s)).
Proof.
  induction fuel as [|f IH]; intros lo hi Hhi Hf; [lia|].
  cbn [find_shard_go].
  destruct (lo <? hi)%nat eqn:E.
  - apply Nat.ltb_lt in E.
    set (mid := (lo + (hi - lo) / 2)%nat).
    assert (Hmid : (lo <= mid < hi)%nat).
    { assert ((hi - lo) / 2 < hi - lo)%nat by (apply Nat.div_lt; lia).
      unfold mid. lia. }
    destruct (shards !! mid) as [s|] eqn:Es;
      [|apply lookup_ge_None in Es; lia].
    destruct (idx <? s_start s) eqn:E1; [apply IH; lia|].
    destruct (s_end s <=? idx) eqn:E2; [apply IH; lia|].
    exists (Z.of_nat mid). split; [reflexivity|]. right.
    split; [lia|]. exists s. rewrite Nat2Z.id. split; [exact Es|lia].
  - exists (-1). auto.
Qed.

Lemma find_shard_spec shards idx :
  exists r, find_shard shards idx = Some r /\
    (r = -1 \/
     (0 <= r < Z.of_nat (length shards) /\
      exists s, shards !! Z.to_nat r = Some s /\ s_start s <= idx < s_end s)).
Proof.
  unfold find_shard. destruct shards as [|s0 rest] eqn:E.
  - exists (-1). auto.
  - rewrite <- E. apply find_shard_go_spec; lia.
Qed.

(** ** The input loop *)

Lemma base_lut_acgt c : (base_lut c =? 255) = negb (acgt_char c).
Proof.
  destruct c as [[] [] [] [] [] [] [] []]; reflexivity.
Qed.

Lemma encode_go_None s : forall v,
  encode_go s v = None <-> forallb acgt_char s = false.
Proof.
  induction s as [|c s IH]; intros v; cbn [encode_go forallb].
  - split; discriminate.
  - rewrite base_lut_acgt. destruct (acgt_char c); cbn [negb andb].
    + apply IH.
    + split; reflexivity.
Qed.

Lemma encode_kmer_sv_None ln k :
  encode_kmer_sv ln k = None <-> valid_kmer k ln = false.
Proof.
  unfold encode_kmer_sv, valid_kmer.
  destruct (Z.of_nat (length ln) =? k); cbn [negb andb].
  - apply encode_go_None.
  - split; reflexivity.
Qed.

Lemma encode_kmer_sv_Some ln k :
  valid_kmer k ln = true -> exists v, encode_kmer_sv ln k = Some v.
Proof.
  intros Hv. destruct (encode_kmer_sv ln k) as [v|] eqn:E; [eauto|].
  apply encode_kmer_sv_None in E. congruence.
Qed.

Lemma encode_all_bad k lines : forall kmers vals,
  (exists ln, In ln (List.filter nonempty lines) /\ valid_kmer k ln = false) ->
  exists n, encode_all k lines kmers vals = inl n.
Proof.
  induction lines as [|ln rest IH]; intros kmers vals (bad & Hin & Hbad).
  - destruct Hin.
  - cbn [encode_all List.filter] in *. destruct ln as [|c ln'].
    + apply IH. eauto.
    + destruct (encode_kmer_sv (c :: ln') k) as [v|] eqn:E; [|eauto].
      destruct Hin as [<-|Hin].
      * apply encode_kmer_sv_None in Hbad. congruence.
      * apply IH. eauto.
Qed.

Lemma encode_all_ok k lines : forall kmers vals,
  (forall ln, In ln (List.filter nonempty lines) -> valid_kmer k ln = true) ->
  exists keys,
    encode_all k lines kmers vals
    = inr (kmers ++ List.filter nonempty lines, vals ++ keys) /\
    Forall2 (fun ln v => encode_kmer_sv ln k = Some v)
            (List.filter nonempty lines) keys.
Proof.
  induction lines as [|ln rest IH]; intros kmers vals Hall.
  - exists []. cbn. rewrite !app_nil_r. split; [reflexivity|constructor].
  - cbn [encode_all List.filter] in *. destruct ln as [|c ln'].
    + apply IH, Hall.
    + destruct (encode_kmer_sv_Some (c :: ln') k) as (v & Hv);
        [apply Hall; left; reflexivity|].
      rewrite Hv.
      destruct (IH (kmers ++ [c :: ln']) (vals ++ [v])) as (keys & Hk & HF);
        [intros; apply Hall; right; assumption|].
      exists (v :: keys). split; [|constructor; assumption].
      etransitivity; [exact Hk|]. rewrite <- !app_assoc. reflexivity.
Qed.

(** ** Bucketing *)

Lemma bucket_spec shards vals : forall i tbl tbl',
  length tbl = length shards ->
  bucket shards vals i tbl = Some tbl' ->
  length tbl' = length shards /\
  forall s idx,
    idx ∈ default [] (tbl' !! s) <->
    idx ∈ default [] (tbl !! s) \/
    exists j v, idx = (i + j)%nat /\ vals !! j = Some v /\
                find_shard shards v = Some (Z.of_nat s).
Proof.
  induction vals as [|a vals IH]; intros i tbl tbl' Hlen Hb; cbn [bucket] in Hb.
  - injection Hb as <-. split; [exact Hlen|]. intros s idx. split; [auto|].
    intros [?|(j & v & _ & Hj & _)]; [assumption|]. destruct j; discriminate.
  - destruct (find_shard_spec shards a) as (r & Hr & Hcase). rewrite Hr in Hb.
    destruct (r <? 0) eqn:Er; [discriminate|]. apply Z.ltb_ge in Er.
    destruct Hcase as [->|(Hrange & _)]; [lia|].
    apply IH in Hb; [|rewrite length_insert; exact Hlen].
    destruct Hb as (Hl & Hb). split; [exact Hl|].
    intros s idx. rewrite Hb. clear Hb.
    destruct (decide (s = Z.to_nat r)) as [->|Hne].
    + rewrite list_lookup_insert_eq by lia. cbn [from_option id].
      rewrite elem_of_app, list_elem_of_singleton. split.
      * intros [[?| ->]|(j & v & -> & Hj & Hf)].
        -- left. assumption.
        -- right. exists 0%nat, a. rewrite Nat.add_0_r, Z2Nat.id by lia. auto.
        -- right. exists (S j), v. split; [lia|]. auto.
      * intros [?|(j & v & -> & Hj & Hf)]; [auto|].
        destruct j as [|j]; cbn in Hj.
        -- left. right. lia.
        -- right. exists j, v. split; [lia|]. auto.
    + rewrite list_lookup_insert_ne by congruence. split.
      * intros [?|(j & v & -> & Hj & Hf)]; [auto|].
        right. exists (S j), v. split; [lia|]. auto.
      * intros [?|(j & v & -> & Hj & Hf)]; [auto|].
        destruct j as [|j]; cbn in Hj.
        -- injection Hj as ->. rewrite Hr in Hf. injection Hf as Hf. lia.
        -- right. exists j, v. split; [lia|]. auto.
Qed.

Lemma bucket_None shards vals : forall i tbl,
  (exists v, In v vals /\ find_shard shards v = Some (-1)) ->
  bucket shards vals i tbl = None.
Proof.
  induction vals as [|a vals IH]; intros i tbl (v & Hin & Hv); [destruct Hin|].
  cbn [bucket]. destruct (find_shard shards a) as [r|] eqn:Er; [|reflexivity].
  destruct (r <? 0) eqn:E; [reflexivity|].
  destruct Hin as [->|Hin].
  - rewrite Hv in Er. injection Er as <-. discriminate.
  - apply IH. eauto.
Qed.

Lemma bucket_Some shards vals : forall i tbl,
  (forall v, In v vals -> exists r, find_shard shards v = Some r /\ 0 <= r) ->
  exists tbl', bucket shards vals i tbl = Some tbl'.
Proof.
  induction vals as [|a vals IH]; intros i tbl Hall; cbn [bucket]; [eauto|].
  destruct (Hall a) as (r & -> & Hr); [left; reflexivity|].
  destruct (r <? 0) eqn:E; [apply Z.ltb_lt in E; lia|].
  apply IH. intros. apply Hall. right. assumption.
Qed.

Section WithRoaring.
Context `{Roaring}.

(** ** Probing *)

Lemma fold_insert_spec (f : nat -> ascii) idxs : forall (hits : list ascii),
  let hits' := fold_left (fun h idx => <[idx := f idx]> h) idxs hits in
  length hits' = length hits /\
  forall i c, hits' !! i = Some c ->
    (i ∈ idxs /\ c = f i) \/ ((i ∉ idxs) /\ hits !! i = Some c).
Proof.
  induction idxs as [|a idxs IH]; intros hits; cbn [fold_left].
  - split; [reflexivity|]. intros i c Hc. right. split; [|exact Hc].
    apply not_elem_of_nil.
  - destruct (IH (<[a := f a]> hits)) as (Hl & Hi). cbv zeta.
    split; [rewrite Hl; apply length_insert|].
    intros i c Hc. apply Hi in Hc. destruct Hc as [(Hin & ->)|(Hnin & Hc)].
    + left. split; [right; exact Hin|reflexivity].
    + apply list_lookup_insert_Some in Hc.
      destruct Hc as [(-> & <- & _)|(Hne & Hc)].
      * left. split; [left|reflexivity].
      * right. split; [|exact Hc].
        rewrite elem_of_cons. intros [-> | ?]; [congruence|contradiction].
Qed.

Lemma probe_all_spec env shards vals tbl : forall s0 hits err hits' err',
  probe_all env vals s0 tbl (hits, err) = (hits', err') ->
  (forall s idxs idx, tbl !! s = Some idxs -> idx ∈ idxs ->
     exists v, vals !! idx = Some v /\
               find_shard shards v = Some (Z.of_nat (s0 + s))) ->
  (forall s idxs, tbl !! s = Some idxs -> idxs <> [] ->
     exists bm, load_kbit_portable shard_msg (shard_file env (Z.of_nat (s0 + s)))
                = inr bm) ->
  length hits' = length hits /\ err' = err /\
  forall i c, hits' !! i = Some c ->
    right_answer env shards vals i c \/
    (hits !! i = Some c /\ forall s idxs, tbl !! s = Some idxs -> i ∉ idxs).
Proof.
  induction tbl as [|idxs tbl IH]; intros s0 hits err hits' err' Hp Hroute Hload;
    cbn [probe_all] in Hp.
  - injection Hp as <- <-. split; [reflexivity|]. split; [reflexivity|].
    intros i c Hc. right. split; [exact Hc|]. intros s idxs Hs.
    destruct s; discriminate.
  - destruct (probe_shard env vals s0 idxs (hits, err)) as [hits1 err1] eqn:Hs.
    assert (Hstep : length hits1 = length hits /\ err1 = err /\
              forall i c, hits1 !! i = Some c ->
                right_answer env shards vals i c \/
                (hits !! i = Some c /\ i ∉ idxs)).
    { unfold probe_shard in Hs. destruct idxs as [|i0 idxs'] eqn:Ei.
      - injection Hs as <- <-. split; [reflexivity|]. split; [reflexivity|].
        intros i c Hc. right. split; [exact Hc|apply not_elem_of_nil].
      - rewrite <- Ei in *.
        destruct (Hload 0%nat idxs) as (bm & Hbm);
          [reflexivity|rewrite Ei; discriminate|].
        rewrite Nat.add_0_r in Hbm. rewrite Hbm in Hs.
        injection Hs as <- <-.
        destruct (fold_insert_spec
                    (fun idx => flag (bitmap_contains bm (default 0 (vals !! idx))))
                    idxs hits) as (Hl & Hi).
        split; [exact Hl|]. split; [reflexivity|].
        intros i c Hc. apply Hi in Hc.
        destruct Hc as [(Hin & ->)|(Hnin & Hc)]; [left|right; auto].
        destruct (Hroute 0%nat idxs i) as (v & Hv & Hf); [reflexivity|exact Hin|].
        rewrite Nat.add_0_r in Hf.
        exists v, (bitmap_contains bm v). rewrite Hv. cbn [from_option id].
        split; [reflexivity|]. split; [|reflexivity].
        unfold lookup_key. rewrite Hf.
        destruct (Z.of_nat s0 <? 0) eqn:E; [apply Z.ltb_lt in E; lia|].
        rewrite Hbm. reflexivity. }
    destruct Hstep as (Hl1 & -> & Hi1).
    apply IH with (s0 := S s0) in Hp.
    + destruct Hp as (Hl & He & Hi). split; [lia|]. split; [exact He|].
      intros i c Hc. apply Hi in Hc. destruct Hc as [Hr|(Hc & Hrest)]; [auto|].
      apply Hi1 in Hc. destruct Hc as [Hr|(Hc & Hhere)]; [auto|].
      right. split; [exact Hc|]. intros s idxs0 Hs0.
      destruct s as [|s]; cbn in Hs0.
      * injection Hs0 as <-. exact Hhere.
      * eapply Hrest; eassumption.
    + intros s idxs0 idx Hs0 Hin.
      replace (S s0 + s)%nat with (s0 + S s)%nat by lia.
      eapply Hroute; [|exact Hin]. exact Hs0.
    + intros s idxs0 Hs0 Hne.
      replace (S s0 + s)%nat with (s0 + S s)%nat by lia.
      eapply Hload; [|exact Hne]. exact Hs0.
Qed.

(** ** The main function in --shards mode *)

(** Without any assumption on the shard files: a position of [hits]
    either holds the answer of a shard that loaded or is as it was. *)
Lemma probe_all_weak env shards vals tbl : forall s0 hits err hits' err',
  probe_all env vals s0 tbl (hits, err) = (hits', err') ->
  (forall s idxs idx, tbl !! s = Some idxs -> idx ∈ idxs ->
     exists v, vals !! idx = Some v /\
               find_shard shards v = Some (Z.of_nat (s0 + s))) ->
  length hits' = length hits /\
  forall i c, hits' !! i = Some c ->
    right_answer env shards vals i c \/ hits !! i = Some c.
Proof.
  induction tbl as [|idxs tbl IH]; intros s0 hits err hits' err' Hp Hroute;
    cbn [probe_all] in Hp.
  - injection Hp as <- <-. split; [reflexivity|]. auto.
  - destruct (probe_shard env vals s0 idxs (hits, err)) as [hits1 err1] eqn:Hs.
    assert (Hstep : length hits1 = length hits /\
              forall i c, hits1 !! i = Some c ->
                right_answer env shards vals i c \/ hits !! i = Some c).
    { unfold probe_shard in Hs. destruct idxs as [|i0 idxs'] eqn:Ei.
      - injection Hs as <- <-. split; [reflexivity|]. auto.
      - rewrite <- Ei in *.
        destruct (load_kbit_portable shard_msg (shard_file env (Z.of_nat s0)))
          as [msgs|bm] eqn:Hbm.
        + injection Hs as <- <-. split; [reflexivity|]. auto.
        + injection Hs as <- <-.
          destruct (fold_insert_spec
                      (fun idx => flag (bitmap_contains bm (default 0 (vals !! idx))))
                      idxs hits) as (Hl & Hi).
          split; [exact Hl|].
          intros i c Hc. apply Hi in Hc.
          destruct Hc as [(Hin & ->)|(Hnin & Hc)]; [left|right; auto].
          destruct (Hroute 0%nat idxs i) as (v & Hv & Hf); [reflexivity|exact Hin|].
          rewrite Nat.add_0_r in Hf.
          exists v, (bitmap_contains bm v). rewrite Hv. cbn [from_option id].
          split; [reflexivity|]. split; [|reflexivity].
          unfold lookup_key. rewrite Hf.
          destruct (Z.of_nat s0 <? 0) eqn:E; [apply Z.ltb_lt in E; lia|].
          rewrite Hbm. reflexivity. }
    destruct Hstep as (Hl1 & Hi1).
    apply IH with (s0 := S s0) in Hp.
    + destruct Hp as (Hl & Hi). split; [lia|].
      intros i c Hc. apply Hi in Hc. destruct Hc as [Hr|Hc]; auto.
    + intros s idxs0 idx Hs0 Hin.
      replace (S s0 + s)%nat with (s0 + S s)%nat by lia.
      eapply Hroute; [|exact Hin]. exact Hs0.
Qed.

Lemma main_shards args env ix text :
  shards_run args env ix text ->
  main args env =
  match encode_all (Stream.to_int (ix_k ix)) (read_lines text []) [] [] with
  | inl _ => mkResult 3 [] ["Error: encountered k-mer of unexpected length"%string]
  | inr (kmers, vals) =>
      match bucket (ix_shards ix) vals 0 (replicate (length (ix_shards ix)) []) with
      | None => mkResult 2 [] ["Error: k-mer index out of shard ranges"%string]
      | Some tbl =>
          let '(hits, err) :=
            probe_all env vals 0 tbl (replicate (length kmers) "0"%char, []) in
          mkResult 0 (zip_with format_line kmers hits) err
      end
  end.
Proof.
  intros (Hm & Hix & Hk & Hsup & Hkf & Hin & Hout & Hne & Hrng).
  unfold main. rewrite Hm, Hix, Hkf, Hin, Hout, Hsup.
  assert (Hk' : negb (arg_k args =? -1)
                && negb (Stream.to_int (ix_k ix) =? arg_k args) = false).
  { destruct Hk as [->| ->]; [reflexivity|]. rewrite Z.eqb_refl.
    apply andb_false_r. }
  rewrite Hk'. cbn [negb app].
  destruct (encode_all _ _ _ _) as [n|[kmers vals]]; [reflexivity|].
  destruct (ix_shards ix) as [|s0 rest] eqn:Es; [congruence|].
  rewrite Hrng. reflexivity.
Qed.

Lemma replicate_nil_lookup (n s : nat) :
  default [] (replicate n (@nil nat) !! s) = [].
Proof.
  destruct (replicate n (@nil nat) !! s) as [l|] eqn:E; [|reflexivity].
  apply lookup_replicate in E. destruct E as [-> _]. reflexivity.
Qed.

End WithRoaring.
End QueryFacts.

(** C8 (as amended).  In --shards mode, once the index, the k-mer file
    and the output have been opened: the input loop skips empty lines
    and takes the letters in either case; the run is rejected with
    status 3 when a non-empty line has a length other than k or a
    character outside ACGTacgt, and with status 2 when a key lies in
    no shard range; when every key has a shard whose file loads, the
    output has exactly one line for each non-empty input line, in
    input order, with flag '1' iff the key is in the bitmap of the
    shard the router returns, whose range holds the key. *)
Theorem query_answers_nonempty_lines `{Roaring}
        (args : Query.Args) (env : Query.Env) (ix : Query.Index) (text : Dna.str) :
  Query.shards_run args env ix text ->
  let k := Stream.to_int (Query.ix_k ix) in
  let shards := Query.ix_shards ix in
  let lines := Query.nonempty_lines text in
  let r := Query.main args env in
  (forall v sid, Query.find_shard shards v = Some sid -> 0 <= sid ->
     exists s, shards !! Z.to_nat sid = Some s /\
               Query.s_start s <= v < Query.s_end s) /\
  ((exists ln, In ln lines /\ Query.valid_kmer k ln = false) ->
     Query.exit_code r = 3 /\ Query.out_lines r = []) /\
  ((forall ln, In ln lines -> Query.valid_kmer k ln = true) ->
   (exists ln v, In ln lines /\ Query.encode_kmer_sv ln k = Some v /\
                 Query.find_shard shards v = Some (-1)) ->
     Query.exit_code r = 2 /\ Query.out_lines r = []) /\
  ((forall ln, In ln lines -> is_Some (Query.answer_line env shards k ln)) ->
     Query.exit_code r = 0 /\
     map Some (Query.out_lines r) = map (Query.answer_line env shards k) lines).
Proof.
  intros Hrun k shards lines r.
  pose proof (QueryFacts.main_shards _ _ _ _ Hrun) as Hmain.
  fold k shards in Hmain. fold r in Hmain.
  split; [|split; [|split]].
  - intros v sid Hf Hs.
    destruct (QueryFacts.find_shard_spec shards v) as (r0 & Hr0 & Hcase).
    rewrite Hf in Hr0. injection Hr0 as <-.
    destruct Hcase as [->|(_ & s & Hs1 & Hs2)]; [lia|]. eauto.
  - intros Hbad.
    destruct (QueryFacts.encode_all_bad k (Query.read_lines text []) [] [] Hbad)
      as (n & Hn).
    rewrite Hn in Hmain. rewrite Hmain. split; reflexivity.
  - intros Hall (ln & v & Hin & Hv & Hf).
    destruct (QueryFacts.encode_all_ok k (Query.read_lines text []) [] [] Hall)
      as (keys & Hk & HF).
    rewrite Hk in Hmain. cbn [app] in Hmain.
    rewrite QueryFacts.bucket_None in Hmain.
    + rewrite Hmain. split; reflexivity.
    + exists v. split; [|exact Hf].
      apply list_elem_of_In, list_elem_of_lookup in Hin. destruct Hin as (i & Hi).
      destruct (Forall2_lookup_l _ _ _ _ _ HF Hi) as (v' & Hv' & Hev).
      rewrite Hv in Hev. injection Hev as <-.
      apply list_elem_of_In, list_elem_of_lookup. eauto.
  - intros Hans.
    assert (Hall : forall ln, In ln lines -> Query.valid_kmer k ln = true).
    { intros ln Hin. destruct (Hans ln Hin) as (a & Ha).
      unfold Query.answer_line in Ha.
      destruct (Query.encode_kmer_sv ln k) eqn:E; [|discriminate].
      destruct (Query.valid_kmer k ln) eqn:Ev; [reflexivity|].
      apply QueryFacts.encode_kmer_sv_None in Ev. congruence. }
    destruct (QueryFacts.encode_all_ok k (Query.read_lines text []) [] [] Hall)
      as (keys & Hk & HF).
    change (List.filter _ (Query.read_lines text [])) with lines in Hk, HF.
    rewrite Hk in Hmain. cbn [app] in Hmain.
    (* every key has an answer *)
    assert (Hkey : forall i v, keys !! i = Some v ->
              exists ln hit, lines !! i = Some ln /\
                Query.encode_kmer_sv ln k = Some v /\
                Query.lookup_key env shards v = Some hit /\
                Query.answer_line env shards k ln
                = Some (Query.format_line ln (Query.flag hit))).
    { intros i v Hi.
      destruct (Forall2_lookup_r _ _ _ _ _ HF Hi) as (ln & Hln & Hev).
      destruct (Hans ln) as (a & Ha);
        [apply list_elem_of_In, list_elem_of_lookup; eauto|].
      unfold Query.answer_line in Ha. rewrite Hev in Ha.
      destruct (Query.lookup_key env shards v) as [hit|] eqn:El; [|discriminate].
      exists ln, hit. split; [exact Hln|]. split; [exact Hev|].
      split; [reflexivity|]. unfold Query.answer_line. rewrite Hev, El.
      reflexivity. }
    assert (Hroute : forall i v, keys !! i = Some v ->
              exists (s : nat) bm,
                Query.find_shard shards v = Some (Z.of_nat s) /\
                (s < length shards)%nat /\
                Query.load_kbit_portable "open shard: No such file or directory"
                  (Query.shard_file env (Z.of_nat s)) = inr bm).
    { intros i v Hi. destruct (Hkey i v Hi) as (ln & hit & _ & _ & Hl & _).
      unfold Query.lookup_key in Hl.
      destruct (QueryFacts.find_shard_spec shards v) as (r0 & Hr0 & Hcase).
      rewrite Hr0 in Hl. destruct (r0 <? 0) eqn:E0; [discriminate|].
      apply Z.ltb_ge in E0. destruct Hcase as [->|(Hrng & _)]; [lia|].
      destruct (Query.load_kbit_portable _ _) as [|bm] eqn:Eb; [discriminate|].
      exists (Z.to_nat r0), bm. rewrite Z2Nat.id by lia.
      split; [exact Hr0|]. split; [lia|exact Eb]. }
    destruct (QueryFacts.bucket_Some shards keys 0
                (replicate (length shards) [])) as (tbl & Htbl).
    { intros v Hin. apply list_elem_of_In, list_elem_of_lookup in Hin.
      destruct Hin as (i & Hi). destruct (Hroute i v Hi) as (s & _ & Hs & _).
      exists (Z.of_nat s). split; [exact Hs|lia]. }
    rewrite Htbl in Hmain.
    destruct (QueryFacts.bucket_spec shards keys 0 _ tbl
                (length_replicate _ _) Htbl) as (Hlt & Hb).
    assert (Hb' : forall s idx, idx ∈ default [] (tbl !! s) <->
              exists v, keys !! idx = Some v /\
                        Query.find_shard shards v = Some (Z.of_nat s)).
    { intros s idx. rewrite Hb, QueryFacts.replicate_nil_lookup. split.
      - intros [Hn|(j & v & -> & Hj & Hf)]; [inversion Hn|]. eauto.
      - intros (v & Hv & Hf). right. exists idx, v. auto. }
    clear Hb.
    destruct (Query.probe_all env keys 0 tbl
                (replicate (length lines) "0"%char, [])) as [hits err] eqn:Hp.
    rewrite Hmain. cbn [Query.exit_code Query.out_lines].
    split; [reflexivity|].
    apply (QueryFacts.probe_all_spec env shards) in Hp.
    + destruct Hp as (Hlen & _ & Hhits). rewrite length_replicate in Hlen.
      assert (Hlk : length keys = length lines)
        by (symmetry; eapply Forall2_length; exact HF).
      apply list_eq. intros i. rewrite !list_lookup_fmap, lookup_zip_with.
      destruct (lines !! i) as [ln|] eqn:Eln; cbn [fmap option_fmap option_map mbind option_bind].
      * destruct (lookup_lt_is_Some_2 hits i) as (c & Hc);
          [rewrite Hlen; eapply lookup_lt_Some; exact Eln|].
        rewrite Hc. cbn [fmap option_fmap option_map mbind option_bind].
        destruct (lookup_lt_is_Some_2 keys i) as (v & Hv);
          [rewrite Hlk; eapply lookup_lt_Some; exact Eln|].
        destruct (Hkey i v Hv) as (ln' & hit & Hln' & _ & Hl & Ha).
        rewrite Eln in Hln'. injection Hln' as <-. rewrite Ha.
        destruct (Hhits i c Hc) as [(v' & hit' & Hv' & Hl' & ->)|(_ & Hno)].
        -- rewrite Hv in Hv'. injection Hv' as <-. rewrite Hl in Hl'.
           injection Hl' as <-. reflexivity.
        -- exfalso. destruct (Hroute i v Hv) as (s & bm & Hf & Hs & _).
           destruct (lookup_lt_is_Some_2 tbl s) as (idxs & Hidxs); [lia|].
           apply (Hno s idxs Hidxs).
           specialize (Hb' s i). rewrite Hidxs in Hb'. apply Hb'. eauto.
      * reflexivity.
    + intros s idxs idx Hs Hin. specialize (Hb' s idx). rewrite Hs in Hb'.
      apply Hb'. exact Hin.
    + intros s idxs Hs Hne. destruct idxs as [|idx idxs']; [congruence|].
      specialize (Hb' s idx). rewrite Hs in Hb'.
      destruct Hb' as [Hb' _]. destruct Hb' as (v & Hv & Hf); [left|].
      destruct (Hroute idx v Hv) as (s' & bm & Hf' & _ & Hbm).
      rewrite Hf in Hf'. injection Hf' as Hf'. apply Nat2Z.inj in Hf'. subst s'.
      exists bm. exact Hbm.
Qed.

(** C8, as stated: a line of length other than k rejects the run, and
    every input line has an output line.  With
    [--shards DIR --k 16 --kmers FILE] on one shard that holds the
    key 5, the file has an empty line, which is skipped although its
    length is not 16, and a line in lower case, which is answered:
    three input lines, status 0, two output lines. *)
Lemma blank_and_lowercase_lines_answered :
  let r := @Query.main KeyListRoaring Examples.qargs
             (Examples.qenv (Some (Examples.shard_bytes 16 [5])) Examples.text_mixed) in
  Query.read_lines (Dna.lit Examples.text_mixed) []
  = [[]; Dna.lit Examples.kmer_A16; Dna.lit Examples.kmer_a14cc] /\
  Query.valid_kmer 16 [] = false /\
  Query.exit_code r = 0 /\
  Query.out_lines r
  = [Dna.lit (Examples.kmer_A16 ++ Examples.tab ++ "0" ++ Examples.newline);
     Dna.lit (Examples.kmer_a14cc ++ Examples.tab ++ "1" ++ Examples.newline)].
Proof.
  cbv zeta. repeat split; vm_compute; reflexivity.
Qed.

Lemma query_answers_nonempty_lines_witness :
  let args := Examples.qargs in
  let env := Examples.qenv (Some (Examples.shard_bytes 16 [5])) Examples.text_mixed in
  Query.shards_run args env Examples.qindex (Dna.lit Examples.text_mixed) /\
  Query.exit_code (@Query.main KeyListRoaring args env) = 0 /\
  map Some (Query.out_lines (@Query.main KeyListRoaring args env))
  = map (@Query.answer_line KeyListRoaring env (Query.ix_shards Examples.qindex) 16)
        (Query.nonempty_lines (Dna.lit Examples.text_mixed)).
Proof.
  cbv zeta.
  assert (Hrun : Query.shards_run Examples.qargs
                   (Examples.qenv (Some (Examples.shard_bytes 16 [5]))
                                  Examples.text_mixed)
                   Examples.qindex (Dna.lit Examples.text_mixed)).
  { unfold Query.shards_run. repeat split; try reflexivity.
    - right. reflexivity.
    - discriminate. }
  split; [exact Hrun|].
  apply (@query_answers_nonempty_lines KeyListRoaring _ _ _ _ Hrun).
  intros ln Hin. vm_compute in Hin.
  destruct Hin as [<-|[<-|[]]]; vm_compute; eauto.
Defined.

(** C6 at the shard worker.  In --shards mode, whatever the state of
    the shard files: once the input is accepted and every key has a
    shard, the run ends with status 0 and one output line for each
    key, and a key whose shard file does not load (missing, truncated
    or not deserializable) is answered with flag '0'. *)
Theorem shard_load_failure_exits_zero `{Roaring}
        (args : Query.Args) (env : Query.Env) (ix : Query.Index) (text : Dna.str) :
  Query.shards_run args env ix text ->
  let k := Stream.to_int (Query.ix_k ix) in
  let shards := Query.ix_shards ix in
  let lines := Query.nonempty_lines text in
  let r := Query.main args env in
  (forall ln, In ln lines ->
     exists v sid, Query.encode_kmer_sv ln k = Some v /\
                   Query.find_shard shards v = Some sid /\ 0 <= sid) ->
  Query.exit_code r = 0 /\
  length (Query.out_lines r) = length lines /\
  forall i ln v sid msgs,
    lines !! i = Some ln ->
    Query.encode_kmer_sv ln k = Some v ->
    Query.find_shard shards v = Some sid ->
    Query.load_kbit_portable "open shard: No such file or directory"
      (Query.shard_file env sid) = inl msgs ->
    Query.out_lines r !! i = Some (Query.format_line ln "0"%char).
Proof.
  intros Hrun k shards lines r Hok.
  pose proof (QueryFacts.main_shards _ _ _ _ Hrun) as Hmain.
  fold k shards in Hmain. fold r in Hmain.
  assert (Hall : forall ln, In ln lines -> Query.valid_kmer k ln = true).
  { intros ln Hin. destruct (Hok ln Hin) as (v & sid & Hv & _).
    destruct (Query.valid_kmer k ln) eqn:Ev; [reflexivity|].
    apply QueryFacts.encode_kmer_sv_None in Ev. congruence. }
  destruct (QueryFacts.encode_all_ok k (Query.read_lines text []) [] [] Hall)
    as (keys & Hk & HF).
  change (List.filter _ (Query.read_lines text [])) with lines in Hk, HF.
  rewrite Hk in Hmain. cbn [app] in Hmain.
  assert (Hlk : length keys = length lines)
    by (symmetry; eapply Forall2_length; exact HF).
  assert (Hroute : forall i v, keys !! i = Some v ->
            exists s : nat, Query.find_shard shards v = Some (Z.of_nat s)).
  { intros i v Hi.
    destruct (Forall2_lookup_r _ _ _ _ _ HF Hi) as (ln & Hln & Hev).
    destruct (Hok ln) as (v' & sid & Hv' & Hf & Hs);
      [apply list_elem_of_In, list_elem_of_lookup; eauto|].
    rewrite Hev in Hv'. injection Hv' as <-.
    exists (Z.to_nat sid). rewrite Z2Nat.id by lia. exact Hf. }
  destruct (QueryFacts.bucket_Some shards keys 0
              (replicate (length shards) [])) as (tbl & Htbl).
  { intros v Hin. apply list_elem_of_In, list_elem_of_lookup in Hin.
    destruct Hin as (i & Hi). destruct (Hroute i v Hi) as (s & Hs).
    exists (Z.of_nat s). split; [exact Hs|lia]. }
  rewrite Htbl in Hmain.
  destruct (QueryFacts.bucket_spec shards keys 0 _ tbl
              (length_replicate _ _) Htbl) as (Hlt & Hb).
  destruct (Query.probe_all env keys 0 tbl
              (replicate (length lines) "0"%char, [])) as [hits err] eqn:Hp.
  rewrite Hmain. cbn [Query.exit_code Query.out_lines].
  apply (QueryFacts.probe_all_weak env shards) in Hp.
  - destruct Hp as (Hlen & Hhits). rewrite length_replicate in Hlen.
    split; [reflexivity|]. split; [rewrite length_zip_with; lia|].
    intros i ln v sid msgs Hln Hv Hf Hload.
    rewrite lookup_zip_with, Hln. cbn [mbind option_bind].
    destruct (lookup_lt_is_Some_2 hits i) as (c & Hc);
      [rewrite Hlen; eapply lookup_lt_Some; exact Hln|].
    rewrite Hc. cbn [mbind option_bind]. f_equal. f_equal.
    destruct (Hhits i c Hc) as [(v' & hit & Hv' & Hl & _)|Hc0].
    + exfalso.
      destruct (Forall2_lookup_l _ _ _ _ _ HF Hln) as (v'' & Hv'' & Hev).
      rewrite Hv in Hev. injection Hev as <-.
      rewrite Hv' in Hv''. injection Hv'' as ->.
      unfold Query.lookup_key in Hl. rewrite Hf in Hl.
      destruct (sid <? 0); [discriminate|]. rewrite Hload in Hl. discriminate.
    + apply lookup_replicate in Hc0. destruct Hc0 as [-> _]. reflexivity.
  - intros s idxs idx Hs Hin.
    specialize (Hb s idx). rewrite Hs, QueryFacts.replicate_nil_lookup in Hb.
    cbn [from_option id] in Hb. apply Hb in Hin.
    destruct Hin as [Hn|(j & v & -> & Hj & Hf)]; [inversion Hn|]. eauto.
Qed.

Lemma shard_load_failure_exits_zero_witness :
  let args := Examples.qargs in
  let env := Examples.qenv None Examples.text_one in
  Query.shards_run args env Examples.qindex (Dna.lit Examples.text_one) /\
  Query.exit_code (@Query.main KeyListRoaring args env) = 0 /\
  Query.out_lines (@Query.main KeyListRoaring args env) !! 0%nat
  = Some (Query.format_line (Dna.lit Examples.kmer_A16) "0"%char).
Proof.
  cbv zeta.
  assert (Hrun : Query.shards_run Examples.qargs
                   (Examples.qenv None Examples.text_one)
                   Examples.qindex (Dna.lit Examples.text_one)).
  { unfold Query.shards_run. repeat split; try reflexivity.
    - right. reflexivity.
    - discriminate. }
  split; [exact Hrun|].
  destruct (@shard_load_failure_exits_zero KeyListRoaring _ _ _ _ Hrun)
    as (Hexit & _ & Hline).
  { intros ln Hin. vm_compute in Hin. destruct Hin as [<-|[]].
    exists 0, 0. vm_compute. repeat split; discriminate. }
  split; [exact Hexit|].
  apply (Hline 0%nat _ 0 0 ["open shard: No such file or directory"%string]);
    reflexivity.
Defined.

(** The three failures of the shard loader on one input: the file of
    the only shard is missing, cut inside its payload, or holds a
    payload that does not deserialize.  Each run prints the loader's
    message, answers '0' and exits with status 0; with the intact file
    the answer is '1'. *)
Lemma shard_failures_answer_zero :
  let run f := @Query.main KeyListRoaring Examples.qargs
                 (Examples.qenv f Examples.text_one) in
  let line c := Dna.lit (Examples.kmer_A16 ++ Examples.tab ++ c ++ Examples.newline) in
  run (Some (Examples.shard_bytes 16 [0])) = Query.mkResult 0 [line "1"%string] [] /\
  run None
  = Query.mkResult 0 [line "0"%string] ["open shard: No such file or directory"%string] /\
  run (Some (take 70 (Examples.shard_bytes 16 [0])))
  = Query.mkResult 0 [line "0"%string] ["Error: truncated payload"%string] /\
  run (Some (Examples.shard_raw 16 [1; 2; 3]))
  = Query.mkResult 0 [line "0"%string] ["Error: deserialization failed"%string].
Proof.
  cbv zeta. repeat split; vm_compute; reflexivity.
Qed.


(** * The dense generator and the shard loaders *)

Module GenFacts.
Import Kbit Gen.

(** ** Little-endian words *)

Lemma wrap64_byte_shl b n :
  0 <= n <= 56 -> wrap64 (Z.shiftl (Z.land b 255) n) = Z.shiftl (Z.land b 255) n.
Proof.
  intros Hn. unfold wrap64.
  pose proof (CursorFacts.land_255_byte b) as Hb. unfold B64.is_byte in Hb.
  rewrite Z.shiftl_mul_pow2 by lia.
  assert (0 < 2 ^ n) by (apply Z.pow_pos_nonneg; lia).
  assert (2 ^ n <= 2 ^ 56) by (apply Z.pow_le_mono_r; lia).
  apply Z.mod_small.
  change (2 ^ 64) with (256 * 2 ^ 56). nia.
Qed.

Lemma read_write_le64 v rest :
  0 <= v < 2 ^ 64 -> read_le64 (write_le64_u v ++ rest) = v.
Proof.
  intros Hv. unfold read_le64, write_le64_u. cbn [app read_le64_go].
  change (8 * 0) with 0. change (8 * (0 + 1)) with 8.
  change (8 * (0 + 1 + 1)) with 16. change (8 * (0 + 1 + 1 + 1)) with 24.
  change (8 * (0 + 1 + 1 + 1 + 1)) with 32.
  change (8 * (0 + 1 + 1 + 1 + 1 + 1)) with 40.
  change (8 * (0 + 1 + 1 + 1 + 1 + 1 + 1)) with 48.
  change (8 * (0 + 1 + 1 + 1 + 1 + 1 + 1 + 1)) with 56.
  rewrite !wrap64_byte_shl by lia.
  apply B64Facts.join_u64. exact Hv.
Qed.

Lemma write_le64_u_lookup w q :
  0 <= q < 8 ->
  write_le64_u w !! Z.to_nat q = Some (Z.land (Z.shiftr w (8 * q)) 255).
Proof.
  intros Hq.
  assert (Hc : q = 0 \/ q = 1 \/ q = 2 \/ q = 3 \/ q = 4 \/ q = 5 \/ q = 6 \/ q = 7)
    by lia.
  destruct Hc as [->|[->|[->|[->|[->|[->|[->| ->]]]]]]]; reflexivity.
Qed.

Lemma byte_testbit w q b :
  0 <= q -> 0 <= b < 8 ->
  Z.testbit (Z.land (Z.shiftr w (8 * q)) 255) b = Z.testbit w (8 * q + b).
Proof.
  intros Hq Hb. rewrite Z.land_spec, Z.shiftr_spec by lia.
  change 255 with (Z.ones 8). rewrite Z.ones_spec_low by lia.
  rewrite andb_true_r. f_equal. lia.
Qed.

(** ** The sampler *)

Lemma choose_remaining s : remaining (snd (choose s)) = remaining s - 1.
Proof.
  unfold choose. destruct (needed s =? 0); [reflexivity|].
  destruct (next (rng s)) as [r g].
  destruct (fast_bounded r (remaining s) <? needed s); reflexivity.
Qed.

Lemma skip_remaining n : forall s,
  remaining (skip n s) = remaining s - Z.of_nat n.
Proof.
  induction n as [|n IH]; intros s; cbn [skip]; [lia|].
  rewrite IH, choose_remaining. lia.
Qed.

Lemma decisions_length n : forall s, length (decisions n s) = n.
Proof.
  induction n as [|n IH]; intros s; cbn [decisions]; [reflexivity|].
  destruct (choose s) as [one s']. cbn [length]. rewrite IH. reflexivity.
Qed.

Lemma decisions_app n m : forall s,
  decisions (n + m) s = decisions n s ++ decisions m (skip n s).
Proof.
  induction n as [|n IH]; intros s; cbn [decisions skip Nat.add app]; [reflexivity|].
  destruct (choose s) as [one s']. cbn [snd app]. rewrite IH. reflexivity.
Qed.

(** ** One word *)

Lemma gen_word_spec n : forall b s w,
  0 <= b -> b + Z.of_nat n <= 64 ->
  snd (gen_word n b s w) = skip n s /\
  forall j, 0 <= j ->
    Z.testbit (fst (gen_word n b s w)) j
    = Z.testbit w j
      || ((b <=? j) && default false (decisions n s !! Z.to_nat (j - b))).
Proof.
  induction n as [|n IH]; intros b s w Hb Hn; cbn [gen_word skip decisions].
  - split; [reflexivity|]. intros j Hj. cbn. rewrite andb_false_r, orb_false_r.
    reflexivity.
  - destruct (choose s) as [one s'] eqn:Ec. cbn [snd].
    destruct (IH (b + 1) s' (if one then Z.lor w (wrap64 (Z.shiftl 1 b)) else w))
      as (Hs & Hbits); [lia|lia|].
    split; [exact Hs|]. intros j Hj. rewrite Hbits by lia.
    assert (Hw : Z.testbit (if one then Z.lor w (wrap64 (Z.shiftl 1 b)) else w) j
                 = Z.testbit w j || (one && (j =? b))).
    { destruct one; [|cbn; rewrite orb_false_r; reflexivity].
      rewrite Z.lor_spec. f_equal. cbn [andb].
      unfold wrap64. rewrite Z.shiftl_1_l.
      rewrite Z.mod_small.
      - rewrite Z.pow2_bits_eqb by lia. apply Z.eqb_sym.
      - split; [apply Z.pow_nonneg; lia|apply Z.pow_lt_mono_r; lia]. }
    rewrite Hw.
    destruct (Z.eqb_spec j b) as [->|Hne].
    + replace (b - b) with 0 by lia. cbn [Z.to_nat lookup list_lookup from_option id].
      destruct (Z.leb_spec (b + 1) b); [lia|].
      destruct (Z.leb_spec b b); [|lia].
      cbn [andb]. rewrite andb_true_r, orb_false_r. reflexivity.
    + rewrite andb_false_r, orb_false_r.
      destruct (Z.leb_spec (b + 1) j), (Z.leb_spec b j); try lia; [|reflexivity].
      replace (Z.to_nat (j - b)) with (S (Z.to_nat (j - (b + 1)))) by lia.
      reflexivity.
Qed.

(** ** The payload *)

Lemma dense_bit_cons8 (w8 rest : list Z) i :
  length w8 = 8%nat -> 64 <= i ->
  dense_bit (w8 ++ rest) i = dense_bit rest (i - 64).
Proof.
  intros Hl Hi. unfold dense_bit.
  rewrite !Z.shiftr_div_pow2 by lia. change (2 ^ 3) with 8.
  assert (Hq : (i - 64) / 8 = i / 8 - 8)
    by (Z.to_euclidean_division_equations; lia).
  assert (Hr : Z.land (i - 64) 7 = Z.land i 7).
  { change 7 with (Z.ones 3). rewrite !Z.land_ones by lia.
    change (2 ^ 3) with 8. Z.to_euclidean_division_equations; lia. }
  rewrite Hq, Hr.
  rewrite lookup_app_r by (rewrite Hl; Z.to_euclidean_division_equations; lia).
  rewrite Hl. do 3 f_equal. Z.to_euclidean_division_equations; lia.
Qed.

Lemma dense_bit_word w rest i :
  0 <= i < 64 ->
  dense_bit (write_le64_u w ++ rest) i = Z.testbit w i.
Proof.
  intros Hi. unfold dense_bit.
  rewrite Z.shiftr_div_pow2 by lia. change (2 ^ 3) with 8.
  change 7 with (Z.ones 3). rewrite Z.land_ones by lia. change (2 ^ 3) with 8.
  assert (0 <= i / 8 < 8) by (Z.to_euclidean_division_equations; lia).
  assert (0 <= i mod 8 < 8) by (apply Z.mod_pos_bound; lia).
  rewrite lookup_app_l
    by (unfold write_le64_u; cbn [length]; lia).
  rewrite write_le64_u_lookup by lia. cbn [from_option id].
  rewrite byte_testbit by lia. f_equal.
  Z.to_euclidean_division_equations; lia.
Qed.

Lemma gen_words_bits words : forall s,
  0 <= remaining s <= 64 * Z.of_nat words ->
  forall i, 0 <= i < remaining s ->
    dense_bit (gen_words words s) i
    = default false (decisions (Z.to_nat (remaining s)) s !! Z.to_nat i).
Proof.
  induction words as [|n IH]; intros s Hr i Hi; [lia|].
  cbn [gen_words]. destruct (remaining s =? 0) eqn:E0; [lia|].
  set (bits_here := if 64 <=? remaining s then 64 else remaining s).
  assert (Hbh : 0 < bits_here <= 64 /\ bits_here <= remaining s).
  { unfold bits_here. destruct (Z.leb_spec 64 (remaining s)); lia. }
  destruct (gen_word_spec (Z.to_nat bits_here) 0 s 0) as (Hs & Hbits); [lia|lia|].
  destruct (gen_word (Z.to_nat bits_here) 0 s 0) as [w s'] eqn:Eg.
  cbn [fst snd] in Hs, Hbits. subst s'.
  replace (Z.to_nat (remaining s))
    with (Z.to_nat bits_here + Z.to_nat (remaining s - bits_here))%nat by lia.
  rewrite decisions_app.
  destruct (Z.lt_ge_cases i bits_here) as [Hlt|Hge].
  - rewrite dense_bit_word by lia. rewrite Hbits by lia.
    rewrite Z.bits_0, Z.sub_0_r. cbn [orb].
    destruct (Z.leb_spec 0 i); [|lia]. cbn [andb].
    rewrite lookup_app_l by (rewrite decisions_length; lia). reflexivity.
  - assert (bits_here = 64).
    { unfold bits_here in *. destruct (Z.leb_spec 64 (remaining s)); lia. }
    rewrite dense_bit_cons8 by (reflexivity || lia).
    rewrite lookup_app_r by (rewrite decisions_length; lia).
    rewrite decisions_length.
    pose proof (skip_remaining (Z.to_nat bits_here) s) as Hrem.
    rewrite IH by (rewrite Hrem; lia).
    rewrite Hrem. do 3 f_equal; lia.
Qed.

Lemma gen_words_length words : forall s,
  64 * (Z.of_nat words - 1) < remaining s <= 64 * Z.of_nat words ->
  length (gen_words words s) = (8 * words)%nat.
Proof.
  induction words as [|n IH]; intros s Hr; [reflexivity|].
  cbn [gen_words]. destruct (remaining s =? 0) eqn:E0; [lia|].
  set (bits_here := if 64 <=? remaining s then 64 else remaining s).
  destruct (gen_word_spec (Z.to_nat bits_here) 0 s 0) as (Hs & _).
  { lia. }
  { unfold bits_here. destruct (Z.leb_spec 64 (remaining s)); lia. }
  destruct (gen_word (Z.to_nat bits_here) 0 s 0) as [w s'] eqn:Eg.
  cbn [snd] in Hs. subst s'. rewrite length_app.
  change (length (write_le64_u w)) with 8%nat.
  destruct n as [|n].
  - reflexivity.
  - rewrite IH; [lia|]. rewrite skip_remaining.
    unfold bits_here. destruct (Z.leb_spec 64 (remaining s)); lia.
Qed.

(** ** The header *)

Lemma total_bits_of_pow4 a : 1 <= arg_k a <= 31 -> total_bits_of a = 4 ^ arg_k a.
Proof.
  intros Hk. unfold total_bits_of, wrap64. rewrite Z.shiftl_1_l.
  rewrite Z.mod_small.
  - rewrite Z.pow_mul_r by lia. reflexivity.
  - split; [apply Z.pow_nonneg; lia|apply Z.pow_lt_mono_r; lia].
Qed.

Lemma pow4_bounds k : 1 <= k <= 31 -> 4 <= 4 ^ k <= 2 ^ 62.
Proof.
  intros Hk. change 4 with (4 ^ 1) at 1. change (2 ^ 62) with (4 ^ 31).
  split; apply Z.pow_le_mono_r; lia.
Qed.

Lemma header_length a : length (header a) = 64%nat.
Proof. reflexivity. Qed.

Lemma take_header a : take 64 (gen_file a) = header a.
Proof.
  unfold gen_file. rewrite <- (header_length a). apply take_app_length.
Qed.

Lemma drop_header a : drop 64 (gen_file a) = payload a.
Proof.
  unfold gen_file. rewrite <- (header_length a). apply drop_app_length.
Qed.

Lemma header_parse a :
  1 <= arg_k a <= 31 -> 0 <= ones_rounded a ->
  let h := parse_header (header a) in
  total_bits h = 4 ^ arg_k a /\
  ones h = Z.min (ones_rounded a) (4 ^ arg_k a) /\
  hk h = arg_k a /\
  hflags h = 1 /\
  payload_len h = (4 ^ arg_k a + 7) / 8.
Proof.
  intros Hk Ho. pose proof (pow4_bounds _ Hk) as Hp.
  pose proof (total_bits_of_pow4 a Hk) as Ht.
  cbv zeta. unfold parse_header, header. cbn [total_bits ones hk hflags payload_len].
  change (drop 8 (magic ++ ?x)) with x.
  change (drop 16 (magic ++ write_le64_u ?a ++ ?x)) with x.
  change (drop 24 (magic ++ write_le64_u ?a ++ write_le64_u ?b ++ ?x)) with x.
  change (drop 40 (magic ++ write_le64_u ?a ++ write_le64_u ?b ++ write_le64_u ?c
                   ++ write_le64_u ?d ++ ?x)) with x.
  change (drop 48 (magic ++ write_le64_u ?a ++ write_le64_u ?b ++ write_le64_u ?c
                   ++ write_le64_u ?d ++ write_le64_u ?e ++ ?x)) with x.
  unfold ones_target_of, payload_bytes_of. rewrite Ht.
  change (2 ^ 62) with 4611686018427387904 in Hp.
  rewrite !read_write_le64;
    change (2 ^ 64) with 18446744073709551616;
    try lia; try (Z.to_euclidean_division_equations; lia).
Qed.

(** ** The number of one-bits *)

Lemma next_range g : 0 <= fst (next g) < 2 ^ 64.
Proof. unfold next. cbn [fst]. unfold wrap64. apply Z.mod_pos_bound. lia. Qed.

Lemma fast_bounded_range r bound :
  0 <= r < 2 ^ 64 -> 0 < bound -> 0 <= fast_bounded r bound < bound.
Proof.
  intros Hr Hb. unfold fast_bounded. rewrite Z.shiftr_div_pow2 by lia.
  split.
  - apply Z.div_pos; nia.
  - apply Z.div_lt_upper_bound; nia.
Qed.

Lemma choose_needed s :
  0 <= needed s <= remaining s -> 0 < remaining s ->
  needed (snd (choose s)) = needed s - (if fst (choose s) then 1 else 0) /\
  0 <= needed (snd (choose s)) <= remaining (snd (choose s)).
Proof.
  intros Hn Hr. rewrite choose_remaining. unfold choose.
  destruct (Z.eqb_spec (needed s) 0) as [E|E]; cbn [fst snd needed]; [lia|].
  pose proof (next_range (rng s)) as Hrng.
  destruct (next (rng s)) as [r g]. cbn [fst] in Hrng.
  pose proof (fast_bounded_range r (remaining s) Hrng Hr) as Hpick.
  destruct (Z.ltb_spec (fast_bounded r (remaining s)) (needed s));
    cbn [fst snd needed]; lia.
Qed.

Lemma decisions_count n : forall s,
  0 <= needed s <= remaining s -> Z.of_nat n <= remaining s ->
  Z.of_nat (length (List.filter (fun one : bool => one) (decisions n s)))
  = needed s - needed (skip n s) /\
  0 <= needed (skip n s) <= remaining (skip n s).
Proof.
  induction n as [|n IH]; intros s Hn Hr; cbn [decisions skip].
  - cbn. lia.
  - destruct (choose_needed s Hn) as (Hd & Hinv); [lia|].
    pose proof (choose_remaining s) as Hrem.
    destruct (choose s) as [one s'] eqn:Ec. cbn [fst snd] in *.
    destruct (IH s' Hinv) as (Hc & Hinv'); [lia|].
    split; [|exact Hinv'].
    cbn [List.filter]. destruct one; cbn [length]; lia.
Qed.

End GenFacts.

(** C9, as stated: the file the dense generator writes is read back
    through the shard loaders.  For [--k 3], both loaders stop at the
    flags check, whatever the bitmap library is; no key is exposed. *)
Lemma dense_file_is_not_loaded :
  (forall R : Roaring,
     @Kbit.load_kbit_portable R (Some (Gen.gen_file Examples.gen_args))
     = inl Kbit.NotPortable) /\
  (forall (R : Roaring) msg,
     @Query.load_kbit_portable R msg (Some (Gen.gen_file Examples.gen_args))
     = inl ["Error: expected roaring payload (flags=2)"%string]).
Proof.
  split; intros; vm_compute; reflexivity.
Qed.

(** C9 (as amended).  For k in 1..31 the dense generator writes a
    header with total_bits = 4^k, ones = min(wanted, 4^k), k,
    flags = 1 and payload_len = ceil(4^k / 8), followed by one 64-bit
    little-endian word for every 64 keys (8 * ceil(4^k / 64) bytes); in
    this payload key i is bit i & 7 of byte i >> 3, set iff the sampler
    chose i, and the sampler chooses exactly [ones] keys.  The shard
    loaders of the streaming search and of the membership query accept
    flags = 2 only and reject this file. *)
Theorem dense_file_layout_and_rejection `{Roaring} (a : Gen.Args) :
  1 <= Gen.arg_k a <= 31 -> 0 <= Gen.ones_rounded a ->
  let f := Gen.gen_file a in
  let h := Kbit.parse_header (take 64 f) in
  let n := 4 ^ Gen.arg_k a in
  take 8 f = Kbit.magic /\
  (Kbit.total_bits h = n /\ Kbit.ones h = Z.min (Gen.ones_rounded a) n /\
   Kbit.hk h = Gen.arg_k a /\ Kbit.hflags h = 1 /\
   Kbit.payload_len h = (n + 7) / 8) /\
  drop 64 f = Gen.payload a /\
  Z.of_nat (length (Gen.payload a)) = 8 * ((n + 63) / 64) /\
  (forall i, 0 <= i < n -> Gen.dense_bit (Gen.payload a) i = Gen.chosen a i) /\
  Gen.ones_written a = Kbit.ones h /\
  Kbit.load_kbit_portable (Some f) = inl Kbit.NotPortable /\
  (forall msg, Query.load_kbit_portable msg (Some f)
               = inl ["Error: expected roaring payload (flags=2)"%string]).
Proof.
  intros Hk Ho f h n.
  pose proof (GenFacts.pow4_bounds _ Hk) as Hp. fold n in Hp.
  change (2 ^ 62) with 4611686018427387904 in Hp.
  pose proof (GenFacts.total_bits_of_pow4 a Hk) as Ht. fold n in Ht.
  pose proof (GenFacts.header_parse a Hk Ho) as Hh. cbv zeta in Hh. fold n in Hh.
  assert (Htake : take 64 f = Gen.header a) by apply GenFacts.take_header.
  assert (Hh' : Kbit.total_bits h = n /\
                Kbit.ones h = Z.min (Gen.ones_rounded a) n /\
                Kbit.hk h = Gen.arg_k a /\ Kbit.hflags h = 1 /\
                Kbit.payload_len h = (n + 7) / 8).
  { unfold h. rewrite Htake. exact Hh. }
  assert (Hmagic : take 8 f = Kbit.magic) by reflexivity.
  split; [exact Hmagic|]. split; [exact Hh'|].
  split; [apply GenFacts.drop_header|].
  assert (Hinit : Gen.remaining (Gen.initial_sampler a) = n) by exact Ht.
  assert (Hneed : Gen.needed (Gen.initial_sampler a)
                  = Z.min (Gen.ones_rounded a) n).
  { unfold Gen.initial_sampler, Gen.ones_target_of. cbn [Gen.needed].
    rewrite Ht. reflexivity. }
  split; [|split; [|split; [|split]]].
  - unfold Gen.payload. rewrite GenFacts.gen_words_length.
    + rewrite Ht. Z.to_euclidean_division_equations; lia.
    + rewrite Hinit, Ht. Z.to_euclidean_division_equations; lia.
  - intros i Hi. unfold Gen.payload, Gen.chosen.
    rewrite GenFacts.gen_words_bits.
    + rewrite Hinit, Ht. reflexivity.
    + rewrite Hinit, Ht. Z.to_euclidean_division_equations; lia.
    + rewrite Hinit. exact Hi.
  - destruct Hh' as (_ & -> & _). unfold Gen.ones_written.
    destruct (GenFacts.decisions_count (Z.to_nat (Gen.total_bits_of a))
                (Gen.initial_sampler a)) as (Hc & Hinv).
    + rewrite Hinit, Hneed. lia.
    + rewrite Hinit, Ht. lia.
    + rewrite Hc. rewrite GenFacts.skip_remaining, Hinit, Ht in Hinv.
      rewrite Hneed, Ht. lia.
  - unfold Kbit.load_kbit_portable. cbv zeta. fold f. rewrite Htake.
    rewrite GenFacts.header_length.
    change (take 8 (Gen.header a)) with Kbit.magic.
    destruct Hh as (_ & _ & _ & -> & _). reflexivity.
  - intros msg. unfold Query.load_kbit_portable, Query.read_header.
    cbv zeta. fold f. rewrite Htake, GenFacts.header_length.
    change (take 8 (Gen.header a)) with Kbit.magic.
    rewrite bool_decide_eq_true_2 by reflexivity. cbn [negb].
    change (64 <? 64)%nat with false. cbv beta iota.
    destruct Hh as (_ & _ & _ & -> & _). reflexivity.
Qed.

Lemma dense_file_layout_and_rejection_witness :
  let a := Examples.gen_args in
  (1 <= Gen.arg_k a <= 31 /\ 0 <= Gen.ones_rounded a) /\
  Kbit.hflags (Kbit.parse_header (take 64 (Gen.gen_file a))) = 1 /\
  Z.of_nat (length (Gen.payload a)) = 8 /\
  (forall i, 0 <= i < 64 -> Gen.dense_bit (Gen.payload a) i = Gen.chosen a i) /\
  Gen.ones_written a = 8 /\
  @Kbit.load_kbit_portable KeyListRoaring (Some (Gen.gen_file a))
  = inl Kbit.NotPortable.
Proof.
  cbv zeta.
  assert (Hk : 1 <= Gen.arg_k Examples.gen_args <= 31) by (simpl; lia).
  assert (Ho : 0 <= Gen.ones_rounded Examples.gen_args) by (simpl; lia).
  split; [split; assumption|].
  destruct (@dense_file_layout_and_rejection KeyListRoaring _ Hk Ho)
    as (_ & (_ & Hones & _ & Hfl & _) & _ & Hlen & Hbits & Hw & Hload & _).
  split; [exact Hfl|]. split; [exact Hlen|]. split; [exact Hbits|].
  split; [rewrite Hw, Hones; reflexivity|exact Hload].
Defined.


(** * More on the token codec *)

Module CodecFacts.
Import Dna B64 Cursor.

Lemma b64_char_in i : 0 <= i < 64 -> In (b64_char i) B64URL.
Proof.
  intros Hi. unfold b64_char. apply nth_In.
  change (length B64URL) with 64%nat. lia.
Qed.

Lemma sextet_in x : In (b64_char (Z.land x 63)) B64URL.
Proof.
  apply b64_char_in. rewrite B64Facts.land_63. apply Z.mod_pos_bound. lia.
Qed.

Lemma emit_sextets_spec n : forall buf bits out,
  exists new,
    emit_sextets n buf bits out = (bits - 6 * Z.of_nat n, out ++ new) /\
    length new = n /\ Forall (fun c => In c B64URL) new.
Proof.
  induction n as [|n IH]; intros buf bits out; cbn [emit_sextets].
  - exists []. rewrite app_nil_r. split; [f_equal; lia|]. split; [reflexivity|constructor].
  - destruct (IH buf (bits - 6)
                 (out ++ [b64_char (Z.land (Z.shiftr buf (bits - 6)) 63)]))
      as (new & -> & Hl & Hf).
    exists (b64_char (Z.land (Z.shiftr buf (bits - 6)) 63) :: new).
    split; [rewrite <- app_assoc; f_equal; lia|].
    split; [cbn [length]; lia|]. constructor; [apply sextet_in|exact Hf].
Qed.

Lemma encode_fold l : forall buf bits out,
  0 <= bits < 6 -> Forall (fun c => In c B64URL) out ->
  exists buf' bits' out',
    fold_left encode_step l (buf, bits, out) = (buf', bits', out') /\
    0 <= bits' < 6 /\
    6 * Z.of_nat (length out') + bits'
    = 6 * Z.of_nat (length out) + bits + 8 * Z.of_nat (length l) /\
    Forall (fun c => In c B64URL) out'.
Proof.
  induction l as [|c l IH]; intros buf bits out Hb Ho; cbn [fold_left].
  - exists buf, bits, out. cbn [length]. repeat split; try lia; assumption.
  - destruct (emit_sextets_spec (Z.to_nat ((bits + 8) / 6))
                (wrap32 (Z.lor (Z.shiftl buf 8) c)) (bits + 8) out)
      as (new & He & Hl & Hf).
    assert (Hstep : encode_step (buf, bits, out) c
                    = (wrap32 (Z.lor (Z.shiftl buf 8) c),
                       bits + 8 - 6 * Z.of_nat (Z.to_nat ((bits + 8) / 6)),
                       out ++ new))
      by (unfold encode_step; rewrite He; reflexivity).
    rewrite Hstep. clear Hstep He.
    assert (Hq : 0 <= (bits + 8) / 6) by (apply Z.div_pos; lia).
    destruct (IH (wrap32 (Z.lor (Z.shiftl buf 8) c))
                 (bits + 8 - 6 * Z.of_nat (Z.to_nat ((bits + 8) / 6)))
                 (out ++ new)) as (buf' & bits' & out' & -> & Hb' & Hlen & Hf').
    + rewrite Z2Nat.id by lia. Z.to_euclidean_division_equations; lia.
    + apply Forall_app. split; assumption.
    + exists buf', bits', out'. split; [reflexivity|]. split; [exact Hb'|].
      split; [|exact Hf'].
      rewrite Hlen, length_app, Hl. cbn [length]. lia.
Qed.

Lemma b64url_encode_spec (l : list Z) :
  Forall (fun c => In c B64URL) (b64url_encode l) /\
  Z.of_nat (length (b64url_encode l)) = (4 * Z.of_nat (length l) + 2) / 3.
Proof.
  unfold b64url_encode.
  destruct (encode_fold l 0 0 []) as (buf & bits & out & -> & Hb & Hl & Hf);
    [lia|constructor|].
  cbn [length] in Hl.
  destruct (Z.eqb_spec bits 0) as [->|Hne].
  - split; [exact Hf|]. Z.to_euclidean_division_equations; lia.
  - split.
    + apply Forall_app. split; [exact Hf|].
      constructor; [apply sextet_in|constructor].
    + rewrite length_app. cbn [length].
      Z.to_euclidean_division_equations; lia.
Qed.

Lemma index_of_spec c l : forall i,
  0 <= i ->
  (index_of c l i < 0 <-> ~ In c l) /\ (index_of c l i < 0 \/ i <= index_of c l i).
Proof.
  induction l as [|x l IH]; intros i Hi; cbn [index_of].
  - split; [|left; lia]. split; [intros _ []|lia].
  - destruct (Ascii.eqb_spec x c) as [->|Hne].
    + split; [|right; lia]. split; [lia|]. intros Hn. exfalso. apply Hn. left. reflexivity.
    + destruct (IH (i + 1)) as (Hiff & Hor); [lia|]. split; [|lia].
      rewrite Hiff. split.
      * intros Hn [E|Hin]; [congruence|contradiction].
      * intros Hn Hin. apply Hn. right. exact Hin.
Qed.

Lemma b64_T_neg c : b64_T c < 0 <-> ~ In c B64URL.
Proof. unfold b64_T. apply index_of_spec. lia. Qed.

Lemma decode_go_None s : forall buf bits out,
  decode_go s buf bits out = None <-> exists c, In c s /\ ~ In c B64URL.
Proof.
  induction s as [|ch s IH]; intros buf bits out; cbn [decode_go].
  - split; [discriminate|]. intros (c & [] & _).
  - destruct (Z.ltb_spec (b64_T ch) 0) as [Hneg|Hpos].
    + split; [|reflexivity]. intros _. exists ch. split; [left; reflexivity|].
      apply b64_T_neg. exact Hneg.
    + assert (Hin : ~ ~ In ch B64URL).
      { intros Hn. apply b64_T_neg in Hn. lia. }
      destruct (8 <=? bits + 6); rewrite IH; split.
      * intros (c & Hc & Hn). exists c. split; [right; exact Hc|exact Hn].
      * intros (c & [<-|Hc] & Hn); [contradiction|]. eauto.
      * intros (c & Hc & Hn). exists c. split; [right; exact Hc|exact Hn].
      * intros (c & [<-|Hc] & Hn); [contradiction|]. eauto.
Qed.

Lemma decode_go_length s : forall buf bits out l,
  0 <= bits < 8 ->
  decode_go s buf bits out = Some l ->
  exists bits', 0 <= bits' < 8 /\
    8 * Z.of_nat (length l) + bits'
    = 8 * Z.of_nat (length out) + bits + 6 * Z.of_nat (length s).
Proof.
  induction s as [|ch s IH]; intros buf bits out l Hb Hd; cbn [decode_go] in Hd.
  - injection Hd as <-. exists bits. cbn [length]. lia.
  - destruct (b64_T ch <? 0); [discriminate|].
    destruct (Z.leb_spec 8 (bits + 6)).
    + apply IH in Hd; [|lia]. destruct Hd as (bits' & Hb' & Hl).
      exists bits'. split; [exact Hb'|].
      rewrite Hl, length_app. cbn [length]. lia.
    + apply IH in Hd; [|lia]. destruct Hd as (bits' & Hb' & Hl).
      exists bits'. split; [exact Hb'|]. rewrite Hl. cbn [length]. lia.
Qed.

(** ** Reads inside the vector *)

Ltac at_got b :=
  repeat match goal with
  | |- context [at_ b ?o] =>
      let x := fresh "x" in
      destruct (B64Facts.at_in_range b o) as (x & -> & _);
      [unfold size in *; lia|]; cbn [rd_bind]
  end.

Lemma read_u16_le_total b off :
  0 <= off ->
  (read_u16_le b off = Bad <-> size b < off + 2) /\
  read_u16_le b off <> OutOfBounds.
Proof.
  intros Hoff. unfold read_u16_le.
  destruct (Z.ltb_spec (size b) (off + 2)) as [Hs|Hs].
  - split; [tauto|discriminate].
  - at_got b. split; [|discriminate]. split; [discriminate|lia].
Qed.

Lemma read_u32_le_total b off :
  0 <= off ->
  (read_u32_le b off = Bad <-> size b < off + 4) /\
  read_u32_le b off <> OutOfBounds.
Proof.
  intros Hoff. unfold read_u32_le.
  destruct (Z.ltb_spec (size b) (off + 4)) as [Hs|Hs].
  - split; [tauto|discriminate].
  - at_got b. split; [|discriminate]. split; [discriminate|lia].
Qed.

Lemma read_u64_le_total b off :
  0 <= off ->
  (read_u64_le b off = Bad <-> size b < off + 8) /\
  read_u64_le b off <> OutOfBounds.
Proof.
  intros Hoff. unfold read_u64_le.
  destruct (Z.ltb_spec (size b) (off + 8)) as [Hs|Hs].
  - split; [tauto|discriminate].
  - cbn [read_le_go]. at_got b. split; [|discriminate]. split; [discriminate|lia].
Qed.

End CodecFacts.

(** X1.  Decoding the base64url text of a byte vector gives the vector
    back. *)
Theorem b64url_decode_inverts_encode (l : list Z) :
  Forall B64.is_byte l -> B64.b64url_decode (B64.b64url_encode l) = Some l.
Proof. apply B64Facts.b64url_decode_encode. Qed.

Lemma b64url_decode_inverts_encode_witness :
  Forall B64.is_byte [66; 67; 87; 50; 255] /\
  B64.b64url_decode (B64.b64url_encode [66; 67; 87; 50; 255])
  = Some [66; 67; 87; 50; 255].
Proof.
  assert (H : Forall B64.is_byte [66; 67; 87; 50; 255])
    by (repeat constructor; unfold B64.is_byte; lia).
  split; [exact H|]. exact (b64url_decode_inverts_encode _ H).
Defined.

(** X2.  The encoder writes characters of the URL-safe alphabet only,
    without padding: ceil(4n/3) characters for n input elements,
    which is the size it reserves. *)
Theorem b64url_encode_alphabet_and_length (l : list Z) :
  Forall (fun c => In c B64.B64URL) (B64.b64url_encode l) /\
  Z.of_nat (length (B64.b64url_encode l)) = (4 * Z.of_nat (length l) + 2) / 3.
Proof. apply CodecFacts.b64url_encode_spec. Qed.

(** X3.  The decoder fails exactly on the texts that hold a character
    outside the alphabet (so also on '=' padding); otherwise it
    returns floor(3n/4) bytes for n characters, whatever bits are left
    over. *)
Theorem b64url_decode_fails_on_foreign_chars_only (s : Dna.str) :
  (B64.b64url_decode s = None <-> exists c, In c s /\ ~ In c B64.B64URL) /\
  (forall l, B64.b64url_decode s = Some l ->
     Z.of_nat (length l) = 3 * Z.of_nat (length s) / 4 /\ Forall B64.is_byte l).
Proof.
  split; [apply CodecFacts.decode_go_None|].
  intros l Hd. split; [|eapply B64Facts.b64url_decode_bytes; exact Hd].
  apply CodecFacts.decode_go_length in Hd; [|lia].
  destruct Hd as (bits' & Hb & Hl). cbn [length] in Hl.
  Z.to_euclidean_division_equations; lia.
Qed.

(** X4.  A little-endian field pushed onto a vector is read back at
    its offset, whatever precedes and follows it. *)
Theorem le_fields_read_back (p q : list Z) (x16 x32 x64 : Z) :
  is_u16 x16 -> is_u32 x32 -> is_u64 x64 ->
  B64.read_u16_le (p ++ B64.push_u16_le x16 ++ q) (B64.size p) = B64.Got x16 /\
  B64.read_u32_le (p ++ B64.push_u32_le x32 ++ q) (B64.size p) = B64.Got x32 /\
  B64.read_u64_le (p ++ B64.push_u64_le x64 ++ q) (B64.size p) = B64.Got x64.
Proof.
  intros H16 H32 H64. split; [|split].
  - eapply B64Facts.read_u16_le_split; [reflexivity|reflexivity|exact H16].
  - eapply B64Facts.read_u32_le_split; [reflexivity|reflexivity|exact H32].
  - eapply B64Facts.read_u64_le_split; [reflexivity|reflexivity|exact H64].
Qed.

Lemma le_fields_read_back_witness :
  B64.read_u16_le ([7] ++ B64.push_u16_le 513 ++ [9]) 1 = B64.Got 513 /\
  B64.read_u32_le ([7] ++ B64.push_u32_le 67305985 ++ [9]) 1 = B64.Got 67305985 /\
  B64.read_u64_le ([7] ++ B64.push_u64_le (2 ^ 64 - 1) ++ [9]) 1
  = B64.Got (2 ^ 64 - 1).
Proof.
  apply (le_fields_read_back [7] [9] 513 67305985 (2 ^ 64 - 1));
    unfold is_u16, is_u32, is_u64; simpl; lia.
Defined.




(** * K-mers as text and as keys *)

Module DnaFacts.
Import Dna Filters Notions.

Lemma land_3_range x : 0 <= Z.land x 3 < 4.
Proof. rewrite FilterFacts.land_3. apply Z.mod_pos_bound. lia. Qed.

Lemma land_3_cases x :
  Z.land x 3 = 0 \/ Z.land x 3 = 1 \/ Z.land x 3 = 2 \/ Z.land x 3 = 3.
Proof. pose proof (land_3_range x). lia. Qed.

Lemma land_3_idem x : Z.land (Z.land x 3) 3 = Z.land x 3.
Proof. rewrite <- Z.land_assoc. reflexivity. Qed.

(** The digit the query's table gives for a printed letter. *)
Lemma base_lut_base4_char x : Query.base_lut (base4_char x) = Z.land x 3.
Proof.
  unfold base4_char.
  destruct (land_3_cases x) as [E|[E|[E|E]]]; rewrite E; reflexivity.
Qed.

Lemma base4_digit_base4_char x : base4_digit (base4_char x) = Z.land x 3.
Proof.
  unfold base4_char.
  destruct (land_3_cases x) as [E|[E|[E|E]]]; rewrite E; reflexivity.
Qed.

Lemma base_lut_cases c :
  Query.base_lut c = 255 \/
  (0 <= Query.base_lut c <= 3 /\ base4_char (Query.base_lut c) = upper_base c
   /\ is_acgt c).
Proof.
  destruct c as [[] [] [] [] [] [] [] []];
    first [ left; reflexivity
          | right; split; [cbn; lia|]; split; [reflexivity|];
            unfold is_acgt; cbn; tauto ].
Qed.

Lemma decode_kmer_go_length k : forall v, length (decode_kmer_go k v) = k.
Proof.
  induction k as [|k IH]; intros v; cbn [decode_kmer_go]; [reflexivity|].
  rewrite length_app, IH. cbn [length]. lia.
Qed.

Lemma encode_go_app s t : forall v,
  Query.encode_go (s ++ t) v
  = match Query.encode_go s v with
    | Some a => Query.encode_go t a
    | None => None
    end.
Proof.
  induction s as [|c s IH]; intros v; cbn [app Query.encode_go]; [reflexivity|].
  destruct (Query.base_lut c =? 255); [reflexivity|]. apply IH.
Qed.

(** Appending one digit to a value of at most 31 digits. *)
Lemma push_digit a d n :
  0 <= n <= 31 -> 0 <= a < 4 ^ n -> 0 <= d <= 3 ->
  Z.lor (wrap64 (Z.shiftl a 2)) d = 4 * a + d.
Proof.
  intros Hn Ha Hd.
  assert (4 ^ n <= 4 ^ 31) by (apply Z.pow_le_mono_r; lia).
  change (4 ^ 31) with 4611686018427387904 in *.
  unfold wrap64. rewrite Z.shiftl_mul_pow2 by lia. change (2 ^ 2) with 4.
  rewrite Z.mod_small by (change (2 ^ 64) with 18446744073709551616; lia).
  change 4 with (2 ^ 2) at 1. rewrite <- Z.shiftl_mul_pow2 by lia.
  rewrite ExpansionFacts.lor_shiftl_add by (change (2 ^ 2) with 4; lia).
  change (2 ^ 2) with 4. lia.
Qed.

Lemma encode_decode_go k : forall v,
  (k <= 32)%nat -> 0 <= v ->
  Query.encode_go (decode_kmer_go k v) 0 = Some (v mod 4 ^ Z.of_nat k).
Proof.
  induction k as [|k IH]; intros v Hk Hv; cbn [decode_kmer_go].
  - cbn. rewrite Z.mod_1_r. reflexivity.
  - rewrite encode_go_app, IH by (try lia; apply Z.shiftr_nonneg; lia).
    cbn [Query.encode_go]. rewrite base_lut_base4_char, land_3_idem.
    pose proof (land_3_range v) as Hd.
    destruct (Z.eqb_spec (Z.land v 3) 255); [lia|]. f_equal.
    assert (H4 : 0 < 4 ^ Z.of_nat k) by (apply Z.pow_pos_nonneg; lia).
    rewrite (push_digit _ _ (Z.of_nat k)); try lia;
      [|apply Z.mod_pos_bound; lia].
    rewrite Z.shiftr_div_pow2 by lia. change (2 ^ 2) with 4.
    rewrite FilterFacts.land_3.
    replace (Z.of_nat (S k)) with (1 + Z.of_nat k) by lia.
    rewrite Z.pow_add_r by lia. change (4 ^ 1) with 4.
    rewrite Z.rem_mul_r by lia. lia.
Qed.

Lemma decode_encode_go s : forall v,
  (length s <= 32)%nat ->
  Query.encode_go s 0 = Some v ->
  0 <= v < 4 ^ Z.of_nat (length s) /\
  decode_kmer_go (length s) v = map upper_base s /\
  Forall is_acgt s.
Proof.
  induction s as [|c s IH] using rev_ind; intros v Hl He.
  - cbn in He. injection He as <-. cbn. split; [lia|]. split; [reflexivity|constructor].
  - rewrite length_app in Hl. cbn [length] in Hl.
    rewrite encode_go_app in He.
    destruct (Query.encode_go s 0) as [a|] eqn:Ea; [|discriminate].
    destruct (IH a) as (Ha & Hd & Hf); [lia|reflexivity|].
    cbn [Query.encode_go] in He.
    destruct (base_lut_cases c) as [E|(Hr & Hu & Hc)].
    { rewrite E in He. discriminate. }
    destruct (Z.eqb_spec (Query.base_lut c) 255); [lia|].
    injection He as <-.
    rewrite (push_digit _ _ (Z.of_nat (length s))) by lia.
    rewrite length_app. cbn [length]. rewrite Nat.add_1_r.
    split; [|split].
    + replace (Z.of_nat (S (length s))) with (1 + Z.of_nat (length s)) by lia.
      rewrite Z.pow_add_r by lia. change (4 ^ 1) with 4. lia.
    + cbn [decode_kmer_go]. rewrite map_app. cbn [map].
      rewrite Z.shiftr_div_pow2 by lia. change (2 ^ 2) with 4.
      replace ((4 * a + Query.base_lut c) / 4) with a
        by (Z.to_euclidean_division_equations; lia).
      rewrite Hd. f_equal. f_equal. rewrite <- Hu. f_equal.
      rewrite FilterFacts.land_3. Z.to_euclidean_division_equations; lia.
    + apply Forall_app. split; [exact Hf|]. constructor; [exact Hc|constructor].
Qed.

(** ** Reverse complement *)

Lemma dna_comp_involutive c : is_acgt c -> dna_comp (dna_comp c) = c /\ is_acgt (dna_comp c).
Proof.
  unfold is_acgt. cbn. intros [<-|[<-|[<-|[<-|[<-|[<-|[<-|[<-|[]]]]]]]]];
    cbn; tauto.
Qed.

Lemma dna_comp_foreign c : ~ is_acgt c -> dna_comp c = "?"%char.
Proof.
  intros Hn.
  destruct c as [[] [] [] [] [] [] [] []];
    first [ reflexivity | exfalso; apply Hn; unfold is_acgt; cbn; tauto ].
Qed.

(** ** The GC count *)

Lemma gc_count_go_letters k : forall v gc,
  gc_count_go k v gc = gc + gc_letters (decode_kmer_go k v).
Proof.
  induction k as [|k IH]; intros v gc; cbn [gc_count_go decode_kmer_go].
  - unfold gc_letters. cbn. lia.
  - rewrite IH. unfold gc_letters.
    rewrite List.filter_app, length_app. cbn [List.filter].
    unfold base4_char. rewrite land_3_idem.
    destruct (land_3_cases v) as [E|[E|[E|E]]]; rewrite E; cbn; lia.
Qed.

End DnaFacts.

(** X6.  A printed k-mer addresses its key: the text the streaming
    search prints for a key, given to the encoder of the membership
    query, yields the k low digits of the key (the key itself when it
    is below 4^k). *)
Theorem printed_kmer_encodes_to_its_key (v k : Z) :
  0 <= v -> 0 <= k <= 32 ->
  Z.of_nat (length (Dna.decode_kmer v k)) = k /\
  Query.encode_kmer_sv (Dna.decode_kmer v k) k = Some (v mod 4 ^ k).
Proof.
  intros Hv Hk. unfold Dna.decode_kmer, Query.encode_kmer_sv.
  rewrite DnaFacts.decode_kmer_go_length, Z2Nat.id by lia.
  split; [reflexivity|]. rewrite Z.eqb_refl. cbn [negb].
  rewrite DnaFacts.encode_decode_go by lia. rewrite Z2Nat.id by lia. reflexivity.
Qed.

Lemma printed_kmer_encodes_to_its_key_witness :
  Query.encode_kmer_sv (Dna.decode_kmer 27 16) 16 = Some (27 mod 4 ^ 16).
Proof.
  apply (printed_kmer_encodes_to_its_key 27 16); lia.
Defined.

(** X7.  A line the encoder accepts consists of k letters of ACGTacgt,
    its key is below 4^k, and the key is printed as the same letters
    in upper case. *)
Theorem accepted_kmer_decodes_to_upper_case (s : Dna.str) (k v : Z) :
  k <= 32 ->
  Query.encode_kmer_sv s k = Some v ->
  Z.of_nat (length s) = k /\ Forall Notions.is_acgt s /\
  0 <= v < 4 ^ k /\
  Dna.decode_kmer v k = map Notions.upper_base s.
Proof.
  intros Hk He. unfold Query.encode_kmer_sv in He.
  destruct (Z.eqb_spec (Z.of_nat (length s)) k) as [E|E]; [|discriminate].
  cbn [negb] in He.
  destruct (DnaFacts.decode_encode_go s v) as (Hr & Hd & Hf); [lia|exact He|].
  split; [exact E|]. split; [exact Hf|]. rewrite <- E. split; [exact Hr|].
  unfold Dna.decode_kmer. rewrite Nat2Z.id. exact Hd.
Qed.

Lemma accepted_kmer_decodes_to_upper_case_witness :
  Dna.decode_kmer 27 4 = map Notions.upper_base (Dna.lit "aCgT").
Proof.
  assert (Hk : 4 <= 32) by lia.
  assert (He : Query.encode_kmer_sv (Dna.lit "aCgT") 4 = Some 27) by reflexivity.
  exact (proj2 (proj2 (proj2
    (accepted_kmer_decodes_to_upper_case (Dna.lit "aCgT") 4 27 Hk He)))).
Defined.

(** X8.  The reverse complement keeps the length; on a string of
    letters ACGTacgt it yields such a string again and is its own
    inverse; any other character becomes '?'. *)
Theorem revcomp_string_involutive (s : Dna.str) :
  length (Dna.revcomp_string s) = length s /\
  (Forall Notions.is_acgt s ->
     Forall Notions.is_acgt (Dna.revcomp_string s) /\
     Dna.revcomp_string (Dna.revcomp_string s) = s) /\
  (forall c, ~ Notions.is_acgt c -> Dna.dna_comp c = "?"%char).
Proof.
  unfold Dna.revcomp_string. split; [|split].
  - rewrite length_rev, length_map. reflexivity.
  - intros Hf. split.
    + apply Forall_rev, Forall_forall. intros c Hc.
      apply list_elem_of_In, in_map_iff in Hc as (c0 & <- & Hc0).
      rewrite Forall_forall in Hf.
      apply DnaFacts.dna_comp_involutive, Hf, list_elem_of_In, Hc0.
    + rewrite map_rev, rev_involutive, map_map.
      rewrite <- (map_id s) at 2. apply map_ext_in. intros c Hc.
      rewrite Forall_forall in Hf.
      apply DnaFacts.dna_comp_involutive, Hf, list_elem_of_In, Hc.
  - apply DnaFacts.dna_comp_foreign.
Qed.

(** X9.  The GC filter counts the letters C and G of the k-mer as it
    is printed; the count lies in [0, k], and the test compares
    count * 100 with gcMin * k and gcMax * k in integers. *)
Theorem gc_count_counts_printed_letters (v k lo hi : Z) :
  0 <= k ->
  Filters.gc_count v k = Notions.gc_letters (Dna.decode_kmer v k) /\
  0 <= Filters.gc_count v k <= k /\
  (Filters.passes_gc_percent v k lo hi = true <->
   lo * k <= Notions.gc_letters (Dna.decode_kmer v k) * 100 <= hi * k).
Proof.
  intros Hk.
  assert (E : Filters.gc_count v k = Notions.gc_letters (Dna.decode_kmer v k)).
  { unfold Filters.gc_count, Dna.decode_kmer.
    rewrite DnaFacts.gc_count_go_letters. lia. }
  split; [exact E|]. split.
  - rewrite E. unfold Notions.gc_letters, Dna.decode_kmer.
    pose proof (List.filter_length_le Notions.gc_letter
                  (Dna.decode_kmer_go (Z.to_nat k) v)) as Hle.
    rewrite DnaFacts.decode_kmer_go_length in Hle. lia.
  - unfold Filters.passes_gc_percent. cbv zeta. rewrite E.
    rewrite andb_true_iff, !Z.leb_le. reflexivity.
Qed.

Lemma gc_count_counts_printed_letters_witness :
  Filters.gc_count 27 4 = Notions.gc_letters (Dna.decode_kmer 27 4).
Proof.
  assert (Hk : 0 <= 4) by lia.
  exact (proj1 (gc_count_counts_printed_letters 27 4 0 100 Hk)).
Defined.


(** * Patterns, children and the shard order *)

Module PatternFacts.
Import Dna Filters Notions.

(** Within 64 bits the shifts of [pattern_at] lose nothing. *)
Lemma pattern_at_exact kout m sb pos :
  1 <= m -> kout <= 32 -> 0 <= pos <= kout - m -> 0 <= sb < 4 ^ m ->
  pattern_at kout m sb pos
  = mkPattern (Z.shiftl (Z.ones (2 * m)) (2 * (kout - m - pos)))
              (Z.shiftl sb (2 * (kout - m - pos))).
Proof.
  intros Hm Hk Hpos Hsb. unfold pattern_at.
  set (shift := 2 * (kout - m - pos)).
  assert (Hshift : 0 <= shift) by (unfold shift; lia).
  assert (Hfit : shift + 2 * m <= 64) by (unfold shift; lia).
  rewrite FilterFacts.base_mask_ones by lia.
  assert (0 < 2 ^ (2 * m)) by (apply Z.pow_pos_nonneg; lia).
  assert (0 < 2 ^ shift) by (apply Z.pow_pos_nonneg; lia).
  assert (2 ^ (2 * m) * 2 ^ shift <= 2 ^ 64).
  { rewrite <- Z.pow_add_r by lia. apply Z.pow_le_mono_r; lia. }
  f_equal; unfold wrap64; apply Z.mod_small.
  - rewrite Z.shiftl_mul_pow2, Z.ones_equiv by lia. nia.
  - rewrite Z.shiftl_mul_pow2 by lia.
    rewrite ExpansionFacts.pow4_pow2 in Hsb by lia. nia.
Qed.

(** The string at offset [pos] makes the pattern for [pos] hit. *)
Lemma occurs_pattern_hit v kout sub sb pos :
  let m := Z.of_nat (length sub) in
  1 <= m -> kout <= 32 ->
  encode_sub sub 0 = Some sb ->
  occurs_at v kout sub pos ->
  pattern_hit v (pattern_at kout m sb pos) = true.
Proof.
  intros m Hm Hk Henc (Hpos & Hocc). fold m in Hpos.
  destruct (FilterFacts.encode_sub_digits sub 0 0 sb Henc) as (Hsb & _ & Hdig);
    [lia|simpl; lia|fold m; lia|].
  fold m in Hsb, Hdig. rewrite Z.add_0_l in Hsb.
  rewrite pattern_at_exact by lia.
  unfold pattern_hit. cbn [pmask pbits].
  set (shift := 2 * (kout - m - pos)).
  assert (Hshift : 0 <= shift) by (unfold shift; lia).
  apply Z.eqb_eq, Z.bits_inj'. intros n Hn.
  rewrite Z.bits_0, Z.land_spec, Z.lxor_spec, !Z.shiftl_spec by lia.
  destruct (Z.lt_ge_cases n shift) as [Hlo|Hlo].
  { rewrite (Z.testbit_neg_r (Z.ones _)) by lia. apply andb_false_r. }
  destruct (Z.lt_ge_cases (n - shift) (2 * m)) as [Hhi|Hhi].
  2:{ rewrite Z.ones_spec_high by lia. apply andb_false_r. }
  rewrite Z.ones_spec_low by lia. rewrite andb_true_r.
  set (t := n - shift) in *.
  set (j := Z.to_nat (m - 1 - t / 2)).
  assert (Ht2 : 0 <= t / 2 < m) by (Z.to_euclidean_division_equations; lia).
  assert (Hj : (j < length sub)%nat) by (unfold j, m in *; lia).
  destruct (lookup_lt_is_Some_2 sub j Hj) as [c Hc].
  specialize (Hocc j Hj). unfold str in *. rewrite Hc in Hocc.
  cbn [fmap option_fmap option_map] in Hocc. injection Hocc as Hocc.
  rewrite <- (Hdig j c Hc) in Hocc. unfold digit_at in Hocc.
  assert (Hbit : Z.testbit (Z.land (Z.shiftr v (2 * (kout - 1 - (pos + Z.of_nat j)))) 3)
                           (t mod 2)
                 = Z.testbit (Z.land (Z.shiftr sb (2 * (m - 1 - Z.of_nat j))) 3)
                             (t mod 2)) by (rewrite Hocc; reflexivity).
  assert (Hi : 0 <= t mod 2 < 2) by (apply Z.mod_pos_bound; lia).
  rewrite !Z.land_spec, !Z.shiftr_spec in Hbit by lia.
  change 3 with (Z.ones 2) in Hbit. rewrite Z.ones_spec_low in Hbit by lia.
  rewrite !andb_true_r in Hbit.
  replace (t mod 2 + 2 * (kout - 1 - (pos + Z.of_nat j))) with n in Hbit
    by (unfold j, shift, t in *; Z.to_euclidean_division_equations; lia).
  replace (t mod 2 + 2 * (m - 1 - Z.of_nat j)) with t in Hbit
    by (unfold j in *; Z.to_euclidean_division_equations; lia).
  rewrite Hbit. apply xorb_nilpotent.
Qed.

Lemma append_patterns_for_complete kout sub pats0 pats v :
  kout <= 32 -> sub <> [] ->
  append_patterns_for kout sub pats0 = inr pats ->
  contains_sub v pats0 = true \/ occurs v kout sub ->
  contains_sub v pats = true.
Proof.
  intros Hk Hne Happ Hor. unfold append_patterns_for in Happ.
  assert (Hm : 1 <= Z.of_nat (length sub)) by (destruct sub; [congruence|cbn; lia]).
  destruct (Z.eqb_spec (Z.of_nat (length sub)) 0) as [E|E]; [lia|].
  destruct (Z.ltb_spec kout (Z.of_nat (length sub))); [discriminate|].
  destruct (encode_sub sub 0) as [sb|] eqn:Henc; [|discriminate].
  injection Happ as <-. unfold contains_sub in *. rewrite existsb_app.
  apply orb_true_iff. destruct Hor as [H0|(pos & Hocc)]; [left; exact H0|right].
  apply existsb_exists. exists (pattern_at kout (Z.of_nat (length sub)) sb pos).
  split.
  - apply in_map, list_elem_of_In, elem_of_seqZ. destruct Hocc as (Hpos & _). lia.
  - apply occurs_pattern_hit; assumption.
Qed.

Lemma str_eqb_true a b : str_eqb a b = true -> a = b.
Proof.
  unfold str_eqb. destruct (List.list_eq_dec ascii_dec a b); [auto|discriminate].
Qed.

Lemma revcomp_nonempty s : s <> [] -> revcomp_string s <> [].
Proof.
  intros Hne E. apply Hne. apply (f_equal (@length ascii)) in E.
  unfold revcomp_string in E. rewrite length_rev, length_map in E.
  destruct s; [reflexivity|discriminate].
Qed.

(** ** A child as text *)

Lemma decode_kmer_go_split b : forall a x y,
  0 <= x -> 0 <= y < 4 ^ Z.of_nat b ->
  decode_kmer_go (a + b) (x * 4 ^ Z.of_nat b + y)
  = decode_kmer_go a x ++ decode_kmer_go b y.
Proof.
  induction b as [|b IH]; intros a x y Hx Hy.
  - cbn [decode_kmer_go]. rewrite Nat.add_0_r, app_nil_r.
    change (4 ^ Z.of_nat 0) with 1 in *. f_equal. lia.
  - replace (a + S b)%nat with (S (a + b)) by lia. cbn [decode_kmer_go].
    replace (Z.of_nat (S b)) with (1 + Z.of_nat b) in * by lia.
    rewrite Z.pow_add_r in * by lia. change (4 ^ 1) with 4 in *.
    assert (H4 : 0 < 4 ^ Z.of_nat b) by (apply Z.pow_pos_nonneg; lia).
    rewrite !Z.shiftr_div_pow2 by lia. change (2 ^ 2) with 4.
    replace ((x * (4 * 4 ^ Z.of_nat b) + y) / 4)
      with (x * 4 ^ Z.of_nat b + y / 4)
      by (Z.to_euclidean_division_equations; nia).
    rewrite IH by (try lia; Z.to_euclidean_division_equations; nia).
    rewrite <- app_assoc. do 4 f_equal.
    rewrite !FilterFacts.land_3.
    replace (x * (4 * 4 ^ Z.of_nat b) + y) with (y + x * 4 ^ Z.of_nat b * 4) by ring.
    apply Z.mod_add. lia.
Qed.

End PatternFacts.

(** X10.  With a substring set, the pattern test is exact: a value
    passes it iff the substring occurs in the k-mer at some offset, or,
    with the reverse complement enabled, the reverse complement
    does. *)
Theorem contains_sub_iff_occurs (v kout : Z) (sub : Dna.str) (rc : bool)
        (pats : list Filters.Pattern) :
  kout <= 32 -> sub <> [] ->
  Filters.build_patterns kout sub true rc = inr pats ->
  (Filters.contains_sub v pats = true <->
   Filters.occurs v kout sub \/
   (rc = true /\ Filters.occurs v kout (Dna.revcomp_string sub))).
Proof.
  intros Hk Hne Hb. split.
  - apply FilterFacts.build_patterns_hit with (set := true); assumption.
  - intros Hor. unfold Filters.build_patterns in Hb.
    destruct (Filters.append_patterns_for kout sub []) as [e|pats1] eqn:H1;
      [discriminate|].
    assert (Hsub : Filters.occurs v kout sub -> Filters.contains_sub v pats1 = true).
    { intros Ho. eapply PatternFacts.append_patterns_for_complete; eauto. }
    destruct rc.
    + destruct (Dna.str_eqb (Dna.revcomp_string sub) sub) eqn:Eq.
      * injection Hb as <-. apply PatternFacts.str_eqb_true in Eq.
        rewrite Eq in Hor. destruct Hor as [Ho|[_ Ho]]; auto.
      * eapply PatternFacts.append_patterns_for_complete;
          [exact Hk|apply PatternFacts.revcomp_nonempty, Hne|exact Hb|].
        destruct Hor as [Ho|[_ Ho]]; [left; auto|right; exact Ho].
    + injection Hb as <-. destruct Hor as [Ho|[F _]]; [auto|discriminate].
Qed.

Lemma contains_sub_iff_occurs_witness :
  exists pats,
    Filters.build_patterns 4 (Dna.lit "CG") true true = inr pats /\
    (Filters.contains_sub 27 pats = true <->
     Filters.occurs 27 4 (Dna.lit "CG") \/
     (true = true /\ Filters.occurs 27 4 (Dna.revcomp_string (Dna.lit "CG")))).
Proof.
  eexists. split; [reflexivity|].
  apply contains_sub_iff_occurs; [lia|discriminate|reflexivity].
Defined.

(** X11.  The children of an anchor are the anchor with L letters put
    before it and d - L letters after it: the text printed for
    make_value(B, L, left, right) is the text of left, then of B, then
    of right. *)
Theorem child_is_anchor_with_flanks (B k0 kout L l r : Z) :
  0 <= k0 -> kout <= 32 -> 0 <= L <= kout - k0 ->
  0 <= B < 4 ^ k0 -> 0 <= l < 4 ^ L -> 0 <= r < 4 ^ (kout - k0 - L) ->
  Dna.decode_kmer (Expansion.make_value B k0 kout L l r) kout
  = Dna.decode_kmer l L ++ Dna.decode_kmer B k0
    ++ Dna.decode_kmer r (kout - k0 - L).
Proof.
  intros Hk0 Hk HL HB Hl Hr.
  destruct (ExpansionFacts.make_value_exact B k0 kout L l r) as (E & _); try lia.
  rewrite E. unfold Dna.decode_kmer.
  set (R := kout - k0 - L) in *.
  assert (HR : 0 <= R) by (unfold R; lia).
  replace (Z.to_nat kout) with (Z.to_nat L + (Z.to_nat k0 + Z.to_nat R))%nat
    by (unfold R; lia).
  assert (H4R : 0 < 4 ^ R) by (apply Z.pow_pos_nonneg; lia).
  assert (H4k : 0 < 4 ^ k0) by (apply Z.pow_pos_nonneg; lia).
  rewrite <- (PatternFacts.decode_kmer_go_split (Z.to_nat R) (Z.to_nat k0) B r)
    by (rewrite ?Z2Nat.id; lia).
  rewrite <- PatternFacts.decode_kmer_go_split.
  - f_equal. rewrite Nat2Z.inj_add, !Z2Nat.id by lia.
    rewrite !Z.pow_add_r by lia. ring.
  - lia.
  - rewrite Nat2Z.inj_add, !Z2Nat.id by lia. rewrite Z.pow_add_r by lia. nia.
Qed.

Lemma child_is_anchor_with_flanks_witness :
  Dna.decode_kmer (Expansion.make_value 5 2 4 1 3 2) 4
  = Dna.decode_kmer 3 1 ++ Dna.decode_kmer 5 2 ++ Dna.decode_kmer 2 (4 - 2 - 1).
Proof.
  apply (child_is_anchor_with_flanks 5 2 4 1 3 2); simpl; lia.
Defined.


(** * The shard order, the shard ranges and the page *)

Module OrderFacts.
Import Dna Filters Perm Cursor Stream Notions.

Lemma swap_perm (p : list Z) a b : swap p a b ≡ₚ p.
Proof.
  unfold swap. destruct (p !! a) as [x|] eqn:Ea; [|reflexivity].
  destruct (p !! b) as [y|] eqn:Eb; [|reflexivity].
  apply Permutation_insert_swap; assumption.
Qed.

Lemma shuffle_perm cnt : forall i st p, shuffle cnt i st p ≡ₚ p.
Proof.
  induction cnt as [|cnt IH]; intros i st p; cbn [shuffle]; [reflexivity|].
  rewrite IH. apply swap_perm.
Qed.

(** The indices the shuffle swaps lie inside the vector. *)
Lemma shuffle_index_in_range st i : 2 <= i < 2 ^ 32 -> 0 <= wrap32 (st mod i) < i.
Proof.
  intros Hi. pose proof (Z.mod_pos_bound st i) as Hm.
  unfold wrap32. rewrite Z.mod_small; lia.
Qed.

(** ** Equal-width ranges *)

Lemma default_ranges_lookup n T i :
  1 <= n -> 1 <= T -> T + n <= 2 ^ 63 -> 0 <= i < n ->
  let w := (T + n - 1) / n in
  1 <= w /\ T <= n * w /\
  fst (default_ranges n T) !! Z.to_nat i = Some (i * w) /\
  snd (default_ranges n T) !! Z.to_nat i = Some (Z.min T (i * w + w)).
Proof.
  intros Hn HT Hfit Hi w.
  assert (Hw : 1 <= w /\ T <= n * w /\ n * w <= T + n - 1).
  { unfold w. Z.to_euclidean_division_equations; nia. }
  destruct Hw as (Hw1 & Hw2 & Hw3).
  assert (Hwrap : wrap64 (T + n - 1) = T + n - 1).
  { unfold wrap64. apply Z.mod_small.
    change (2 ^ 63) with 9223372036854775808 in Hfit.
    change (2 ^ 64) with 18446744073709551616. lia. }
  assert (Hiw : 0 <= i * w /\ i * w + w <= T + n - 1) by nia.
  assert (Hs : wrap64 (i * w) = i * w).
  { unfold wrap64. apply Z.mod_small.
    change (2 ^ 63) with 9223372036854775808 in Hfit.
    change (2 ^ 64) with 18446744073709551616. lia. }
  assert (He : wrap64 (i * w + w) = i * w + w).
  { unfold wrap64. apply Z.mod_small.
    change (2 ^ 63) with 9223372036854775808 in Hfit.
    change (2 ^ 64) with 18446744073709551616. lia. }
  split; [exact Hw1|]. split; [exact Hw2|].
  unfold default_ranges. cbv zeta. cbn [fst snd]. rewrite Hwrap. fold w.
  rewrite !list_lookup_fmap, lookup_seqZ_lt by lia.
  cbn [fmap option_fmap option_map]. rewrite Z2Nat.id by lia.
  change (0 + i) with i. rewrite Hs, He. split; reflexivity.
Qed.

Lemma default_ranges_length n T :
  length (fst (default_ranges n T)) = Z.to_nat n /\
  length (snd (default_ranges n T)) = Z.to_nat n.
Proof.
  unfold default_ranges. cbv zeta. cbn [fst snd].
  rewrite !length_map, length_seqZ. split; reflexivity.
Qed.

End OrderFacts.

(** X12.  The shard order of a random-access run is a permutation of
    the shard indices 0..n-1, whatever the seed: every shard is
    visited, and none twice. *)
Theorem build_perm_is_permutation (n seed : Z) :
  Permutation (Perm.build_perm n seed) (seqZ 0 n) /\
  NoDup (Perm.build_perm n seed) /\
  length (Perm.build_perm n seed) = Z.to_nat n /\
  (forall x, x ∈ Perm.build_perm n seed <-> 0 <= x < n).
Proof.
  assert (Hp : Perm.build_perm n seed ≡ₚ seqZ 0 n)
    by (unfold Perm.build_perm; apply OrderFacts.shuffle_perm).
  split; [exact Hp|]. split; [|split].
  - rewrite Hp. apply NoDup_seqZ.
  - rewrite Hp. apply length_seqZ.
  - intros x. rewrite Hp, elem_of_seqZ. lia.
Qed.

(** X13.  When the index gives no ranges, the equal-width ranges that
    main computes split the keys [0, total_bits) among the shards:
    every key lies in the range of exactly one shard. *)
Theorem default_ranges_partition (n T v : Z) :
  1 <= n -> 1 <= T -> T + n <= 2 ^ 63 -> 0 <= v < T ->
  exists i s e,
    0 <= i < n /\
    fst (Stream.default_ranges n T) !! Z.to_nat i = Some s /\
    snd (Stream.default_ranges n T) !! Z.to_nat i = Some e /\
    s <= v < e /\
    forall j s' e',
      0 <= j ->
      fst (Stream.default_ranges n T) !! Z.to_nat j = Some s' ->
      snd (Stream.default_ranges n T) !! Z.to_nat j = Some e' ->
      s' <= v < e' -> j = i.
Proof.
  intros Hn HT Hfit Hv.
  set (w := (T + n - 1) / n).
  assert (Hw : 1 <= w /\ T <= n * w).
  { destruct (OrderFacts.default_ranges_lookup n T 0) as (H1 & H2 & _);
      [lia|lia|lia|lia|]. split; assumption. }
  destruct Hw as (Hw1 & Hw2).
  assert (Hi : 0 <= v / w < n).
  { split; [apply Z.div_pos; lia|]. apply Z.div_lt_upper_bound; nia. }
  destruct (OrderFacts.default_ranges_lookup n T (v / w)) as (_ & _ & Hs & He);
    try lia.
  fold w in Hs, He.
  exists (v / w), (v / w * w), (Z.min T (v / w * w + w)).
  split; [exact Hi|]. split; [exact Hs|]. split; [exact He|].
  assert (Hdiv : v / w * w <= v < v / w * w + w).
  { pose proof (Z.div_mod v w). pose proof (Z.mod_pos_bound v w). lia. }
  split; [lia|].
  intros j s' e' Hj Hs' He' Hin.
  assert (Hjn : j < n).
  { apply lookup_lt_Some in Hs'.
    destruct (OrderFacts.default_ranges_length n T) as (Hl & _).
    rewrite Hl in Hs'. lia. }
  destruct (OrderFacts.default_ranges_lookup n T j) as (_ & _ & Hsj & Hej);
    try lia.
  fold w in Hsj, Hej. rewrite Hsj in Hs'. rewrite Hej in He'.
  injection Hs' as <-. injection He' as <-.
  assert (j * w <= v < j * w + w) by lia.
  apply Z.div_unique with (r := v - j * w); lia.
Qed.

Lemma default_ranges_partition_witness :
  exists i s e,
    0 <= i < 4 /\
    fst (Stream.default_ranges 4 10) !! Z.to_nat i = Some s /\
    snd (Stream.default_ranges 4 10) !! Z.to_nat i = Some e /\
    s <= 7 < e /\
    forall j s' e',
      0 <= j ->
      fst (Stream.default_ranges 4 10) !! Z.to_nat j = Some s' ->
      snd (Stream.default_ranges 4 10) !! Z.to_nat j = Some e' ->
      s' <= 7 < e' -> j = i.
Proof.
  apply (default_ranges_partition 4 10 7); simpl; lia.
Defined.

(** X14.  What main has checked when it starts to scan: the index k is
    in 1..32 and equals the k of the GC histogram; the output k is
    --construct_k if positive, else the index k, and is in 1..32; an
    output k above the index k is accepted for 18-mer shards only; an
    output k below the index k is accepted when the index k is 18 or
    more. *)
Theorem setup_accepts_supported_k_only `{Roaring}
        (args : Stream.Args) (env : Stream.Env) (su : Stream.Setup) :
  Stream.setup args env = inr su ->
  exists ix,
    Stream.index env = Some ix /\
    Stream.k0 (Stream.su_cf su) = Stream.to_int (Stream.ix_k ix) /\
    Stream.kout (Stream.su_cf su)
    = (if 0 <? Stream.construct_k args then Stream.construct_k args
       else Stream.to_int (Stream.ix_k ix)) /\
    1 <= Stream.k0 (Stream.su_cf su) <= 32 /\
    1 <= Stream.kout (Stream.su_cf su) <= 32 /\
    (Stream.k0 (Stream.su_cf su) < Stream.kout (Stream.su_cf su) ->
       Stream.k0 (Stream.su_cf su) = 18) /\
    (Stream.kout (Stream.su_cf su) < Stream.k0 (Stream.su_cf su) ->
       18 <= Stream.k0 (Stream.su_cf su)) /\
    Stream.gc_hist_k env = Some (Stream.k0 (Stream.su_cf su)).
Proof.
  intros Hsu. unfold Stream.setup in Hsu.
  destruct (Stream.index env) as [ix|] eqn:Eix; [|discriminate].
  exists ix. split; [reflexivity|].
  repeat match type of Hsu with
  | (match ?x with _ => _ end) = _ =>
      let E := fresh "E" in destruct x eqn:E; try discriminate
  end;
  injection Hsu as <-; cbn [Stream.su_cf Stream.k0 Stream.kout];
  repeat match goal with
  | H : _ \/ _ |- _ => destruct H
  | H : _ || _ = false |- _ => apply orb_false_iff in H; destruct H
  | H : _ && _ = false |- _ => apply andb_false_iff in H
  | H : negb _ = false |- _ => apply negb_false_iff in H
  | H : negb _ = true |- _ => apply negb_true_iff in H
  | H : (_ <=? _) = false |- _ => apply Z.leb_gt in H
  | H : (_ <=? _) = true |- _ => apply Z.leb_le in H
  | H : (_ <? _) = false |- _ => apply Z.ltb_ge in H
  | H : (_ <? _) = true |- _ => apply Z.ltb_lt in H
  | H : (_ =? _) = true |- _ => apply Z.eqb_eq in H
  | H : (_ =? _) = false |- _ => apply Z.eqb_neq in H
  end;
  destruct (Z.ltb_spec 0 (Stream.construct_k args));
  repeat split; try reflexivity; try lia;
  try (f_equal; lia).
Qed.

Lemma setup_accepts_supported_k_only_witness :
  exists su ix,
    Stream.setup (Examples.args19 6) Examples.env18 = inr su /\
    Stream.index Examples.env18 = Some ix /\
    Stream.k0 (Stream.su_cf su) = Stream.to_int (Stream.ix_k ix) /\
    1 <= Stream.kout (Stream.su_cf su) <= 32.
Proof.
  assert (Hs : exists su, Stream.setup (Examples.args19 6) Examples.env18 = inr su)
    by (eexists; vm_compute; reflexivity).
  destruct Hs as (su & Hsu). exists su.
  destruct (@setup_accepts_supported_k_only KeyListRoaring _ _ _ Hsu)
    as (ix & Hix & Hk0 & _ & _ & Hkout & _).
  exists ix. split; [exact Hsu|]. split; [exact Hix|]. split; [exact Hk0|exact Hkout].
Defined.

(** X15.  A page never holds more than --limit k-mers, its k is the
    output k, and it carries a cursor exactly when it reports
    hasMore. *)
Theorem page_within_limit `{Roaring}
        (args : Stream.Args) (env : Stream.Env) (fuel : nat) (p : Stream.Page) :
  0 <= Stream.limit args ->
  Stream.main args env fuel = Some (Stream.Printed p) ->
  Z.of_nat (length (Stream.out_vals p)) <= Stream.limit args /\
  (Stream.hasMore p = true <-> Stream.cursorStr p <> []) /\
  exists su, Stream.setup args env = inr su /\
             Stream.page_kout p = Stream.kout (Stream.su_cf su).
Proof.
  intros Hlim Hmain. unfold Stream.main in Hmain.
  destruct (Stream.setup args env) as [o|su] eqn:Hsu.
  { injection Hmain as ->.
    pose proof (ResumeFacts.setup_inl_rejected args env _ Hsu) as Hrej.
    contradiction. }
  destruct (Stream.run_loop args env su fuel) as [st|] eqn:Hrun; [|discriminate].
  injection Hmain as <-. unfold Stream.finish.
  cbn [Stream.out_vals Stream.hasMore Stream.cursorStr Stream.page_kout].
  split; [|split].
  - unfold Stream.bsize.
    destruct (Z.ltb_spec (Stream.limit args) (Z.of_nat (length (Stream.outv st)))).
    + rewrite length_take. lia.
    + lia.
  - destruct (Stream.has_more args su st).
    + split; [|reflexivity]. intros _ E.
      apply (f_equal (fun l => Z.of_nat (length l))) in E.
      unfold Cursor.make_cursor_bcw2 in E.
      destruct (CodecFacts.b64url_encode_spec
                  (Cursor.cursor_bytes (Stream.next_cursor args su st))) as (_ & Hl).
      rewrite Hl in E. cbn [length] in E.
      unfold Cursor.cursor_bytes in E. rewrite !length_app in E. cbn [length] in E.
      Z.to_euclidean_division_equations; lia.
    + split; [discriminate|]. intros Hn. exfalso. apply Hn. reflexivity.
  - exists su. split; reflexivity.
Qed.

Lemma page_within_limit_witness :
  Z.of_nat (length (Stream.out_vals Examples.page16)) <= 1 /\
  (Stream.hasMore Examples.page16 = true <-> Stream.cursorStr Examples.page16 <> []).
Proof.
  assert (Hl : 0 <= Stream.limit (Examples.args16 1)) by (simpl; lia).
  assert (Hm : Stream.main (Examples.args16 1) Examples.env16 200
               = Some (Stream.Printed Examples.page16)) by (vm_compute; reflexivity).
  destruct (@page_within_limit KeyListRoaring _ _ _ _ Hl Hm) as (H1 & H2 & _).
  split; [exact H1|exact H2].
Defined.


(** * More on the membership query and the shard files *)

Module RouteFacts.
Import Dna Kbit Query Notions.

Lemma find_shard_go_complete shards v i s :
  ranges_sorted shards ->
  shards !! i = Some s -> s_start s <= v < s_end s ->
  forall fuel lo hi,
    (lo <= i < hi)%nat -> (hi <= length shards)%nat -> (hi - lo < fuel)%nat ->
    find_shard_go fuel shards v lo hi = Some (Z.of_nat i).
Proof.
  intros (Hne & Hord) Hi Hv.
  induction fuel as [|f IH]; intros lo hi Hlo Hhi Hf; [lia|].
  cbn [find_shard_go].
  destruct (lo <? hi)%nat eqn:E; [|apply Nat.ltb_ge in E; lia].
  set (mid := (lo + (hi - lo) / 2)%nat).
  assert (Hmid : (lo <= mid < hi)%nat).
  { assert ((hi - lo) / 2 < hi - lo)%nat by (apply Nat.div_lt; lia).
    unfold mid. lia. }
  destruct (shards !! mid) as [sm|] eqn:Es;
    [|apply lookup_ge_None in Es; lia].
  pose proof (Hne _ _ Es) as Hsm.
  destruct (Z.ltb_spec v (s_start sm)) as [H1|H1].
  - apply IH; try lia.
    destruct (Nat.lt_trichotomy i mid) as [Hc|[Hc|Hc]]; [lia| |].
    + subst i. rewrite Es in Hi. injection Hi as <-. lia.
    + pose proof (Hord _ _ _ _ Hc Es Hi). lia.
  - destruct (Z.leb_spec (s_end sm) v) as [H2|H2].
    + apply IH; try lia.
      destruct (Nat.lt_trichotomy i mid) as [Hc|[Hc|Hc]]; [| |lia].
      * pose proof (Hord _ _ _ _ Hc Hi Es). lia.
      * subst i. rewrite Es in Hi. injection Hi as <-. lia.
    + do 2 f_equal.
      destruct (Nat.lt_trichotomy i mid) as [Hc|[Hc|Hc]]; [|congruence|].
      * pose proof (Hord _ _ _ _ Hc Hi Es). lia.
      * pose proof (Hord _ _ _ _ Hc Es Hi). lia.
Qed.

(** ** Lines *)

Local Abbreviation NL := "010"%char.
Local Abbreviation CR := "013"%char.

Lemma read_lines_line l : forall rest cur,
  ~ In NL l ->
  read_lines (l ++ NL :: rest) cur = trim_cr (cur ++ l) :: read_lines rest [].
Proof.
  induction l as [|c l IH]; intros rest cur Hn; cbn [app read_lines].
  - rewrite app_nil_r. reflexivity.
  - destruct (Ascii.eqb_spec c NL) as [->|Hc].
    + exfalso. apply Hn. left. reflexivity.
    + rewrite IH by (intros Hin; apply Hn; right; exact Hin).
      rewrite <- app_assoc. reflexivity.
Qed.

Lemma read_lines_tail l : forall cur,
  ~ In NL l -> read_lines l cur = match cur ++ l with [] => [] | _ => [cur ++ l] end.
Proof.
  induction l as [|c l IH]; intros cur Hn; cbn [read_lines].
  - rewrite app_nil_r. reflexivity.
  - destruct (Ascii.eqb_spec c NL) as [->|Hc].
    + exfalso. apply Hn. left. reflexivity.
    + rewrite IH by (intros Hin; apply Hn; right; exact Hin).
      rewrite <- app_assoc. reflexivity.
Qed.

Lemma trim_cr_snoc l : trim_cr (l ++ [CR]) = l.
Proof.
  unfold trim_cr. rewrite rev_app_distr. cbn [rev app].
  rewrite rev_involutive. reflexivity.
Qed.

Lemma trim_cr_id l : last l <> Some CR -> trim_cr l = l.
Proof.
  intros Hl. unfold trim_cr. destruct (rev l) as [|c r] eqn:E; [reflexivity|].
  destruct (Ascii.eqb_spec c CR) as [->|Hc]; [|reflexivity].
  exfalso. apply Hl. rewrite <- (rev_involutive l), E. cbn [rev].
  apply last_snoc.
Qed.

End RouteFacts.

(** X16.  On shard ranges that are in increasing order and do not
    overlap, the router returns the index of the shard whose range
    holds the key, and -1 when no range holds it. *)
Theorem find_shard_finds_the_owner (shards : list Query.ShardInfo) (v : Z) :
  Notions.ranges_sorted shards ->
  (forall i s, shards !! i = Some s ->
     Query.s_start s <= v < Query.s_end s ->
     Query.find_shard shards v = Some (Z.of_nat i)) /\
  ((forall i s, shards !! i = Some s ->
      ~ (Query.s_start s <= v < Query.s_end s)) ->
   Query.find_shard shards v = Some (-1)).
Proof.
  intros Hs. split.
  - intros i s Hi Hv. unfold Query.find_shard.
    destruct shards as [|s0 rest] eqn:E; [destruct i; discriminate|].
    rewrite <- E in *.
    apply (RouteFacts.find_shard_go_complete shards v i s Hs Hi Hv); try lia.
    apply lookup_lt_Some in Hi. lia.
  - intros Hno.
    destruct (QueryFacts.find_shard_spec shards v) as (r & Hr & [->|(Hrng & s & Hl & Hv)]);
      [exact Hr|].
    exfalso. exact (Hno _ _ Hl Hv).
Qed.

Lemma find_shard_finds_the_owner_witness :
  Query.find_shard [Query.mkShard 0 10; Query.mkShard 10 25; Query.mkShard 30 40] 12
  = Some (Z.of_nat 1).
Proof.
  assert (Hs : Notions.ranges_sorted
                 [Query.mkShard 0 10; Query.mkShard 10 25; Query.mkShard 30 40]).
  { split.
    - intros [|[|[|i]]] s Hi; cbn in Hi; try discriminate;
        injection Hi as <-; simpl; lia.
    - intros [|[|[|i]]] [|[|[|j]]] s t Hij Hi Hj; cbn in Hi, Hj;
        try discriminate; try lia;
        injection Hi as <-; injection Hj as <-; simpl; lia. }
  apply (proj1 (find_shard_finds_the_owner _ 12 Hs) 1%nat (Query.mkShard 10 25));
    [reflexivity|simpl; lia].
Defined.

(** X17.  The line reader splits at every newline and drops one
    carriage return before it: a text of lines ended by LF, or by
    CR LF, is read back as these lines (empty ones included), and a
    last line without newline is delivered as it is. *)
Theorem read_lines_reads_back (ls : list Dna.str) (tail_ : Dna.str) :
  Forall (fun l => ~ In "010"%char l /\ last l <> Some "013"%char) ls ->
  ~ In "010"%char tail_ ->
  let lf := flat_map (fun l => l ++ ["010"%char]) ls in
  let crlf := flat_map (fun l => l ++ ["013"%char; "010"%char]) ls in
  let rest := match tail_ with [] => [] | _ => [tail_] end in
  Query.read_lines (lf ++ tail_) [] = ls ++ rest /\
  Query.read_lines (crlf ++ tail_) [] = ls ++ rest.
Proof.
  intros Hls Ht. cbv zeta.
  induction Hls as [|l ls (Hnl & Hcr) Hls IH]; cbn [flat_map app].
  - rewrite (RouteFacts.read_lines_tail tail_ [] Ht). cbn [app].
    split; reflexivity.
  - destruct IH as (IH1 & IH2). split.
    + rewrite <- !app_assoc. cbn [app].
      rewrite RouteFacts.read_lines_line by exact Hnl. cbn [app].
      rewrite RouteFacts.trim_cr_id by exact Hcr. rewrite IH1. reflexivity.
    + rewrite <- !app_assoc. cbn [app].
      replace (l ++ "013"%char :: "010"%char :: flat_map
                 (fun l0 => l0 ++ ["013"%char; "010"%char]) ls ++ tail_)
        with ((l ++ ["013"%char]) ++ "010"%char :: flat_map
                 (fun l0 => l0 ++ ["013"%char; "010"%char]) ls ++ tail_)
        by (rewrite <- app_assoc; reflexivity).
      rewrite RouteFacts.read_lines_line.
      * cbn [app]. rewrite RouteFacts.trim_cr_snoc, IH2. reflexivity.
      * intros Hin. apply in_app_or in Hin as [Hin|[Hin|[]]];
          [contradiction|discriminate].
Qed.

Lemma read_lines_reads_back_witness :
  Query.read_lines
    (flat_map (fun l => l ++ ["013"%char; "010"%char])
       [Dna.lit "ACGT"; []; Dna.lit "TT"] ++ Dna.lit "GG") []
  = [Dna.lit "ACGT"; []; Dna.lit "TT"] ++ [Dna.lit "GG"].
Proof.
  refine (proj2 (read_lines_reads_back
                   [Dna.lit "ACGT"; []; Dna.lit "TT"] (Dna.lit "GG") _ _)).
  - repeat constructor; cbn; try discriminate;
      intros Hin; repeat (destruct Hin as [Hin|Hin]; [discriminate|]); exact Hin.
  - cbn. intros Hin. repeat (destruct Hin as [Hin|Hin]; [discriminate|]). exact Hin.
Defined.


(** * Files, tokens and exit codes *)

Module FileFacts.
Import Dna B64 Cursor Kbit.
Import B64Facts CursorFacts.

(** The parser does not look at what follows the last lane. *)
Lemma parse_cursor_bytes_trailing c extra :
  cursor_valid c -> parse_cursor_bytes (cursor_bytes c ++ extra) = Got c.
Proof.
  intros (Hp & Hfl & Hk0 & Hkout & Hd & Hns & Hseed & Hnpp & Hw & Hb & Hlen & Hlanes).
  destruct c as [present flags k0 kout d ns seed npp w bu lanes].
  cbn [c_present c_flags c_k0 c_kout c_d c_numShards c_seed
    c_next_perm_pos c_window c_burst c_lanes] in *. subst present.
  remember (cursor_bytes (mkCursor true flags k0 kout d ns seed npp w bu lanes)
            ++ extra) as b eqn:Hbytes.
  unfold cursor_bytes in Hbytes. cbn [c_flags c_k0 c_kout c_d c_numShards c_seed
    c_next_perm_pos c_window c_burst c_lanes] in Hbytes.
  assert (Hwl : wrap16 (Z.of_nat (length lanes)) = Z.of_nat (length lanes)).
  { unfold wrap16. apply Z.mod_small. lia. }
  rewrite Hwl in Hbytes.
  assert (Hs : size b = 30 + size (flat_map lane_bytes lanes) + size extra).
  { rewrite Hbytes. rewrite ?size_app. unfold size. simpl. lia. }
  pose proof (size_nonneg (flat_map lane_bytes lanes)).
  pose proof (size_nonneg extra).
  rewrite <- ?app_assoc in Hbytes. cbn [app] in Hbytes.
  unfold parse_cursor_bytes.
  size_false Hs.
  at_step Hbytes (@nil Z). cbn [rd_bind].
  at_step Hbytes [66]. cbn [rd_bind].
  at_step Hbytes [66; 67]. cbn [rd_bind].
  at_step Hbytes [66; 67; 87]. cbn [rd_bind].
  change ((66 =? 66) && (67 =? 67) && (87 =? 87) && (50 =? 50)) with true.
  cbn [negb]. cbv iota.
  at_step Hbytes [66; 67; 87; 50]. cbn [rd_bind].
  at_step Hbytes [66; 67; 87; 50; flags]. cbn [rd_bind].
  at_step Hbytes [66; 67; 87; 50; flags; k0]. cbn [rd_bind].
  at_step Hbytes [66; 67; 87; 50; flags; k0; kout]. cbn [rd_bind].
  rd_step read_u32_le_split Hbytes [66; 67; 87; 50; flags; k0; kout; d]. cbn [rd_bind].
  rd_step read_u64_le_split Hbytes
          ([66; 67; 87; 50; flags; k0; kout; d] ++ push_u32_le ns). cbn [rd_bind].
  rd_step read_u32_le_split Hbytes
          ([66; 67; 87; 50; flags; k0; kout; d] ++ push_u32_le ns ++ push_u64_le seed).
  cbn [rd_bind]. cbv zeta.
  rd_step read_u16_le_split Hbytes
          ([66; 67; 87; 50; flags; k0; kout; d] ++ push_u32_le ns ++ push_u64_le seed
           ++ push_u32_le npp).
  cbn [rd_bind].
  rd_step read_u16_le_split Hbytes
          ([66; 67; 87; 50; flags; k0; kout; d] ++ push_u32_le ns ++ push_u64_le seed
           ++ push_u32_le npp ++ push_u16_le w).
  cbn [rd_bind].
  erewrite (read_u16_le_split _
          ([66; 67; 87; 50; flags; k0; kout; d] ++ push_u32_le ns ++ push_u64_le seed
           ++ push_u32_le npp ++ push_u16_le w ++ push_u16_le bu)
          (Z.of_nat (length lanes)));
    [ | rewrite Hbytes, <- ?app_assoc; reflexivity
      | rewrite ?size_app; unfold size in *; simpl; lia
      | unfold is_u16; lia ].
  cbn [rd_bind]. rewrite Nat2Z.id.
  pose proof (parse_lanes_bytes lanes
          ([66; 67; 87; 50; flags; k0; kout; d] ++ push_u32_le ns ++ push_u64_le seed
           ++ push_u32_le npp ++ push_u16_le w ++ push_u16_le bu
           ++ push_u16_le (Z.of_nat (length lanes))) extra Hlanes) as Hpl.
  replace b with
      (([66; 67; 87; 50; flags; k0; kout; d] ++ push_u32_le ns ++ push_u64_le seed
           ++ push_u32_le npp ++ push_u16_le w ++ push_u16_le bu
           ++ push_u16_le (Z.of_nat (length lanes))) ++ flat_map lane_bytes lanes
       ++ extra)
    by (rewrite Hbytes, <- ?app_assoc; reflexivity).
  change (24 + 2 + 2 + 2) with
      (size ([66; 67; 87; 50; flags; k0; kout; d] ++ push_u32_le ns ++ push_u64_le seed
           ++ push_u32_le npp ++ push_u16_le w ++ push_u16_le bu
           ++ push_u16_le (Z.of_nat (length lanes)))).
  rewrite Hpl. reflexivity.
Qed.

Section WithRoaring.
Context `{Roaring}.

(** ** The two shard loaders *)

Lemma loaders_agree (f : Kbit.file) (msg : string) (bm : bitmap) :
  Query.load_kbit_portable msg f = inr bm <->
  exists h, Kbit.load_kbit_portable f = inr (h, bm).
Proof.
  unfold Query.load_kbit_portable, Query.read_header, Kbit.load_kbit_portable.
  destruct f as [bytes|]; [|split; [discriminate|intros (h & Hh); discriminate]].
  cbv zeta.
  destruct (length (take 64 bytes) <? 64)%nat;
    [split; [discriminate|intros (h & Hh); discriminate]|].
  cbn [orb].
  destruct (negb (bool_decide (take 8 (take 64 bytes) = magic)));
    [split; [discriminate|intros (h & Hh); discriminate]|].
  destruct (negb (hflags (parse_header (take 64 bytes)) =? 2));
    [split; [discriminate|intros (h & Hh); discriminate]|].
  destruct (negb (Z.of_nat (length (take (Z.to_nat (payload_len
              (parse_header (take 64 bytes)))) (drop 64 bytes)))
              =? payload_len (parse_header (take 64 bytes))));
    [split; [discriminate|intros (h & Hh); discriminate]|].
  destruct (portable_deserialize_safe _) as [b|];
    [|split; [discriminate|intros (h & Hh); discriminate]].
  split.
  - intros E. injection E as <-. eauto.
  - intros (h & E). injection E as _ <-. reflexivity.
Qed.

Lemma load_short bytes :
  (length bytes < 64)%nat -> Kbit.load_kbit_portable (Some bytes) = inl InvalidHeader.
Proof.
  intros Hl. unfold Kbit.load_kbit_portable. cbv zeta.
  rewrite length_take.
  destruct (Nat.ltb_spec (64 `min` length bytes) 64); [reflexivity|lia].
Qed.

Lemma load_trailing bytes extra r :
  Kbit.load_kbit_portable (Some bytes) = inr r ->
  Kbit.load_kbit_portable (Some (bytes ++ extra)) = inr r.
Proof.
  unfold Kbit.load_kbit_portable. cbv zeta. intros Hl.
  destruct (Nat.ltb_spec (length (take 64 bytes)) 64) as [Hs|Hs];
    [discriminate|]. cbn [orb] in Hl.
  rewrite length_take in Hs.
  assert (Ht : take 64 (bytes ++ extra) = take 64 bytes)
    by (apply take_app_le; lia).
  rewrite Ht.
  destruct (Nat.ltb_spec (length (take 64 bytes)) 64) as [Hs'|Hs'];
    [rewrite length_take in Hs'; lia|]. cbn [orb].
  destruct (negb (bool_decide (take 8 (take 64 bytes) = magic))); [discriminate|].
  destruct (negb (hflags (parse_header (take 64 bytes)) =? 2)); [discriminate|].
  set (n := payload_len (parse_header (take 64 bytes))) in *.
  destruct (Z.eqb_spec (Z.of_nat (length (take (Z.to_nat n) (drop 64 bytes)))) n)
    as [En|En]; [|discriminate].
  cbn [negb] in Hl.
  assert (Hd : take (Z.to_nat n) (drop 64 (bytes ++ extra))
               = take (Z.to_nat n) (drop 64 bytes)).
  { rewrite drop_app_le by lia. apply take_app_le.
    rewrite length_take in En. lia. }
  rewrite Hd.
  destruct (Z.eqb_spec (Z.of_nat (length (take (Z.to_nat n) (drop 64 bytes)))) n);
    [|contradiction].
  cbn [negb]. exact Hl.
Qed.

Lemma zip_answers (k : Z) (f : Z -> ascii) lines keys :
  Forall2 (fun ln v => Query.encode_kmer_sv ln k = Some v) lines keys ->
  map Some (zip_with Query.format_line lines (map f keys))
  = map (fun ln => (fun v => Query.format_line ln (f v)) <$> Query.encode_kmer_sv ln k)
        lines.
Proof.
  induction 1 as [|ln v lines keys Hv _ IH]; [reflexivity|].
  cbn [map zip_with]. rewrite Hv, IH. reflexivity.
Qed.

End WithRoaring.
End FileFacts.

(** X18.  The cursor parser does not check that the token ends after
    the last lane: bytes appended to a serialised cursor are ignored,
    and the token still parses to the same cursor. *)
Theorem cursor_parser_ignores_trailing_bytes (c : Cursor.WindowCursor) (extra : list Z) :
  Cursor.cursor_valid c -> Forall B64.is_byte extra ->
  Cursor.parse_cursor_bcw2 (B64.b64url_encode (Cursor.cursor_bytes c ++ extra))
  = B64.Got c.
Proof.
  intros Hc He. unfold Cursor.parse_cursor_bcw2.
  rewrite B64Facts.b64url_decode_encode.
  - apply FileFacts.parse_cursor_bytes_trailing, Hc.
  - apply Forall_app. split; [apply CursorFacts.cursor_bytes_bytes, Hc|exact He].
Qed.

(** X19.  The shard loader of the streaming search and the one of the
    membership query accept the same files and deliver the same
    bitmap; a file of fewer than 64 bytes is rejected as having no
    header; bytes that follow the payload are not read. *)
Theorem shard_loaders_agree `{Roaring} (f : Kbit.file) (msg : string) :
  (forall bm, Query.load_kbit_portable msg f = inr bm <->
              exists h, Kbit.load_kbit_portable f = inr (h, bm)) /\
  (forall bytes, (length bytes < 64)%nat ->
     Kbit.load_kbit_portable (Some bytes) = inl Kbit.InvalidHeader) /\
  (forall bytes extra r,
     Kbit.load_kbit_portable (Some bytes) = inr r ->
     Kbit.load_kbit_portable (Some (bytes ++ extra)) = inr r).
Proof.
  split; [|split].
  - intros bm. apply FileFacts.loaders_agree.
  - apply FileFacts.load_short.
  - apply FileFacts.load_trailing.
Qed.




Lemma cursor_parser_ignores_trailing_bytes_witness :
  let c := Cursor.mkCursor true 1 18 18 0 4 12345 3 2 1 [] in
  Cursor.parse_cursor_bcw2 (B64.b64url_encode (Cursor.cursor_bytes c ++ [1; 2; 3]))
  = B64.Got c.
Proof.
  intros c.
  assert (Hc : Cursor.cursor_valid c).
  { unfold Cursor.cursor_valid, c. cbn.
    unfold is_u8, is_u16, is_u32, is_u64.
    repeat split; try lia. constructor. }
  assert (He : Forall B64.is_byte [1; 2; 3])
    by (repeat constructor; unfold B64.is_byte; lia).
  exact (cursor_parser_ignores_trailing_bytes c [1; 2; 3] Hc He).
Defined.


(** * More on the dense generator *)

Module SamplerFacts.
Import Kbit Gen.

(** Bits of a word that the bit loop has not reached stay 0. *)
Lemma gen_word_high n s j :
  (n <= 64)%nat -> Z.of_nat n <= j ->
  Z.testbit (fst (gen_word n 0 s 0)) j = false.
Proof.
  intros Hn Hj.
  destruct (GenFacts.gen_word_spec n 0 s 0) as (_ & Hbits); [lia|lia|].
  rewrite Hbits by lia. rewrite Z.bits_0, Z.sub_0_r. cbn [orb].
  rewrite lookup_ge_None_2 by (rewrite GenFacts.decisions_length; lia).
  apply andb_false_r.
Qed.

Lemma gen_words_stray words : forall s i,
  0 <= remaining s ->
  remaining s <= i < 8 * Z.of_nat (length (gen_words words s)) ->
  dense_bit (gen_words words s) i = false.
Proof.
  induction words as [|n IH]; intros s i Hr Hi; cbn [gen_words] in *.
  - cbn [length] in Hi. lia.
  - destruct (Z.eqb_spec (remaining s) 0) as [E0|E0]; [cbn [length] in Hi; lia|].
    set (bits_here := if 64 <=? remaining s then 64 else remaining s) in *.
    assert (Hbh : 0 < bits_here <= 64 /\ bits_here <= remaining s).
    { unfold bits_here. destruct (Z.leb_spec 64 (remaining s)); lia. }
    destruct (GenFacts.gen_word_spec (Z.to_nat bits_here) 0 s 0) as (Hs & _);
      [lia|lia|].
    pose proof (gen_word_high (Z.to_nat bits_here) s) as Hhigh.
    destruct (gen_word (Z.to_nat bits_here) 0 s 0) as [w s'] eqn:Eg.
    cbn [fst snd] in Hs, Hhigh. subst s'.
    pose proof (GenFacts.skip_remaining (Z.to_nat bits_here) s) as Hrem.
    destruct (Z.lt_ge_cases i 64) as [Hlt|Hge].
    + rewrite GenFacts.dense_bit_word by lia. apply Hhigh; lia.
    + rewrite GenFacts.dense_bit_cons8 by (reflexivity || lia).
      rewrite length_app in Hi.
      change (length (write_le64_u w)) with 8%nat in Hi.
      apply IH; rewrite Hrem; clear Hhigh Eg; unfold bits_here in *;
        destruct (Z.leb_spec 64 (remaining s)); lia.
Qed.

End SamplerFacts.

(** X22.  A 64-bit word written by the generator's write_le64_u is
    read back by the loaders' read_le64: the header fields survive
    the file. *)
Theorem header_word_read_back (v : Z) (rest : list Z) :
  0 <= v < 2 ^ 64 ->
  length (Gen.write_le64_u v) = 8%nat /\
  Forall B64.is_byte (Gen.write_le64_u v) /\
  Kbit.read_le64 (Gen.write_le64_u v ++ rest) = v.
Proof.
  intros Hv. split; [reflexivity|]. split.
  - unfold Gen.write_le64_u. repeat constructor; apply CursorFacts.land_255_byte.
  - apply GenFacts.read_write_le64, Hv.
Qed.

Lemma header_word_read_back_witness :
  Kbit.read_le64 (Gen.write_le64_u 1311768467463790320 ++ [7]) = 1311768467463790320.
Proof.
  apply (header_word_read_back 1311768467463790320 [7]). lia.
Defined.

(** X23.  The generator sets no bit beyond total_bits: in the payload
    it writes, every bit position from 4^k up to the end of the last
    word is 0 (the last word is padded with zeros when 4^k is not a
    multiple of 64, that is for k = 1 and k = 2). *)
Theorem dense_payload_has_no_stray_bits (a : Gen.Args) (i : Z) :
  1 <= Gen.arg_k a <= 31 ->
  4 ^ Gen.arg_k a <= i < 8 * Z.of_nat (length (Gen.payload a)) ->
  Gen.dense_bit (Gen.payload a) i = false.
Proof.
  intros Hk Hi. unfold Gen.payload in *.
  pose proof (GenFacts.total_bits_of_pow4 a Hk) as Ht.
  pose proof (GenFacts.pow4_bounds _ Hk) as Hp.
  apply SamplerFacts.gen_words_stray.
  - unfold Gen.initial_sampler. cbn [Gen.remaining]. lia.
  - unfold Gen.initial_sampler at 1. cbn [Gen.remaining]. lia.
Qed.

Lemma dense_payload_has_no_stray_bits_witness :
  Gen.dense_bit (Gen.payload (Gen.mkArgs 1 4 1)) 5 = false.
Proof.
  apply (dense_payload_has_no_stray_bits (Gen.mkArgs 1 4 1) 5).
  - simpl. lia.
  - split; [simpl; lia|]. vm_compute. reflexivity.
Defined.

(** X24.  The bounded draw of the sampler stays below its bound: for
    a 64-bit random word and a bound b > 0 the result is in [0, b),
    so that a key is always chosen when as many ones are needed as
    positions remain. *)
Theorem fast_bounded_below_bound (rnd bound : Z) :
  0 <= rnd < 2 ^ 64 -> 0 < bound ->
  0 <= Gen.fast_bounded rnd bound < bound /\
  forall s, Gen.remaining s = bound -> Gen.needed s = bound ->
            fst (Gen.choose s) = true.
Proof.
  intros Hr Hb. split; [apply GenFacts.fast_bounded_range; assumption|].
  intros s Hrem Hneed. unfold Gen.choose.
  destruct (Z.eqb_spec (Gen.needed s) 0); [lia|].
  pose proof (GenFacts.next_range (Gen.rng s)) as Hrng.
  destruct (Gen.next (Gen.rng s)) as [r g]. cbn [fst] in Hrng.
  pose proof (GenFacts.fast_bounded_range r (Gen.remaining s) Hrng) as Hpick.
  destruct (Z.ltb_spec (Gen.fast_bounded r (Gen.remaining s)) (Gen.needed s));
    [reflexivity|lia].
Qed.

Lemma fast_bounded_below_bound_witness :
  0 <= Gen.fast_bounded (2 ^ 64 - 1) 10 < 10.
Proof.
  apply (fast_bounded_below_bound (2 ^ 64 - 1) 10); lia.
Defined.


(** * Encoders, accepted tokens and the burst *)

Module MoreFacts.
Import Dna Filters B64 Cursor Stream.

Lemma digit_tables_agree c :
  (base4_digit c <? 0) = (Query.base_lut c =? 255) /\
  (Query.base_lut c <> 255 -> base4_digit c = Query.base_lut c).
Proof.
  destruct c as [[] [] [] [] [] [] [] []]; split;
    first [reflexivity | intros Hn; first [reflexivity | exfalso; apply Hn; reflexivity]].
Qed.

Lemma encoders_agree s : forall acc, encode_sub s acc = Query.encode_go s acc.
Proof.
  induction s as [|c s IH]; intros acc; cbn [encode_sub Query.encode_go];
    [reflexivity|].
  destruct (digit_tables_agree c) as (E1 & E2). rewrite E1.
  destruct (Z.eqb_spec (Query.base_lut c) 255) as [E|E]; [reflexivity|].
  rewrite (E2 E). apply IH.
Qed.

(** What the byte vector of an accepted token looks like. *)
Lemma parse_cursor_bytes_shape b c :
  parse_cursor_bytes b = Got c ->
  30 <= size b /\ take 4 b = [66; 67; 87; 50] /\ c_present c = true.
Proof.
  unfold parse_cursor_bytes. intros Hp.
  destruct (Z.ltb_spec (size b) (4 + 1 + 3 + 4 + 8 + 4 + 2 + 2 + 2)) as [Hs|Hs];
    [discriminate|].
  split; [lia|].
  destruct b as [|x0 [|x1 [|x2 [|x3 b']]]];
    try (unfold size in Hs; cbn [length] in Hs; lia).
  change (at_ (x0 :: x1 :: x2 :: x3 :: b') 0) with (Got x0) in Hp.
  change (at_ (x0 :: x1 :: x2 :: x3 :: b') 1) with (Got x1) in Hp.
  change (at_ (x0 :: x1 :: x2 :: x3 :: b') 2) with (Got x2) in Hp.
  change (at_ (x0 :: x1 :: x2 :: x3 :: b') 3) with (Got x3) in Hp.
  cbn [rd_bind] in Hp.
  destruct ((x0 =? 66) && (x1 =? 67) && (x2 =? 87) && (x3 =? 50)) eqn:Em;
    [|discriminate].
  cbn [negb] in Hp.
  apply andb_true_iff in Em as [Em E3]. apply andb_true_iff in Em as [Em E2].
  apply andb_true_iff in Em as [E0 E1].
  apply Z.eqb_eq in E0, E1, E2, E3. subst.
  split; [reflexivity|].
  repeat match type of Hp with
  | rd_bind ?x _ = _ =>
      destruct x; cbn [rd_bind] in Hp;
      [|exfalso; clear - Hp; congruence|exfalso; clear - Hp; congruence]
  end.
  injection Hp as <-. reflexivity.
Qed.

End MoreFacts.

(** X25.  The substring filter of the streaming search and the
    membership query read text in the same way: both encoders accept
    the same strings and build the same value. *)
Theorem substring_and_query_encoders_agree (s : Dna.str) (k : Z) :
  Filters.encode_sub s 0 = Query.encode_go s 0 /\
  (Z.of_nat (length s) = k ->
   Query.encode_kmer_sv s k = Filters.encode_sub s 0).
Proof.
  split; [apply MoreFacts.encoders_agree|].
  intros Hk. unfold Query.encode_kmer_sv.
  rewrite Hk, Z.eqb_refl. cbn [negb]. symmetry. apply MoreFacts.encoders_agree.
Qed.

(** X26.  A token is accepted as a cursor only if it is base64url
    text of at least 30 bytes that start with "BCW2"; the parser
    then marks the cursor as present. *)
Theorem accepted_cursor_has_magic (token : Dna.str) (c : Cursor.WindowCursor) :
  Cursor.parse_cursor_bcw2 token = B64.Got c ->
  exists b,
    B64.b64url_decode token = Some b /\
    30 <= B64.size b /\ take 4 b = [66; 67; 87; 50] /\
    Cursor.c_present c = true.
Proof.
  unfold Cursor.parse_cursor_bcw2. intros Hp.
  destruct (B64.b64url_decode token) as [b|]; [|discriminate].
  exists b. split; [reflexivity|].
  apply MoreFacts.parse_cursor_bytes_shape. exact Hp.
Qed.

Lemma accepted_cursor_has_magic_witness :
  exists c b,
    Cursor.parse_cursor_bcw2 (Stream.cursorStr Examples.page16) = B64.Got c /\
    B64.b64url_decode (Stream.cursorStr Examples.page16) = Some b /\
    30 <= B64.size b /\ take 4 b = [66; 67; 87; 50].
Proof.
  assert (Hp : exists c, Cursor.parse_cursor_bcw2 (Stream.cursorStr Examples.page16)
                         = B64.Got c) by (eexists; vm_compute; reflexivity).
  destruct Hp as (c & Hc). exists c.
  destruct (accepted_cursor_has_magic _ c Hc) as (b & Hb & Hs & Hm & _).
  exists b. repeat split; assumption.
Defined.

(** X27.  In one round a lane hands over the keys of its buffer in
    order from its read position: at most --burst of them, never
    more than are still wanted for the page, and it stops only when
    the burst is used up, the page is full or the buffer is empty. *)
Theorem burst_is_respected `{Roaring}
        (su : Stream.Setup) (n : nat) (need : Z)
        (ln ln' : Stream.LaneRuntime) (out out' : list Z) :
  Stream.drain su n need ln out = (ln', out') ->
  Stream.buf ln' = Stream.buf ln /\
  (Stream.buf_pos ln <= Stream.buf_pos ln')%nat /\
  (Stream.buf_pos ln' - Stream.buf_pos ln <= n)%nat /\
  out' = out ++ take (Stream.buf_pos ln' - Stream.buf_pos ln)
                     (drop (Stream.buf_pos ln) (Stream.buf ln)) /\
  (Stream.bsize out <= need -> Stream.bsize out' <= need) /\
  ((Stream.buf_pos ln' - Stream.buf_pos ln = n)%nat \/
   need <= Stream.bsize out' \/
   (length (Stream.buf ln) <= Stream.buf_pos ln')%nat).
Proof.
  revert ln out ln' out'.
  induction n as [|n IH]; intros ln out ln' out' Hd; cbn [Stream.drain] in Hd.
  - injection Hd as <- <-. rewrite Nat.sub_diag. cbn [take]. rewrite app_nil_r.
    repeat split; try reflexivity; lia.
  - destruct (Z.ltb_spec (Stream.bsize out) need) as [Hlt|Hge].
    2:{ injection Hd as <- <-. rewrite Nat.sub_diag. cbn [take]. rewrite app_nil_r.
        repeat split; try reflexivity; lia. }
    destruct (Stream.buf ln !! Stream.buf_pos ln) as [v|] eqn:Hv.
    2:{ injection Hd as <- <-. rewrite Nat.sub_diag. cbn [take]. rewrite app_nil_r.
        apply lookup_ge_None in Hv.
        repeat split; try reflexivity; lia. }
    apply IH in Hd as (Hbuf & Hpos & Hn & Hout & Hneed & Hstop).
    cbn [Stream.buf Stream.buf_pos] in *.
    split; [exact Hbuf|]. split; [lia|]. split; [lia|].
    assert (Hsz : Stream.bsize (out ++ [v]) = Stream.bsize out + 1)
      by (unfold Stream.bsize; rewrite length_app; cbn [length]; lia).
    split; [|split].
    + rewrite Hout, <- app_assoc. f_equal.
      replace (Stream.buf_pos ln' - Stream.buf_pos ln)%nat
        with (S (Stream.buf_pos ln' - S (Stream.buf_pos ln))) by lia.
      rewrite (drop_S _ v _ Hv). reflexivity.
    + intros _. apply Hneed. lia.
    + destruct Hstop as [Hs|[Hs|Hs]]; [left; lia|right; left; exact Hs|
                                        right; right; exact Hs].
Qed.

Lemma burst_is_respected_witness :
  let ln := Stream.set_buf [4; 5; 6] Examples.lane16 in
  let r := @Stream.drain KeyListRoaring Examples.su16 2 10 ln [1] in
  snd r = [1] ++ take (Stream.buf_pos (fst r) - Stream.buf_pos ln)
                      (drop (Stream.buf_pos ln) (Stream.buf ln)).
Proof.
  cbv zeta.
  destruct (@Stream.drain KeyListRoaring Examples.su16 2 10
              (Stream.set_buf [4; 5; 6] Examples.lane16) [1]) as [ln' out'] eqn:E.
  cbn [fst snd].
  destruct (@burst_is_respected KeyListRoaring _ _ _ _ _ _ _ E)
    as (_ & _ & _ & Ho & _).
  exact Ho.
Defined.
